(** * Layered ROS2 / DDS discrete-event simulation: QoS matching, discovery,
      transport routing.

    A shallow embedding of the Python sources

      - [core/dataTypes.py]      (QoS policies, [QoSProfile], [Message])
      - [qos/compatibility.py]   ([QoSCompatibilityChecker])
      - [qos_adapter.py]         ([QoSAdapter], [QoSPolicyValidator.validate_profile])
      - [policies.py]            (the per-policy classes)
      - [profile.py]             ([QoSPresetProfiles], [get_profile_by_name])
      - [dds/discovery.py]       ([DiscoveryDatabase])
      - [participant.py]         ([DDSParticipant])
      - [dds/transport.py]       (router, transports, multiplexer)

    Conventions of the embedding.

    - A Python [float] holding a duration or a clock reading is an exact
      rational of [Q], or the sentinel [Inf] for [float('inf')]; rounding,
      NaN and negative infinity are not represented.
    - A [dict] is a [gmap], a [set] a [gset]; the claims below never depend
      on the iteration order of a dictionary.
    - [uuid.uuid4()] and [time.time()] are inputs of the operation that
      calls them.
    - An operation that can raise [KeyError] returns an [option]; the
      router, which can raise [AttributeError], returns a [Result]. *)

From Stdlib Require Import QArith Lqa Ascii String.
From stdpp Require Import gmap strings list fin_maps.

Local Open Scope Z_scope.

(** ** Durations *)

Module Dur.

(** A [float] number of seconds, or [float('inf')]. *)
Inductive Time : Type :=
| Fin (q : Q)
| Inf.

(** [a <= b] on floats. *)
Definition leb (a b : Time) : bool :=
  match a, b with
  | Fin x, Fin y => Qle_bool x y
  | Fin _, Inf => true
  | Inf, Fin _ => false
  | Inf, Inf => true
  end.

(** [a >= b]. *)
Definition geb (a b : Time) : bool := leb b a.

(** [a < b]. *)
Definition ltb (a b : Time) : bool :=
  match a, b with
  | Fin x, Fin y => negb (Qle_bool y x)
  | Fin _, Inf => true
  | Inf, _ => false
  end.

(** [a > b]. *)
Definition gtb (a b : Time) : bool := ltb b a.

(** [a * c] for a positive constant [c]: infinity stays infinite. *)
Definition scale (a : Time) (c : Q) : Time :=
  match a with
  | Fin x => Fin (x * c)
  | Inf => Inf
  end.

(** [min(a, b)]: Python returns the first argument unless the second is
    strictly smaller. *)
Definition min (a b : Time) : Time := if ltb b a then b else a.

Definition positive (a : Time) : bool := ltb (Fin 0) a.

(** [a + b] *)
Definition add (a b : Time) : Time :=
  match a, b with
  | Fin x, Fin y => Fin (x + y)
  | _, _ => Inf
  end.

End Dur.

Export Dur(Time, Fin, Inf).

(** ** QoS policies and profiles ([core/dataTypes.py]) *)

Module QoS.

Inductive QoSReliabilityPolicy := RELIABLE | BEST_EFFORT.
Inductive QoSDurabilityPolicy := VOLATILE | TRANSIENT_LOCAL | TRANSIENT | PERSISTENT.
Inductive QoSHistoryPolicy := KEEP_LAST | KEEP_ALL.
Inductive QoSLivelinessPolicy := AUTOMATIC | MANUAL_BY_TOPIC | MANUAL_BY_PARTICIPANT.
Inductive QoSOwnershipPolicy := SHARED | EXCLUSIVE.

#[export] Instance reliability_eq_dec : EqDecision QoSReliabilityPolicy.
Proof. solve_decision. Defined.
#[export] Instance durability_eq_dec : EqDecision QoSDurabilityPolicy.
Proof. solve_decision. Defined.
#[export] Instance history_eq_dec : EqDecision QoSHistoryPolicy.
Proof. solve_decision. Defined.
#[export] Instance liveliness_eq_dec : EqDecision QoSLivelinessPolicy.
Proof. solve_decision. Defined.
#[export] Instance ownership_eq_dec : EqDecision QoSOwnershipPolicy.
Proof. solve_decision. Defined.

(** The [.value] of the two enumerations that [DDSParticipant._qos_match]
    compares as strings. *)
Definition reliability_value (r : QoSReliabilityPolicy) : string :=
  match r with RELIABLE => "RELIABLE" | BEST_EFFORT => "BEST_EFFORT" end.

Definition durability_value (d : QoSDurabilityPolicy) : string :=
  match d with
  | VOLATILE => "VOLATILE"
  | TRANSIENT_LOCAL => "TRANSIENT_LOCAL"
  | TRANSIENT => "TRANSIENT"
  | PERSISTENT => "PERSISTENT"
  end.

(** [QoSProfile]: the fields that the checker, the validator and the
    participant read. *)
Record QoSProfile := mkQoS {
  reliability : QoSReliabilityPolicy;
  durability : QoSDurabilityPolicy;
  history : QoSHistoryPolicy;
  depth : Z;
  deadline : Time;
  lifespan : Time;
  liveliness : QoSLivelinessPolicy;
  liveliness_lease_duration : Time;
  ownership : QoSOwnershipPolicy;
  max_samples : Z;
  partition : list string
}.

(** [QoSProfile()] with the dataclass defaults. *)
Definition default_profile : QoSProfile :=
  {| reliability := RELIABLE; durability := VOLATILE; history := KEEP_LAST;
     depth := 10; deadline := Inf; lifespan := Inf; liveliness := AUTOMATIC;
     liveliness_lease_duration := Inf; ownership := SHARED;
     max_samples := 5000; partition := [] |}.

(** [QoSPolicyValidator.validate_profile] ([qos_adapter.py]): the first
    component of the returned pair. *)
Definition validate_profile (qos : QoSProfile) : bool :=
  if Dur.leb (deadline qos) (Fin 0) then false
  else if Dur.leb (lifespan qos) (Fin 0) then false
  else if bool_decide (history qos = KEEP_LAST) && (depth qos <=? 0) then false
  else if max_samples qos <? depth qos then false
  else if Dur.leb (liveliness_lease_duration qos) (Fin 0) then false
  else true.

(** A well-formed profile is one the validator accepts. *)
Definition well_formed (qos : QoSProfile) : Prop := validate_profile qos = true.

(** *** Partition names

    Python [str] operations used by [_partition_matches]. *)

Definition star : ascii := "*"%char.

(** ['*' in s] *)
Fixpoint has_star (s : string) : bool :=
  match s with
  | EmptyString => false
  | String a s' => bool_decide (a = star) || has_star s'
  end.

(** [s.split('*')]: never empty; [n] stars give [n + 1] pieces. *)
Fixpoint split_star (s : string) : list string :=
  match s with
  | EmptyString => [EmptyString]
  | String a s' =>
      if bool_decide (a = star) then EmptyString :: split_star s'
      else match split_star s' with
           | p :: ps => String a p :: ps
           | [] => [String a EmptyString]
           end
  end.

(** [name.startswith(p)] *)
Fixpoint startswith (name p : string) : bool :=
  match p, name with
  | EmptyString, _ => true
  | String a p', String b name' => bool_decide (a = b) && startswith name' p'
  | String _ _, EmptyString => false
  end.

(** [name.endswith(p)]: [p] is one of the suffixes of [name]. *)
Fixpoint endswith (name p : string) : bool :=
  bool_decide (name = p) ||
  match name with
  | EmptyString => false
  | String _ name' => endswith name' p
  end.

(** The truth value of a [str]: non-empty. *)
Definition nonempty_str (s : string) : bool :=
  match s with EmptyString => false | String _ _ => true end.

(** [parts[0]] and [parts[-1]] of a list that [split] returned. *)
Definition first_part (parts : list string) : string := hd EmptyString parts.
Definition last_part (parts : list string) : string := List.last parts EmptyString.

(** *** [QoSCompatibilityChecker] ([qos/compatibility.py])

    [pub] is the offered (writer) profile, [sub] the requested (reader)
    profile. *)

Definition _check_reliability (pub sub : QoSProfile) : bool :=
  if bool_decide (reliability sub = RELIABLE)
  then bool_decide (reliability pub = RELIABLE)
  else true.

Definition durability_levels (d : QoSDurabilityPolicy) : Z :=
  match d with
  | VOLATILE => 0 | TRANSIENT_LOCAL => 1 | TRANSIENT => 2 | PERSISTENT => 3
  end.

Definition _check_durability (pub sub : QoSProfile) : bool :=
  durability_levels (durability pub) >=? durability_levels (durability sub).

Definition _check_deadline (pub sub : QoSProfile) : bool :=
  Dur.leb (deadline pub) (deadline sub).

(** [pub.lifespan >= sub.lifespan * 0.9], "Allow 10% tolerance". *)
Definition _check_lifespan (pub sub : QoSProfile) : bool :=
  Dur.geb (lifespan pub) (Dur.scale (lifespan sub) (9 # 10)).

Definition liveliness_levels (l : QoSLivelinessPolicy) : Z :=
  match l with
  | AUTOMATIC => 0 | MANUAL_BY_TOPIC => 1 | MANUAL_BY_PARTICIPANT => 2
  end.

Definition _check_liveliness (pub sub : QoSProfile) : bool :=
  if liveliness_levels (liveliness pub) <? liveliness_levels (liveliness sub)
  then false
  else Dur.leb (liveliness_lease_duration pub) (liveliness_lease_duration sub).

Definition _check_history (pub sub : QoSProfile) : bool :=
  if bool_decide (history sub = KEEP_ALL)
  then bool_decide (history pub = KEEP_ALL)
  else if bool_decide (history pub = KEEP_LAST) && bool_decide (history sub = KEEP_LAST)
  then depth pub >=? depth sub
  else true.

Definition _check_ownership (pub sub : QoSProfile) : bool :=
  bool_decide (ownership pub = ownership sub).

Definition _partition_matches (pattern name : string) : bool :=
  if negb (has_star pattern) && negb (has_star name)
  then bool_decide (pattern = name)
  else if has_star pattern then
    let parts := split_star pattern in
    if nonempty_str (first_part parts) && negb (startswith name (first_part parts))
    then false
    else if nonempty_str (last_part parts) && negb (endswith name (last_part parts))
    then false
    else true
  else false.

(** [set(q.partition) if q.partition else {''}] *)
Definition partition_set (l : list string) : gset string :=
  match l with
  | [] => {[ EmptyString ]}
  | _ :: _ => list_to_set l
  end.

(** The two nested [for] loops return [True] at the first matching pair and
    [False] when there is none. *)
Definition _check_partition (pub sub : QoSProfile) : bool :=
  match partition pub, partition sub with
  | [], [] => true
  | _, _ =>
      existsb
        (fun pub_part =>
           existsb (fun sub_part => _partition_matches pub_part sub_part)
                   (elements (partition_set (partition sub))))
        (elements (partition_set (partition pub)))
  end.

(** The warnings are formatted strings; a warning is represented by the
    condition that produced it. *)
Inductive Warning :=
| DeadlineClose (pub_deadline sub_deadline : Time)
| SmallHistoryDepth (pub_depth : Z)
| LifespanBelowTwiceDeadline
| MaxSamplesCloseToDepth.

Definition _generate_warnings (pub sub : QoSProfile) : list Warning :=
  (if Dur.gtb (deadline pub) (Dur.scale (deadline sub) (8 # 10))
   then [DeadlineClose (deadline pub) (deadline sub)] else []) ++
  (if bool_decide (history pub = KEEP_LAST) && (depth pub <? 5)
   then [SmallHistoryDepth (depth pub)] else []) ++
  (if Dur.ltb (lifespan pub) (Dur.scale (deadline pub) 2)
   then [LifespanBelowTwiceDeadline] else []) ++
  (if max_samples pub <? depth pub * 2
   then [MaxSamplesCloseToDepth] else []).

Record QoSCompatibilityResult := mkResult {
  compatible : bool;
  incompatible_policies : list string;
  warnings : list Warning
}.

(** [if not check(pub, sub): incompatible.append(name)] *)
Definition append_unless (ok : bool) (name : string) (incompatible : list string)
  : list string :=
  if ok then incompatible else incompatible ++ [name].

Definition check_compatibility (pub_qos sub_qos : QoSProfile)
  : QoSCompatibilityResult :=
  let incompatible := [] in
  let incompatible := append_unless (_check_reliability pub_qos sub_qos) "reliability" incompatible in
  let incompatible := append_unless (_check_durability pub_qos sub_qos) "durability" incompatible in
  let incompatible := append_unless (_check_deadline pub_qos sub_qos) "deadline" incompatible in
  let incompatible := append_unless (_check_lifespan pub_qos sub_qos) "lifespan" incompatible in
  let incompatible := append_unless (_check_liveliness pub_qos sub_qos) "liveliness" incompatible in
  let incompatible := append_unless (_check_history pub_qos sub_qos) "history" incompatible in
  let incompatible := append_unless (_check_ownership pub_qos sub_qos) "ownership" incompatible in
  let incompatible := append_unless (_check_partition pub_qos sub_qos) "partition" incompatible in
  {| compatible := bool_decide (length incompatible = 0%nat);
     incompatible_policies := incompatible;
     warnings := _generate_warnings pub_qos sub_qos |}.

End QoS.

(** ** Discovery data and database ([dds/discovery.py]) *)

Module ParticipantInfo.
Record t := mk {
  guid : string;
  domain_id : Z;
  lease_expiry : Time;
  vendor_id : string
}.
End ParticipantInfo.

Module EndpointInfo.
(** [kind] is ['reader'] or ['writer']; [participant_guid] defaults to
    the empty string. *)
Record t := mk {
  guid : string;
  participant_guid : string;
  topic : string;
  type_name : string;
  kind : string;
  qos : QoS.QoSProfile;
  partition : list string
}.
End EndpointInfo.

Module DiscoveryMessage.
Record t := mk {
  participant_guid : string;
  domain_id : Z;
  endpoints : list EndpointInfo.t;
  lease_duration : Time
}.
End DiscoveryMessage.

Module Discovery.

Record DiscoveryDatabase := mkDB {
  participants : gmap string ParticipantInfo.t;
  endpoints : gmap string EndpointInfo.t;
  topic_cache : gmap string (gset string)
}.

(** [DiscoveryDatabase()] *)
Definition empty_db : DiscoveryDatabase :=
  {| participants := ∅; endpoints := ∅; topic_cache := ∅ |}.

Definition add_participant (db : DiscoveryDatabase) (info : ParticipantInfo.t)
  : DiscoveryDatabase :=
  {| participants := <[ParticipantInfo.guid info := info]> (participants db);
     endpoints := endpoints db;
     topic_cache := topic_cache db |}.

Definition add_endpoint (db : DiscoveryDatabase) (info : EndpointInfo.t)
  : DiscoveryDatabase :=
  let cache :=
    match topic_cache db !! EndpointInfo.topic info with
    | Some _ => topic_cache db
    | None => <[EndpointInfo.topic info := ∅]> (topic_cache db)
    end in
  {| participants := participants db;
     endpoints := <[EndpointInfo.guid info := info]> (endpoints db);
     topic_cache :=
       alter (fun s => s ∪ {[EndpointInfo.guid info]}) (EndpointInfo.topic info) cache |}.

Definition remove_endpoint (db : DiscoveryDatabase) (guid : string)
  : DiscoveryDatabase :=
  match endpoints db !! guid with
  | Some ep_info =>
      let topic := EndpointInfo.topic ep_info in
      {| participants := participants db;
         endpoints := delete guid (endpoints db);
         topic_cache :=
           match topic_cache db !! topic with
           | Some s =>
               let s' := s ∖ {[guid]} in
               if bool_decide (s' = ∅) then delete topic (topic_cache db)
               else <[topic := s']> (topic_cache db)
           | None => topic_cache db
           end |}
  | None => db
  end.

(** The keys collected in [to_remove], in the order of the dictionary. *)
Definition endpoints_of (eps : gmap string EndpointInfo.t) (guid : string)
  : list string :=
  (map_to_list (filter (fun kv => EndpointInfo.participant_guid kv.2 = guid) eps)).*1.

Definition remove_participant (db : DiscoveryDatabase) (guid : string)
  : DiscoveryDatabase :=
  let db1 :=
    {| participants := delete guid (participants db);
       endpoints := endpoints db;
       topic_cache := topic_cache db |} in
  foldl remove_endpoint db1 (endpoints_of (endpoints db1) guid).

(** The keys collected in [expired]: [current_time > info.lease_expiry]. *)
Definition expired_of (ps : gmap string ParticipantInfo.t) (current_time : Q)
  : list string :=
  (map_to_list
     (filter (fun kv => Dur.gtb (Fin current_time) (ParticipantInfo.lease_expiry kv.2) = true)
             ps)).*1.

Definition cleanup_expired (db : DiscoveryDatabase) (current_time : Q)
  : DiscoveryDatabase :=
  foldl remove_participant db (expired_of (participants db) current_time).

(** The operations of the database, and the states they reach from the
    empty database. *)
Inductive Op :=
| OpAddParticipant (info : ParticipantInfo.t)
| OpAddEndpoint (info : EndpointInfo.t)
| OpRemoveEndpoint (guid : string)
| OpRemoveParticipant (guid : string)
| OpCleanupExpired (current_time : Q).

Definition apply_op (db : DiscoveryDatabase) (op : Op) : DiscoveryDatabase :=
  match op with
  | OpAddParticipant info => add_participant db info
  | OpAddEndpoint info => add_endpoint db info
  | OpRemoveEndpoint guid => remove_endpoint db guid
  | OpRemoveParticipant guid => remove_participant db guid
  | OpCleanupExpired current_time => cleanup_expired db current_time
  end.

Definition run (ops : list Op) : DiscoveryDatabase := foldl apply_op empty_db ops.

Definition reachable (db : DiscoveryDatabase) : Prop := ∃ ops, db = run ops.

End Discovery.

(** ** The domain participant ([participant.py]) *)

Module DataWriter.
Record t := mk {
  guid : string;
  qos : QoS.QoSProfile;
  topic_name : string;
  type_name : string;
  partition : list string
}.
End DataWriter.

Module DataReader.
(** [callback] is an optional callable; a callable is named by a number. *)
Record t := mk {
  guid : string;
  qos : QoS.QoSProfile;
  topic_name : string;
  type_name : string;
  partition : list string;
  callback : option nat
}.
End DataReader.

Module DataMsg.
(** The dictionary [dds_msg] built by [write_data]. *)
Record t := mk {
  writer_guid : string;
  sequence_number : Z;
  topic : string;
  data : string;
  timestamp : Q
}.
End DataMsg.

Module Heartbeat.
(** The dictionary built by [_create_heartbeat_message]. *)
Record t := mk {
  participant_guid : string;
  timestamp : Q;
  alive_writers : list string;
  alive_readers : list string
}.
End Heartbeat.

Module Participant.

Import QoS.

(** The attributes of a [DDSParticipant] that are fixed by [__init__]. *)
Record Attrs := mkAttrs {
  domain_id : Z;
  participant_guid : string;
  discovery_period : Q;
  heartbeat_period : Q;
  lease_duration : Time
}.

(** [self.state]. The entry ['pending_discoveries'] is never read or
    written after [__init__] and is left out. *)
Record State := mkState {
  phase : string;
  initialized : bool;
  discovered_participants : gmap string ParticipantInfo.t;
  discovered_endpoints : gmap string EndpointInfo.t;
  local_writers : gmap string (list DataWriter.t);
  local_readers : gmap string (list DataReader.t);
  matched_endpoints : gmap string (gset string);
  pending_messages : list DataMsg.t;
  last_discovery_time : Q;
  last_heartbeat_time : Q;
  sequence_numbers : gmap string Z
}.

(** The state set up by [__init__]. *)
Definition init_state : State :=
  {| phase := "initializing"; initialized := false;
     discovered_participants := ∅; discovered_endpoints := ∅;
     local_writers := ∅; local_readers := ∅; matched_endpoints := ∅;
     pending_messages := []; last_discovery_time := 0; last_heartbeat_time := 0;
     sequence_numbers := ∅ |}.

Definition set_phase (p : string) (st : State) : State :=
  mkState p (initialized st) (discovered_participants st) (discovered_endpoints st)
    (local_writers st) (local_readers st) (matched_endpoints st)
    (pending_messages st) (last_discovery_time st) (last_heartbeat_time st)
    (sequence_numbers st).

Definition set_initialized (b : bool) (st : State) : State :=
  mkState (phase st) b (discovered_participants st) (discovered_endpoints st)
    (local_writers st) (local_readers st) (matched_endpoints st)
    (pending_messages st) (last_discovery_time st) (last_heartbeat_time st)
    (sequence_numbers st).

Definition set_discovered_participants (m : gmap string ParticipantInfo.t)
  (st : State) : State :=
  mkState (phase st) (initialized st) m (discovered_endpoints st)
    (local_writers st) (local_readers st) (matched_endpoints st)
    (pending_messages st) (last_discovery_time st) (last_heartbeat_time st)
    (sequence_numbers st).

Definition set_discovered_endpoints (m : gmap string EndpointInfo.t)
  (st : State) : State :=
  mkState (phase st) (initialized st) (discovered_participants st) m
    (local_writers st) (local_readers st) (matched_endpoints st)
    (pending_messages st) (last_discovery_time st) (last_heartbeat_time st)
    (sequence_numbers st).

Definition set_local_writers (m : gmap string (list DataWriter.t))
  (st : State) : State :=
  mkState (phase st) (initialized st) (discovered_participants st)
    (discovered_endpoints st) m (local_readers st) (matched_endpoints st)
    (pending_messages st) (last_discovery_time st) (last_heartbeat_time st)
    (sequence_numbers st).

Definition set_local_readers (m : gmap string (list DataReader.t))
  (st : State) : State :=
  mkState (phase st) (initialized st) (discovered_participants st)
    (discovered_endpoints st) (local_writers st) m (matched_endpoints st)
    (pending_messages st) (last_discovery_time st) (last_heartbeat_time st)
    (sequence_numbers st).

Definition set_matched_endpoints (m : gmap string (gset string))
  (st : State) : State :=
  mkState (phase st) (initialized st) (discovered_participants st)
    (discovered_endpoints st) (local_writers st) (local_readers st) m
    (pending_messages st) (last_discovery_time st) (last_heartbeat_time st)
    (sequence_numbers st).

Definition set_pending_messages (l : list DataMsg.t) (st : State) : State :=
  mkState (phase st) (initialized st) (discovered_participants st)
    (discovered_endpoints st) (local_writers st) (local_readers st)
    (matched_endpoints st) l (last_discovery_time st) (last_heartbeat_time st)
    (sequence_numbers st).

Definition set_last_discovery_time (t : Q) (st : State) : State :=
  mkState (phase st) (initialized st) (discovered_participants st)
    (discovered_endpoints st) (local_writers st) (local_readers st)
    (matched_endpoints st) (pending_messages st) t (last_heartbeat_time st)
    (sequence_numbers st).

Definition set_last_heartbeat_time (t : Q) (st : State) : State :=
  mkState (phase st) (initialized st) (discovered_participants st)
    (discovered_endpoints st) (local_writers st) (local_readers st)
    (matched_endpoints st) (pending_messages st) (last_discovery_time st) t
    (sequence_numbers st).

Definition set_sequence_numbers (m : gmap string Z) (st : State) : State :=
  mkState (phase st) (initialized st) (discovered_participants st)
    (discovered_endpoints st) (local_writers st) (local_readers st)
    (matched_endpoints st) (pending_messages st) (last_discovery_time st)
    (last_heartbeat_time st) m.

(** *** [timeAdvance]

    The method reads [time.time()] and, in phase ['active'], assigns
    [self.state['phase']]: it maps a clock reading and a state to a delay
    and a state. *)
Definition timeAdvance (self : Attrs) (current_time : Q) (st : State)
  : Time * State :=
  if bool_decide (phase st = "initializing") then (Fin (1 # 100), st)
  else if bool_decide (phase st = "active") then
    let time_since_discovery := (current_time - last_discovery_time st)%Q in
    let time_since_heartbeat := (current_time - last_heartbeat_time st)%Q in
    if Qle_bool (discovery_period self) time_since_discovery
    then (Fin (1 # 1000), set_phase "discovering" st)
    else if Qle_bool (heartbeat_period self) time_since_heartbeat
    then (Fin (1 # 1000), set_phase "heartbeat" st)
    else match pending_messages st with
         | _ :: _ => (Fin (1 # 10000), set_phase "sending_data" st)
         | [] =>
             let next_discovery := (discovery_period self - time_since_discovery)%Q in
             let next_heartbeat := (heartbeat_period self - time_since_heartbeat)%Q in
             (Dur.min (Fin next_discovery) (Fin next_heartbeat), st)
         end
  else if bool_decide (phase st = "discovering")
          || bool_decide (phase st = "heartbeat")
          || bool_decide (phase st = "sending_data")
  then (Fin (1 # 1000), st)
  else (Inf, st).

(** *** Local endpoints *)

(** [create_writer]; [guid] is the fresh [uuid4] of the new [DataWriter]. *)
Definition create_writer (st : State) (guid topic type_name : string)
  (writer_qos : QoSProfile) : DataWriter.t * State :=
  let writer :=
    {| DataWriter.guid := guid; DataWriter.qos := writer_qos;
       DataWriter.topic_name := topic; DataWriter.type_name := type_name;
       DataWriter.partition := QoS.partition writer_qos |} in
  let writers := default [] (local_writers st !! topic) ++ [writer] in
  let st := set_local_writers (<[topic := writers]> (local_writers st)) st in
  let st := set_sequence_numbers (<[guid := 0]> (sequence_numbers st)) st in
  (writer, set_phase "discovering" st).

(** [create_reader] *)
Definition create_reader (st : State) (guid topic type_name : string)
  (reader_qos : QoSProfile) (callback : option nat) : DataReader.t * State :=
  let reader :=
    {| DataReader.guid := guid; DataReader.qos := reader_qos;
       DataReader.topic_name := topic; DataReader.type_name := type_name;
       DataReader.partition := QoS.partition reader_qos;
       DataReader.callback := callback |} in
  let readers := default [] (local_readers st !! topic) ++ [reader] in
  let st := set_local_readers (<[topic := readers]> (local_readers st)) st in
  (reader, set_phase "discovering" st).

(** [_get_all_writers], [_get_all_readers] *)
Definition _get_all_writers (st : State) : list DataWriter.t :=
  concat (map_to_list (local_writers st)).*2.

Definition _get_all_readers (st : State) : list DataReader.t :=
  concat (map_to_list (local_readers st)).*2.

(** The search loop of [write_data]. The inner [break] leaves only the
    inner loop, so the hit in the last list that has one is kept. Writer
    guids are [uuid4] values; with distinct guids there is one hit. *)
Definition find_writer (st : State) (writer_guid : string) : option DataWriter.t :=
  foldl
    (fun writer writers =>
       match List.find (fun w => bool_decide (DataWriter.guid w = writer_guid)) writers with
       | Some w => Some w
       | None => writer
       end)
    None (map_to_list (local_writers st)).*2.

(** [write_data]: [None] is the [KeyError] of a writer without a
    sequence-number counter; otherwise the returned flag and the state. *)
Definition write_data (st : State) (writer_guid data : string) (now : Q)
  : option (bool * State) :=
  match find_writer st writer_guid with
  | None => Some (false, st)
  | Some writer =>
      match sequence_numbers st !! writer_guid with
      | None => None
      | Some seq_num =>
          let st := set_sequence_numbers
                      (<[writer_guid := seq_num + 1]> (sequence_numbers st)) st in
          let dds_msg :=
            {| DataMsg.writer_guid := writer_guid;
               DataMsg.sequence_number := seq_num;
               DataMsg.topic := DataWriter.topic_name writer;
               DataMsg.data := data;
               DataMsg.timestamp := now |} in
          if bool_decide (is_Some (matched_endpoints st !! writer_guid))
          then Some (true, set_pending_messages (pending_messages st ++ [dds_msg]) st)
          else Some (false, st)
      end
  end.

(** *** Discovery messages *)

(** The [EndpointInfo] built for a local writer: [participant_guid] is not
    passed to the constructor and keeps its default, the empty string. *)
Definition writer_endpoint (writer : DataWriter.t) : EndpointInfo.t :=
  {| EndpointInfo.guid := DataWriter.guid writer;
     EndpointInfo.participant_guid := "";
     EndpointInfo.topic := DataWriter.topic_name writer;
     EndpointInfo.type_name := DataWriter.type_name writer;
     EndpointInfo.kind := "writer";
     EndpointInfo.qos := DataWriter.qos writer;
     EndpointInfo.partition := DataWriter.partition writer |}.

Definition reader_endpoint (reader : DataReader.t) : EndpointInfo.t :=
  {| EndpointInfo.guid := DataReader.guid reader;
     EndpointInfo.participant_guid := "";
     EndpointInfo.topic := DataReader.topic_name reader;
     EndpointInfo.type_name := DataReader.type_name reader;
     EndpointInfo.kind := "reader";
     EndpointInfo.qos := DataReader.qos reader;
     EndpointInfo.partition := DataReader.partition reader |}.

Definition _create_discovery_message (self : Attrs) (st : State)
  : DiscoveryMessage.t :=
  {| DiscoveryMessage.participant_guid := participant_guid self;
     DiscoveryMessage.domain_id := domain_id self;
     DiscoveryMessage.endpoints :=
       map writer_endpoint (_get_all_writers st) ++
       map reader_endpoint (_get_all_readers st);
     DiscoveryMessage.lease_duration := lease_duration self |}.

Definition _create_heartbeat_message (self : Attrs) (st : State) (now : Q)
  : Heartbeat.t :=
  {| Heartbeat.participant_guid := participant_guid self;
     Heartbeat.timestamp := now;
     Heartbeat.alive_writers := map DataWriter.guid (_get_all_writers st);
     Heartbeat.alive_readers := map DataReader.guid (_get_all_readers st) |}.

(** *** Endpoint matching *)

(** [durability_levels.get(value, 0)] on the string values. *)
Definition durability_levels_get (value : string) : Z :=
  if bool_decide (value = "VOLATILE") then 0
  else if bool_decide (value = "TRANSIENT_LOCAL") then 1
  else if bool_decide (value = "TRANSIENT") then 2
  else if bool_decide (value = "PERSISTENT") then 3
  else 0.

(** [set(a) & set(b)] is non-empty. *)
Definition partitions_intersect (a b : list string) : bool :=
  bool_decide ((list_to_set a : gset string) ∩ list_to_set b ≠ ∅).

Definition _qos_match (writer_qos reader_qos : QoSProfile) : bool :=
  if bool_decide (reliability_value (reliability reader_qos) = "RELIABLE")
     && bool_decide (reliability_value (reliability writer_qos) = "BEST_EFFORT")
  then false
  else
    let writer_level := durability_levels_get (durability_value (durability writer_qos)) in
    let reader_level := durability_levels_get (durability_value (durability reader_qos)) in
    if reader_level >? writer_level then false
    else if Dur.gtb (deadline writer_qos) (deadline reader_qos) then false
    else
      match QoS.partition writer_qos, QoS.partition reader_qos with
      | _ :: _, _ :: _ =>
          if negb (partitions_intersect (QoS.partition writer_qos) (QoS.partition reader_qos))
          then false else true
      | _, _ => true
      end.

(** [if local not in matched: matched[local] = set()] followed by
    [matched[local].add(remote)]. *)
Definition add_match (matched : gmap string (gset string)) (local remote : string)
  : gmap string (gset string) :=
  <[local := default ∅ (matched !! local) ∪ {[remote]}]> matched.

Definition _check_endpoint_matching (st : State) (remote_endpoint : EndpointInfo.t)
  : State :=
  if bool_decide (EndpointInfo.kind remote_endpoint = "writer") then
    match local_readers st !! EndpointInfo.topic remote_endpoint with
    | Some readers =>
        foldl
          (fun st reader =>
             if _qos_match (EndpointInfo.qos remote_endpoint) (DataReader.qos reader)
             then set_matched_endpoints
                    (add_match (matched_endpoints st) (DataReader.guid reader)
                               (EndpointInfo.guid remote_endpoint)) st
             else st)
          st readers
    | None => st
    end
  else if bool_decide (EndpointInfo.kind remote_endpoint = "reader") then
    match local_writers st !! EndpointInfo.topic remote_endpoint with
    | Some writers =>
        foldl
          (fun st writer =>
             if _qos_match (DataWriter.qos writer) (EndpointInfo.qos remote_endpoint)
             then set_matched_endpoints
                    (add_match (matched_endpoints st) (DataWriter.guid writer)
                               (EndpointInfo.guid remote_endpoint)) st
             else st)
          st writers
    | None => st
    end
  else st.

(** The body of the loop over [msg.endpoints]. *)
Definition process_endpoint (st : State) (endpoint : EndpointInfo.t) : State :=
  let st := set_discovered_endpoints
              (<[EndpointInfo.guid endpoint := endpoint]> (discovered_endpoints st)) st in
  _check_endpoint_matching st endpoint.

Definition _process_discovery_message (self : Attrs) (st : State)
  (msg : DiscoveryMessage.t) (now : Q) : State :=
  if bool_decide (DiscoveryMessage.participant_guid msg = participant_guid self)
  then st
  else
    let info :=
      {| ParticipantInfo.guid := DiscoveryMessage.participant_guid msg;
         ParticipantInfo.domain_id := DiscoveryMessage.domain_id msg;
         ParticipantInfo.lease_expiry :=
           Dur.add (Fin now) (DiscoveryMessage.lease_duration msg);
         ParticipantInfo.vendor_id := "ROS2_DEVS" |} in
    let st := set_discovered_participants
                (<[DiscoveryMessage.participant_guid msg := info]>
                   (discovered_participants st)) st in
    foldl process_endpoint st (DiscoveryMessage.endpoints msg).

(** [_process_data_message] leaves the state alone; it calls the callback
    of every local reader matched with the writer. The result lists the
    calls made: callback and argument. *)
Definition _process_data_message (st : State) (msg : DataMsg.t)
  : list (nat * string) :=
  let writer_guid := DataMsg.writer_guid msg in
  omap
    (fun reader : DataReader.t =>
       match matched_endpoints st !! DataReader.guid reader with
       | Some matched =>
           if bool_decide (writer_guid ∈ matched)
           then (fun cb => (cb, DataMsg.data msg)) <$> DataReader.callback reader
           else None
       | None => None
       end)
    (_get_all_readers st).

(** *** The lease sweep *)

(** [del discovered_endpoints[ep_guid]] and [matched.discard(ep_guid)] for
    every matched set. *)
Definition remove_discovered_endpoint (st : State) (ep_guid : string) : State :=
  let st := set_discovered_endpoints (delete ep_guid (discovered_endpoints st)) st in
  set_matched_endpoints ((fun matched => matched ∖ {[ep_guid]}) <$> matched_endpoints st) st.

(** The keys collected in [to_remove]. *)
Definition endpoints_of (st : State) (guid : string) : list string :=
  (map_to_list
     (filter (fun kv => EndpointInfo.participant_guid kv.2 = guid)
             (discovered_endpoints st))).*1.

(** The body of the loop over [expired]. *)
Definition remove_expired (st : State) (guid : string) : State :=
  let st := set_discovered_participants (delete guid (discovered_participants st)) st in
  foldl remove_discovered_endpoint st (endpoints_of st guid).

(** The keys collected in [expired]: [current_time > info.lease_expiry]. *)
Definition expired_of (st : State) (current_time : Q) : list string :=
  (map_to_list
     (filter (fun kv => Dur.gtb (Fin current_time) (ParticipantInfo.lease_expiry kv.2) = true)
             (discovered_participants st))).*1.

Definition cleanup_expired_participants (st : State) (current_time : Q) : State :=
  foldl remove_expired st (expired_of st current_time).

(** *** The DEVS transitions *)

(** What [outputFnc] returns: a dictionary with at most one port. *)
Inductive Output :=
| OutNothing
| OutDiscovery (msg : DiscoveryMessage.t)
| OutHeartbeat (msg : Heartbeat.t)
| OutData (msg : DataMsg.t).

(** [outputFnc]; in phase ['sending_data'] it pops the head of
    [pending_messages]. *)
Definition outputFnc (self : Attrs) (st : State) (now : Q) : Output * State :=
  if bool_decide (phase st = "initializing") && negb (initialized st)
  then (OutNothing, st)
  else if bool_decide (phase st = "discovering")
  then (OutDiscovery (_create_discovery_message self st), st)
  else if bool_decide (phase st = "heartbeat")
  then (OutHeartbeat (_create_heartbeat_message self st now), st)
  else if bool_decide (phase st = "sending_data") then
    match pending_messages st with
    | msg :: rest => (OutData msg, set_pending_messages rest st)
    | [] => (OutNothing, st)
    end
  else (OutNothing, st).

Definition intTransition (st : State) (current_time : Q) : State :=
  if bool_decide (phase st = "initializing") then
    set_last_heartbeat_time current_time
      (set_last_discovery_time current_time
         (set_phase "active" (set_initialized true st)))
  else if bool_decide (phase st = "discovering") then
    set_phase "active" (set_last_discovery_time current_time st)
  else if bool_decide (phase st = "heartbeat") then
    set_phase "active" (set_last_heartbeat_time current_time st)
  else if bool_decide (phase st = "sending_data") then
    set_phase "active" st
  else st.

(** The commands that [_process_rmw_command] understands; [guid] is the
    [uuid4] drawn for the new endpoint. Any other command is ignored. *)
Inductive Command :=
| CmdCreateWriter (guid topic type_name : string) (qos : QoSProfile)
| CmdCreateReader (guid topic type_name : string) (qos : QoSProfile) (callback : option nat)
| CmdWriteData (writer_handle data : string)
| CmdOther.

Definition _process_rmw_command (st : State) (command : Command) (now : Q)
  : option State :=
  match command with
  | CmdCreateWriter guid topic type_name qos =>
      Some (create_writer st guid topic type_name qos).2
  | CmdCreateReader guid topic type_name qos callback =>
      Some (create_reader st guid topic type_name qos callback).2
  | CmdWriteData writer_handle data =>
      snd <$> write_data st writer_handle data now
  | CmdOther => Some st
  end.

(** The input bag of [extTransition]: what arrived on [discovery_in],
    [data_in] and [rmw_commands]. *)
Record Inputs := mkInputs {
  on_discovery_in : option DiscoveryMessage.t;
  on_data_in : option DataMsg.t;
  on_rmw_command_in : option Command
}.

(** A value on [data_in] is handed to [_process_data_message], which calls
    reader callbacks and does not touch the state. *)
Definition extTransition (self : Attrs) (st : State) (inputs : Inputs) (now : Q)
  : option State :=
  let st :=
    match on_discovery_in inputs with
    | Some discovery_msg => _process_discovery_message self st discovery_msg now
    | None => st
    end in
  match on_rmw_command_in inputs with
  | Some command => _process_rmw_command st command now
  | None => Some st
  end.

(** *** Reachable states

    Everything that can act on a participant: the four DEVS functions
    called by the simulator, and the public methods. *)
Inductive Event :=
| EvTimeAdvance (now : Q)
| EvOutput (now : Q)
| EvInternal (now : Q)
| EvExternal (inputs : Inputs) (now : Q)
| EvCreateWriter (guid topic type_name : string) (qos : QoSProfile)
| EvCreateReader (guid topic type_name : string) (qos : QoSProfile) (callback : option nat)
| EvWriteData (writer_guid data : string) (now : Q)
| EvCleanup (now : Q).

Definition apply_event (self : Attrs) (st : State) (ev : Event) : option State :=
  match ev with
  | EvTimeAdvance now => Some (timeAdvance self now st).2
  | EvOutput now => Some (outputFnc self st now).2
  | EvInternal now => Some (intTransition st now)
  | EvExternal inputs now => extTransition self st inputs now
  | EvCreateWriter guid topic type_name qos =>
      Some (create_writer st guid topic type_name qos).2
  | EvCreateReader guid topic type_name qos callback =>
      Some (create_reader st guid topic type_name qos callback).2
  | EvWriteData writer_guid data now => snd <$> write_data st writer_guid data now
  | EvCleanup now => Some (cleanup_expired_participants st now)
  end.

Fixpoint run_from (self : Attrs) (st : State) (evs : list Event) : option State :=
  match evs with
  | [] => Some st
  | ev :: evs' =>
      match apply_event self st ev with
      | Some st' => run_from self st' evs'
      | None => None
      end
  end.

Definition reachable (self : Attrs) (st : State) : Prop :=
  ∃ evs, run_from self init_state evs = Some st.

End Participant.

(** ** The transport layer ([dds/transport.py]) *)

Module Transport.

Import QoS.

Inductive TransportType := SHARED_MEMORY | UDP_MULTICAST | UDP_UNICAST | TCP.

#[export] Instance transport_type_eq_dec : EqDecision TransportType.
Proof. solve_decision. Defined.

(** The exception that the transport layer can raise, with the name of
    the attribute that was not found. *)
Inductive Exception := AttributeError (name : string).

(** The outcome of a call: the value returned, or the exception raised. *)
Inductive Result (A : Type) :=
| Ok (value : A)
| Raise (e : Exception).

Arguments Ok {A} value.
Arguments Raise {A} e.

#[export] Instance result_ret : MRet Result := fun A value => Ok value.

#[export] Instance result_bind : MBind Result :=
  fun A B f r => match r with Ok value => f value | Raise e => Raise e end.

(** [MessageType] of [core/dataTypes.py]. *)
Inductive MessageType :=
| DATA | SERVICE_REQUEST | SERVICE_RESPONSE | ACTION_GOAL | ACTION_FEEDBACK
| ACTION_RESULT | PARAMETER_EVENT | CLOCK.

#[export] Instance message_type_eq_dec : EqDecision MessageType.
Proof. solve_decision. Defined.

(** [MessageType.<name>]: the member of that name. The enumeration raises
    [AttributeError] for a name that it does not declare. *)
Definition MessageType_member (name : string) : Result MessageType :=
  if bool_decide (name = "DATA") then Ok DATA
  else if bool_decide (name = "SERVICE_REQUEST") then Ok SERVICE_REQUEST
  else if bool_decide (name = "SERVICE_RESPONSE") then Ok SERVICE_RESPONSE
  else if bool_decide (name = "ACTION_GOAL") then Ok ACTION_GOAL
  else if bool_decide (name = "ACTION_FEEDBACK") then Ok ACTION_FEEDBACK
  else if bool_decide (name = "ACTION_RESULT") then Ok ACTION_RESULT
  else if bool_decide (name = "PARAMETER_EVENT") then Ok PARAMETER_EVENT
  else if bool_decide (name = "CLOCK") then Ok CLOCK
  else Raise (AttributeError name).

(** An attribute that the class of an object does not declare: it is
    [Absent] on an instance built by the constructor, and [Assigned v]
    once [v] was assigned to it on the instance. *)
Inductive Attribute (A : Type) :=
| Absent
| Assigned (value : A).

Arguments Absent {A}.
Arguments Assigned {A} value.

(** Reading the attribute [name] of an object. *)
Definition getattr {A : Type} (name : string) (a : Attribute A) : Result A :=
  match a with
  | Assigned value => Ok value
  | Absent => Raise (AttributeError name)
  end.

(** The attributes of a message that the router reads. [Message] of
    [core/dataTypes.py] declares [source_node], [type] and [qos_profile];
    it declares the set [destination_nodes] and no [destination_node].
    A node name may be [None]. *)
Record Message := mkMessage {
  source_node : option string;
  destination_node : Attribute (option string);
  type : MessageType;
  qos_profile : option QoSProfile;
  payload : string
}.

(** The network section of the configuration. *)
Record NetworkConfig := mkNetworkConfig {
  lan_latency_us : Q;
  wan_latency_us : Q;
  lan_loss_rate : Q
}.

End Transport.

(** [TransportRouter] *)
Module TransportRouter.

Import QoS Transport.

Inductive OutPort := shm_out | multicast_out | unicast_out | tcp_out.

(** [self.state]: [None] after [__init__]; [extTransition] returns a
    dictionary from one output port to the message, and the simulator
    stores what [extTransition] returns as the new state. *)
Inductive State :=
| StNone
| StDict (port : OutPort) (message : Message).

(** [_select_transport]. The first test reads [message.destination_node];
    the second test evaluates [MessageType.DISCOVERY]. *)
Definition _select_transport (message : Message) : Result TransportType :=
  destination ← getattr "destination_node" (destination_node message);
  if bool_decide (source_node message = destination)
  then Ok SHARED_MEMORY
  else
    discovery ← MessageType_member "DISCOVERY";
    if bool_decide (type message = discovery)
    then Ok UDP_MULTICAST
    else
      match qos_profile message with
      | Some qos =>
          if bool_decide (reliability qos = RELIABLE) then Ok TCP else Ok UDP_UNICAST
      | None => Ok UDP_UNICAST
      end.

Definition timeAdvance (st : State) : Time := Inf.

Definition outputFnc (st : State) : list (OutPort * Message) := [].

Definition intTransition (st : State) : State := st.

(** [inputs] holds the value on [data_in], if any. *)
Definition extTransition (st : State) (inputs : option Message) : Result State :=
  match inputs with
  | Some message =>
      transport ← _select_transport message;
      if bool_decide (transport = SHARED_MEMORY) then Ok (StDict shm_out message)
      else if bool_decide (transport = UDP_MULTICAST) then Ok (StDict multicast_out message)
      else if bool_decide (transport = UDP_UNICAST) then Ok (StDict unicast_out message)
      else Ok (StDict tcp_out message)
  | None => Ok st
  end.

End TransportRouter.

(** [SharedMemoryTransport] *)
Module SharedMemoryTransport.

Import Transport.

(** [self.state]: [None], or the dictionary [{data_out: message}] that
    [extTransition] returned. *)
Inductive State :=
| StNone
| StDict (message : Message).

Definition timeAdvance (st : State) : Time := Inf.

Definition outputFnc (st : State) : list Message := [].

Definition intTransition (st : State) : State := st.

Definition extTransition (st : State) (inputs : option Message) : State :=
  match inputs with
  | Some message => StDict message
  | None => st
  end.

End SharedMemoryTransport.

(** [NetworkTransport] *)
Module NetworkTransport.

Import Transport.

(** [self.state['pending_messages']] *)
Record State := mkState { pending_messages : list Message }.

Definition init_state : State := {| pending_messages := [] |}.

Definition _get_latency (config : NetworkConfig) (transport_type : TransportType)
  : Q :=
  match transport_type with
  | UDP_MULTICAST => (lan_latency_us config / 1000000)%Q
  | UDP_UNICAST => (lan_latency_us config / 1000000)%Q
  | _ => (wan_latency_us config / 1000000)%Q
  end.

(** [random_sample] is the value that [random.random()] returns. *)
Definition _should_drop (config : NetworkConfig) (transport_type : TransportType)
  (random_sample : Q) : bool :=
  match transport_type with
  | UDP_MULTICAST => negb (Qle_bool (lan_loss_rate config) random_sample)
  | UDP_UNICAST => negb (Qle_bool (lan_loss_rate config) random_sample)
  | _ => false
  end.

Definition timeAdvance (config : NetworkConfig) (transport_type : TransportType)
  (st : State) : Time :=
  match pending_messages st with
  | _ :: _ => Fin (_get_latency config transport_type)
  | [] => Inf
  end.

Definition outputFnc (st : State) : list Message :=
  match pending_messages st with
  | message :: _ => [message]
  | [] => []
  end.

Definition intTransition (st : State) : State :=
  match pending_messages st with
  | _ :: rest => {| pending_messages := rest |}
  | [] => st
  end.

Definition extTransition (config : NetworkConfig) (transport_type : TransportType)
  (st : State) (inputs : option Message) (random_sample : Q) : State :=
  match inputs with
  | Some message =>
      if _should_drop config transport_type random_sample then st
      else {| pending_messages := pending_messages st ++ [message] |}
  | None => st
  end.

End NetworkTransport.

(** [TransportMultiplexer]: the coupled model and its simulation. *)
Module TransportMultiplexer.

Import Transport.

(** The five sub-models added by [__init__]. *)
Inductive Child := Router | Shm | Multicast | Unicast | Tcp.

#[export] Instance child_eq_dec : EqDecision Child.
Proof. solve_decision. Defined.

Definition children : list Child := [Router; Shm; Multicast; Unicast; Tcp].

(** The transport type each [NetworkTransport] is constructed with. *)
Definition net_type (c : Child) : TransportType :=
  match c with
  | Multicast => UDP_MULTICAST
  | Unicast => UDP_UNICAST
  | _ => TCP
  end.

(** An output port of a sub-model. *)
Inductive ChildOut :=
| RouterOut (p : TransportRouter.OutPort)
| ShmDataOut
| NetReceiveOut (c : Child).

(** Where [connectPorts] sends what a sub-model emits: to the input port
    of another sub-model, or to [data_out] of the multiplexer. *)
Inductive Dest :=
| ToChild (c : Child)
| ToDataOut.

Definition coupling (src : ChildOut) : Dest :=
  match src with
  | RouterOut TransportRouter.shm_out => ToChild Shm
  | RouterOut TransportRouter.multicast_out => ToChild Multicast
  | RouterOut TransportRouter.unicast_out => ToChild Unicast
  | RouterOut TransportRouter.tcp_out => ToChild Tcp
  | ShmDataOut => ToDataOut
  | NetReceiveOut _ => ToDataOut
  end.

(** The state of the simulation of the coupled model: the state of every
    sub-model, the time of its last transition, the clock, and the number
    of random samples drawn so far. *)
Record Sim := mkSim {
  clock : Q;
  router : TransportRouter.State;
  shm : SharedMemoryTransport.State;
  multicast : NetworkTransport.State;
  unicast : NetworkTransport.State;
  tcp : NetworkTransport.State;
  last_event_time : Child -> Q;
  draws : nat
}.

Definition init_sim : Sim :=
  {| clock := 0;
     router := TransportRouter.StNone;
     shm := SharedMemoryTransport.StNone;
     multicast := NetworkTransport.init_state;
     unicast := NetworkTransport.init_state;
     tcp := NetworkTransport.init_state;
     last_event_time := fun _ => 0%Q;
     draws := 0 |}.

Definition net_state (sim : Sim) (c : Child) : NetworkTransport.State :=
  match c with
  | Multicast => multicast sim
  | Unicast => unicast sim
  | _ => tcp sim
  end.

Definition touch (c : Child) (t : Q) (f : Child -> Q) : Child -> Q :=
  fun c' => if bool_decide (c' = c) then t else f c'.

Section Kernel.

(** The configuration, and the sequence of values of [random.random()]. *)
Variable config : NetworkConfig.
Variable random : nat -> Q.

(** Modelled from the spec: the Simulation Kernel of §4.2, which the
    sources take from the PythonPDEVS library. A sub-model's next event is
    at [last_event_time + time_advance]; the imminent sub-model emits its
    output and then takes its internal transition; an emitted value is
    routed along the couplings; a sub-model that receives a value takes its
    external transition, whose result becomes its state. Sub-models tied at
    the same time fire one after the other in the order of [children]. An
    exception raised by a transition ends the simulation. *)
Definition time_advance (sim : Sim) (c : Child) : Time :=
  match c with
  | Router => TransportRouter.timeAdvance (router sim)
  | Shm => SharedMemoryTransport.timeAdvance (shm sim)
  | _ => NetworkTransport.timeAdvance config (net_type c) (net_state sim c)
  end.

Definition next_event_time (sim : Sim) (c : Child) : Time :=
  Dur.add (Fin (last_event_time sim c)) (time_advance sim c).

(** The first sub-model, in the order of [children], whose next event is
    the earliest one; [None] when every time advance is infinite. *)
Definition imminent (sim : Sim) : option (Child * Q) :=
  foldl
    (fun best c =>
       match next_event_time sim c, best with
       | Inf, _ => best
       | Fin t, None => Some (c, t)
       | Fin t, Some (_, tb) => if negb (Qle_bool tb t) then Some (c, t) else best
       end)
    None children.

(** The output of a sub-model, tagged with its port. *)
Definition output (sim : Sim) (c : Child) : list (ChildOut * Message) :=
  match c with
  | Router => map (fun pm => (RouterOut pm.1, pm.2)) (TransportRouter.outputFnc (router sim))
  | Shm => map (fun m => (ShmDataOut, m)) (SharedMemoryTransport.outputFnc (shm sim))
  | _ => map (fun m => (NetReceiveOut c, m)) (NetworkTransport.outputFnc (net_state sim c))
  end.

Definition internal_transition (sim : Sim) (c : Child) (t : Q) : Sim :=
  let tl := touch c t (last_event_time sim) in
  match c with
  | Router =>
      mkSim t (TransportRouter.intTransition (router sim)) (shm sim) (multicast sim)
        (unicast sim) (tcp sim) tl (draws sim)
  | Shm =>
      mkSim t (router sim) (SharedMemoryTransport.intTransition (shm sim))
        (multicast sim) (unicast sim) (tcp sim) tl (draws sim)
  | Multicast =>
      mkSim t (router sim) (shm sim) (NetworkTransport.intTransition (multicast sim))
        (unicast sim) (tcp sim) tl (draws sim)
  | Unicast =>
      mkSim t (router sim) (shm sim) (multicast sim)
        (NetworkTransport.intTransition (unicast sim)) (tcp sim) tl (draws sim)
  | Tcp =>
      mkSim t (router sim) (shm sim) (multicast sim) (unicast sim)
        (NetworkTransport.intTransition (tcp sim)) tl (draws sim)
  end.

(** The external transition of sub-model [c] on the value [m]. A network
    transport draws one random sample. *)
Definition external_transition (sim : Sim) (c : Child) (m : Message) (t : Q)
  : Result Sim :=
  let tl := touch c t (last_event_time sim) in
  let r := random (draws sim) in
  match c with
  | Router =>
      st ← TransportRouter.extTransition (router sim) (Some m);
      Ok (mkSim t st (shm sim) (multicast sim) (unicast sim) (tcp sim) tl (draws sim))
  | Shm =>
      Ok (mkSim t (router sim) (SharedMemoryTransport.extTransition (shm sim) (Some m))
            (multicast sim) (unicast sim) (tcp sim) tl (draws sim))
  | Multicast =>
      Ok (mkSim t (router sim) (shm sim)
            (NetworkTransport.extTransition config UDP_MULTICAST (multicast sim) (Some m) r)
            (unicast sim) (tcp sim) tl (S (draws sim)))
  | Unicast =>
      Ok (mkSim t (router sim) (shm sim) (multicast sim)
            (NetworkTransport.extTransition config UDP_UNICAST (unicast sim) (Some m) r)
            (tcp sim) tl (S (draws sim)))
  | Tcp =>
      Ok (mkSim t (router sim) (shm sim) (multicast sim) (unicast sim)
            (NetworkTransport.extTransition config TCP (tcp sim) (Some m) r)
            tl (S (draws sim)))
  end.

(** Routing of the values a sub-model emitted at time [t]: the state
    after the external transitions, and what reached [data_out]. *)
Fixpoint route (sim : Sim) (t : Q) (ys : list (ChildOut * Message))
  : Result (Sim * list Message) :=
  match ys with
  | [] => Ok (sim, [])
  | (p, m) :: ys' =>
      match coupling p with
      | ToChild c =>
          match external_transition sim c m t with
          | Ok sim' => route sim' t ys'
          | Raise e => Raise e
          end
      | ToDataOut =>
          match route sim t ys' with
          | Ok (sim', out) => Ok (sim', m :: out)
          | Raise e => Raise e
          end
      end
  end.

(** One internal event: the imminent sub-model fires. [None] when no
    sub-model is imminent. *)
Definition internal_event (sim : Sim)
  : option (Result (Sim * list (Q * Message))) :=
  match imminent sim with
  | Some (c, t) =>
      let ys := output sim c in
      match route (internal_transition sim c t) t ys with
      | Ok (sim', out) => Some (Ok (sim', map (fun m => (t, m)) out))
      | Raise e => Some (Raise e)
      end
  | None => None
  end.

(** A value arrives on [data_in] of the multiplexer at time [t]; the
    coupling hands it to [data_in] of the router. *)
Definition external_event (sim : Sim) (t : Q) (m : Message) : Result Sim :=
  external_transition sim Router m t.

(** The simulation of a schedule of arrivals on [data_in] (in increasing
    time): internal events that are due before the next arrival are run
    first. The result is the final state and the timed values emitted on
    [data_out], or the exception that ended the simulation. [fuel] bounds
    the number of events. *)
Fixpoint simulate (fuel : nat) (sim : Sim) (arrivals : list (Q * Message))
  : Result (Sim * list (Q * Message)) :=
  match fuel with
  | O => Ok (sim, [])
  | S fuel' =>
      let fire :=
        match internal_event sim with
        | Some (Ok (sim', out)) =>
            match simulate fuel' sim' arrivals with
            | Ok (sim'', out') => Ok (sim'', out ++ out')
            | Raise e => Raise e
            end
        | Some (Raise e) => Raise e
        | None => Ok (sim, [])
        end in
      let arrive (t : Q) (m : Message) (arrivals' : list (Q * Message)) :=
        match external_event sim t m with
        | Ok sim' => simulate fuel' sim' arrivals'
        | Raise e => Raise e
        end in
      match arrivals with
      | [] => fire
      | (t, m) :: arrivals' =>
          match imminent sim with
          | Some (_, tn) =>
              if Qle_bool tn t then fire else arrive t m arrivals'
          | None => arrive t m arrivals'
          end
      end
  end.

End Kernel.

End TransportMultiplexer.

(** ** Reports of the checker ([qos/compatibility.py]) *)

Module CheckerReport.

Import QoS.

(** [QoSCompatibilityResult.get_error_message] *)
Definition get_error_message (self : QoSCompatibilityResult) : string :=
  if compatible self then "QoS policies are compatible"
  else
    String.concat "; "
      (map (fun policy => String.append "Incompatible " (String.append policy " QoS policy"))
           (incompatible_policies self)).

(** [enumerate(l)] *)
Definition enumerate {A} (l : list A) : list (nat * A) := imap (fun i x => (i, x)) l.

(** [check_endpoint_compatibility]: the dictionary from
    [(pub_idx, sub_idx)] to the result of the check. *)
Definition check_endpoint_compatibility (publishers subscribers : list QoSProfile)
  : gmap (nat * nat) QoSCompatibilityResult :=
  foldl
    (fun results pub =>
       foldl
         (fun results sub =>
            <[(pub.1, sub.1) := check_compatibility pub.2 sub.2]> results)
         results (enumerate subscribers))
    ∅ (enumerate publishers).

End CheckerReport.

(** ** The QoS adapter ([qos_adapter.py]) *)

Module QoSAdapter.

Import QoS.

(** [RMWQoSProfile] ([core/dataTypes.py]) *)
Record RMWQoSProfile := mkRMW {
  rmw_reliability : QoSReliabilityPolicy;
  rmw_durability : QoSDurabilityPolicy;
  rmw_history : QoSHistoryPolicy;
  rmw_depth : Z;
  deadline_ms : Time;
  lifespan_ms : Time
}.

Definition _check_reliability (pub sub : QoSReliabilityPolicy) : bool :=
  if bool_decide (sub = RELIABLE) && bool_decide (pub = BEST_EFFORT)
  then false else true.

Definition _check_durability (pub sub : QoSDurabilityPolicy) : bool :=
  durability_levels pub >=? durability_levels sub.

Definition _check_deadline (pub_deadline sub_deadline : Time) : bool :=
  Dur.leb pub_deadline sub_deadline.

Definition _check_lifespan (pub_lifespan sub_lifespan : Time) : bool :=
  Dur.geb pub_lifespan sub_lifespan.

Definition _check_liveliness (pub sub : QoSLivelinessPolicy) : bool :=
  liveliness_levels pub >=? liveliness_levels sub.

Definition _check_history (pub_history : QoSHistoryPolicy) (pub_depth : Z)
  (sub_history : QoSHistoryPolicy) (sub_depth : Z) : bool :=
  if bool_decide (pub_history = KEEP_LAST) && bool_decide (sub_history = KEEP_LAST)
  then pub_depth >=? sub_depth
  else if bool_decide (sub_history = KEEP_ALL) && negb (bool_decide (pub_history = KEEP_ALL))
  then false
  else true.

(** [QoSAdapter.check_compatibility]: the flag and, on failure, the
    message of the first rule that failed. *)
Definition check_compatibility (pub_qos sub_qos : QoSProfile) : bool * option string :=
  if negb (_check_reliability (reliability pub_qos) (reliability sub_qos))
  then (false, Some "Incompatible reliability QoS")
  else if negb (_check_durability (durability pub_qos) (durability sub_qos))
  then (false, Some "Incompatible durability QoS")
  else if negb (_check_deadline (deadline pub_qos) (deadline sub_qos))
  then (false, Some "Incompatible deadline QoS")
  else if negb (_check_lifespan (lifespan pub_qos) (lifespan sub_qos))
  then (false, Some "Incompatible lifespan QoS")
  else if negb (_check_liveliness (liveliness pub_qos) (liveliness sub_qos))
  then (false, Some "Incompatible liveliness QoS")
  else if negb (_check_history (history pub_qos) (depth pub_qos)
                               (history sub_qos) (depth sub_qos))
  then (false, Some "Incompatible history QoS")
  else (true, None).

End QoSAdapter.

(** ** The per-policy classes ([policies.py]) *)

Module DeadlineQosPolicy.
Import QoS.
Record t := mk { period : Time }.
Definition is_compatible_with (self other : t) : bool :=
  Dur.leb (period self) (period other).
End DeadlineQosPolicy.

Module DurabilityQosPolicy.
Import QoS.
Record t := mk { kind : QoS.QoSDurabilityPolicy }.
Definition levels (d : QoS.QoSDurabilityPolicy) : Z :=
  match d with
  | QoS.VOLATILE => 0 | QoS.TRANSIENT_LOCAL => 1
  | QoS.TRANSIENT => 2 | QoS.PERSISTENT => 3
  end.
Definition is_compatible_with (self other : t) : bool :=
  levels (kind self) >=? levels (kind other).
End DurabilityQosPolicy.

Module HistoryQosPolicy.
Import QoS.
Record t := mk { kind : QoS.QoSHistoryPolicy; depth : Z }.
Definition is_compatible_with (self other : t) : bool :=
  if bool_decide (kind self = QoS.KEEP_ALL) && negb (bool_decide (kind other = QoS.KEEP_ALL))
  then false
  else if bool_decide (kind self = QoS.KEEP_LAST) && bool_decide (kind other = QoS.KEEP_LAST)
  then depth self >=? depth other
  else true.
End HistoryQosPolicy.

Module LifespanQosPolicy.
Import QoS.
Record t := mk { duration : Time }.
Definition is_compatible_with (self other : t) : bool :=
  Dur.geb (duration self) (duration other).
End LifespanQosPolicy.

Module LivelinessQosPolicy.
Import QoS.
Record t := mk { kind : QoS.QoSLivelinessPolicy; lease_duration : Time }.
Definition levels (l : QoS.QoSLivelinessPolicy) : Z :=
  match l with
  | QoS.AUTOMATIC => 0 | QoS.MANUAL_BY_TOPIC => 1 | QoS.MANUAL_BY_PARTICIPANT => 2
  end.
Definition is_compatible_with (self other : t) : bool :=
  if levels (kind self) <? levels (kind other) then false
  else Dur.leb (lease_duration self) (lease_duration other).
End LivelinessQosPolicy.

Module OwnershipQosPolicy.
Import QoS.
Record t := mk { kind : QoS.QoSOwnershipPolicy }.
Definition is_compatible_with (self other : t) : bool :=
  bool_decide (kind self = kind other).
End OwnershipQosPolicy.

Module ReliabilityQosPolicy.
Import QoS.
Record t := mk { kind : QoS.QoSReliabilityPolicy; max_blocking_time : Time }.
Definition is_compatible_with (self other : t) : bool :=
  if bool_decide (kind other = QoS.RELIABLE) && bool_decide (kind self = QoS.BEST_EFFORT)
  then false else true.
End ReliabilityQosPolicy.

Module PartitionQosPolicy.
Import QoS.
(** [name] is the list of partition names; [None] becomes the empty list
    in [__post_init__]. *)
Record t := mk { name : list string }.

Definition _partition_matches (pattern name : string) : bool :=
  if negb (QoS.has_star pattern) then bool_decide (pattern = name)
  else
    let parts := QoS.split_star pattern in
    if negb (QoS.startswith name (QoS.first_part parts)) then false
    else if negb (QoS.endswith name (QoS.last_part parts)) then false
    else true.

(** The nested loops run over the two lists. *)
Definition matches (self other : t) : bool :=
  match name self, name other with
  | [], [] => true
  | _, _ =>
      existsb
        (fun my_partition =>
           existsb (fun other_partition => _partition_matches my_partition other_partition)
                   (name other))
        (name self)
  end.
End PartitionQosPolicy.

(** ** The preset profiles ([profile.py]) *)

Module QoSPresetProfiles.

Import QoS.

(** [QoSProfile(reliability=.., durability=.., history=.., depth=..,
    deadline=.., lifespan=.., liveliness=.., liveliness_lease_duration=..)]:
    ownership, the resource limits and the partition keep their defaults. *)
Definition make (r : QoSReliabilityPolicy) (d : QoSDurabilityPolicy)
  (h : QoSHistoryPolicy) (n : Z) (dl ls : Time) (lv : QoSLivelinessPolicy)
  (lease : Time) : QoSProfile :=
  mkQoS r d h n dl ls lv lease SHARED 5000 [].

Definition sensor_data : QoSProfile :=
  make BEST_EFFORT VOLATILE KEEP_LAST 5 (Fin (1 # 10)) (Fin (1 # 2)) AUTOMATIC (Fin 1).

Definition parameters : QoSProfile :=
  make RELIABLE TRANSIENT_LOCAL KEEP_LAST 1000 Inf Inf AUTOMATIC Inf.

Definition services : QoSProfile :=
  make RELIABLE VOLATILE KEEP_LAST 10 Inf Inf AUTOMATIC Inf.

Definition parameters_events : QoSProfile :=
  make RELIABLE VOLATILE KEEP_ALL 1000 Inf Inf AUTOMATIC Inf.

Definition rosout : QoSProfile :=
  make RELIABLE TRANSIENT_LOCAL KEEP_LAST 1000 Inf (Fin 10) AUTOMATIC Inf.

Definition clock : QoSProfile :=
  make BEST_EFFORT VOLATILE KEEP_LAST 1 Inf Inf AUTOMATIC Inf.

Definition system_default : QoSProfile :=
  make RELIABLE VOLATILE KEEP_LAST 10 Inf Inf AUTOMATIC Inf.

Definition default : QoSProfile := system_default.

Definition action_status : QoSProfile :=
  make RELIABLE TRANSIENT_LOCAL KEEP_LAST 1 Inf Inf AUTOMATIC Inf.

Definition map : QoSProfile :=
  make RELIABLE TRANSIENT_LOCAL KEEP_LAST 1 Inf Inf AUTOMATIC Inf.

Definition tf_static : QoSProfile :=
  make RELIABLE TRANSIENT_LOCAL KEEP_ALL 1 Inf Inf AUTOMATIC Inf.

(** [profile.history = h], [profile.depth = n], [profile.reliability = r]
    on a profile. *)
Definition set_history (h : QoSHistoryPolicy) (p : QoSProfile) : QoSProfile :=
  mkQoS (reliability p) (durability p) h (depth p) (deadline p) (lifespan p)
    (liveliness p) (liveliness_lease_duration p) (ownership p) (max_samples p)
    (partition p).

Definition set_depth (n : Z) (p : QoSProfile) : QoSProfile :=
  mkQoS (reliability p) (durability p) (history p) n (deadline p) (lifespan p)
    (liveliness p) (liveliness_lease_duration p) (ownership p) (max_samples p)
    (partition p).

Definition set_reliability (r : QoSReliabilityPolicy) (p : QoSProfile) : QoSProfile :=
  mkQoS r (durability p) (history p) (depth p) (deadline p) (lifespan p)
    (liveliness p) (liveliness_lease_duration p) (ownership p) (max_samples p)
    (partition p).

Definition keep_last (depth : Z) : QoSProfile :=
  set_depth depth (set_history KEEP_LAST default).

Definition keep_all : QoSProfile := set_depth 0 (set_history KEEP_ALL default).

Definition best_effort : QoSProfile := set_reliability BEST_EFFORT default.

Definition reliable : QoSProfile := set_reliability RELIABLE default.

(** [get_profile_by_name]; [None] is the [ValueError] for an unknown
    name. *)
Definition get_profile_by_name (name : string) : option QoSProfile :=
  if bool_decide (name = "sensor_data") then Some sensor_data
  else if bool_decide (name = "parameters") then Some parameters
  else if bool_decide (name = "services") then Some services
  else if bool_decide (name = "parameter_events") then Some parameters_events
  else if bool_decide (name = "rosout") then Some rosout
  else if bool_decide (name = "clock") then Some clock
  else if bool_decide (name = "system_default") then Some system_default
  else if bool_decide (name = "default") then Some default
  else if bool_decide (name = "action_status") then Some action_status
  else if bool_decide (name = "map") then Some map
  else if bool_decide (name = "tf_static") then Some tf_static
  else if bool_decide (name = "best_effort") then Some best_effort
  else if bool_decide (name = "reliable") then Some reliable
  else None.

End QoSPresetProfiles.

(** ** Queries of the discovery database ([dds/discovery.py]) *)

Module DiscoveryQueries.

Import Discovery.

(** [get_endpoints_for_topic]: the endpoints stored under the guids cached
    for the topic, in the order of the set. *)
Definition get_endpoints_for_topic (db : DiscoveryDatabase) (topic : string)
  : list EndpointInfo.t :=
  match topic_cache db !! topic with
  | Some guids => omap (fun guid => endpoints db !! guid) (elements guids)
  | None => []
  end.

Definition get_writers_for_topic (db : DiscoveryDatabase) (topic : string)
  : list EndpointInfo.t :=
  List.filter (fun ep => bool_decide (EndpointInfo.kind ep = "writer"))
              (get_endpoints_for_topic db topic).

Definition get_readers_for_topic (db : DiscoveryDatabase) (topic : string)
  : list EndpointInfo.t :=
  List.filter (fun ep => bool_decide (EndpointInfo.kind ep = "reader"))
              (get_endpoints_for_topic db topic).

(** [get_statistics] *)
Record Statistics := mkStatistics {
  total_participants : nat;
  total_endpoints : nat;
  topics : nat;
  topic_details : gmap string (nat * nat)
}.

(** The number of guids of a cached set that are stored with the given
    kind. *)
Definition count_kind (db : DiscoveryDatabase) (kind : string) (guids : gset string)
  : nat :=
  length
    (List.filter
       (fun guid =>
          match endpoints db !! guid with
          | Some ep => bool_decide (EndpointInfo.kind ep = kind)
          | None => false
          end)
       (elements guids)).

Definition get_statistics (db : DiscoveryDatabase) : Statistics :=
  {| total_participants := size (participants db);
     total_endpoints := size (endpoints db);
     topics := size (topic_cache db);
     topic_details :=
       (fun guids => (count_kind db "writer" guids, count_kind db "reader" guids))
         <$> topic_cache db |}.

End DiscoveryQueries.

(** * Predicates used in the statements *)

Module Statements.

Import QoS.


(** [QoSProfile(lifespan=l)], the other fields at their defaults. *)
Definition profile_with_lifespan (l : Time) : QoSProfile :=
  mkQoS RELIABLE VOLATILE KEEP_LAST 10 Inf l AUTOMATIC Inf SHARED 5000 [].

(** A profile with wildcard partitions and finite durations. *)
Definition sample_profile : QoSProfile :=
  mkQoS BEST_EFFORT TRANSIENT_LOCAL KEEP_LAST 5 (Fin (1 # 10)) (Fin (1 # 2))
    MANUAL_BY_TOPIC (Fin 1) EXCLUSIVE 5000 ["sensors/*/raw"; "*"].

(** Source and destination of a message resolve to the same process:
    the message has a [destination_node], equal to its [source_node]. *)
Definition same_process (m : Transport.Message) : Prop :=
  Transport.destination_node m = Transport.Assigned (Transport.source_node m).

(** The message carries a QoS profile whose reliability is RELIABLE. *)
Definition requests_reliable (m : Transport.Message) : Prop :=
  ∃ q, Transport.qos_profile m = Some q ∧ reliability q = RELIABLE.

(** A best-effort data message from one node to another. *)
Definition remote_best_effort_message : Transport.Message :=
  Transport.mkMessage (Some "talker") (Transport.Assigned (Some "listener"))
    Transport.DATA
    (Some (mkQoS BEST_EFFORT VOLATILE KEEP_LAST 10 Inf Inf AUTOMATIC Inf SHARED 5000 []))
    "scan".

(** A reliable data message from one node to another. *)
Definition remote_reliable_message : Transport.Message :=
  Transport.mkMessage (Some "talker") (Transport.Assigned (Some "listener"))
    Transport.DATA
    (Some (mkQoS RELIABLE VOLATILE KEEP_LAST 10 Inf Inf AUTOMATIC Inf SHARED 5000 []))
    "map".

(** A reliable data message as the constructor of [Message] builds it:
    with the set [destination_nodes], which the router does not read, and
    without [destination_node]. *)
Definition constructed_message : Transport.Message :=
  Transport.mkMessage (Some "talker") Transport.Absent Transport.DATA
    (Some (mkQoS RELIABLE VOLATILE KEEP_LAST 10 Inf Inf AUTOMATIC Inf SHARED 5000 []))
    "map".

(** A message whose source and destination are the same node. *)
Definition local_message : Transport.Message :=
  Transport.mkMessage (Some "talker") (Transport.Assigned (Some "talker"))
    Transport.DATA
    (Some (mkQoS BEST_EFFORT VOLATILE KEEP_LAST 10 Inf Inf AUTOMATIC Inf SHARED 5000 []))
    "scan".

(** The matched set recorded for a guid; empty when the Match Table has no
    entry for it. *)
Definition matched_of (st : Participant.State) (guid : string) : gset string :=
  default ∅ (Participant.matched_endpoints st !! guid).

(** The local readers, and writers, created on a topic. *)
Definition readers_on (st : Participant.State) (topic : string) : list DataReader.t :=
  default [] (Participant.local_readers st !! topic).

Definition writers_on (st : Participant.State) (topic : string) : list DataWriter.t :=
  default [] (Participant.local_writers st !! topic).

(** [guid] names a local endpoint of the participant. *)
Definition is_local_guid (st : Participant.State) (guid : string) : Prop :=
  (∃ topic w, w ∈ writers_on st topic ∧ DataWriter.guid w = guid) ∨
  (∃ topic r, r ∈ readers_on st topic ∧ DataReader.guid r = guid).

(** The partition rule of [_qos_match]: when both lists are non-empty they
    share a name, compared literally. *)
Definition share_partition (a b : list string) : Prop :=
  a = [] ∨ b = [] ∨ ∃ x, x ∈ a ∧ x ∈ b.

(** [QoSProfile(partition=l)], the other fields at their defaults. *)
Definition profile_with_partition (l : list string) : QoSProfile :=
  mkQoS RELIABLE VOLATILE KEEP_LAST 10 Inf Inf AUTOMATIC Inf SHARED 5000 l.

(** [QoSProfile(ownership=o)], the other fields at their defaults. *)
Definition profile_with_ownership (o : QoSOwnershipPolicy) : QoSProfile :=
  mkQoS RELIABLE VOLATILE KEEP_LAST 10 Inf Inf AUTOMATIC Inf o 5000 [].

(** A participant with one local reader on [/map] that requests EXCLUSIVE
    ownership. *)
Definition state_with_reader : Participant.State :=
  (Participant.create_reader Participant.init_state "reader-1" "/map"
     "OccupancyGrid" (profile_with_ownership EXCLUSIVE) None).2.

(** A remote writer on [/map] that offers SHARED ownership. *)
Definition remote_writer : EndpointInfo.t :=
  EndpointInfo.mk "writer-9" "" "/map" "OccupancyGrid" "writer"
    (profile_with_ownership SHARED) [].

(** The body of the two loops of [_check_endpoint_matching], for a local
    endpoint [x] with guid [guid_of x] that passes the test [ok x]. *)
Definition match_body {A : Type} (guid_of : A -> string) (ok : A -> bool)
  (remote : string) (st : Participant.State) (x : A) : Participant.State :=
  if ok x
  then Participant.set_matched_endpoints
         (Participant.add_match (Participant.matched_endpoints st) (guid_of x) remote) st
  else st.

(** What holds of every state a participant reaches: each local writer
    has a sequence-number counter, the Match Table is keyed by guids of
    local endpoints, and every matched guid is a discovered endpoint. *)
Definition participant_inv (st : Participant.State) : Prop :=
  (∀ topic w, w ∈ writers_on st topic ->
              is_Some (Participant.sequence_numbers st !! DataWriter.guid w)) ∧
  (∀ l, l ∈ dom (Participant.matched_endpoints st) -> is_local_guid st l) ∧
  (∀ l g, g ∈ matched_of st l -> g ∈ dom (Participant.discovered_endpoints st)).

(** The step of the search loop of [write_data]. *)
Definition find_step (writer_guid : string) (writer : option DataWriter.t)
  (writers : list DataWriter.t) : option DataWriter.t :=
  match List.find (fun w => bool_decide (DataWriter.guid w = writer_guid)) writers with
  | Some w => Some w
  | None => writer
  end.

(** A participant with the default configuration: discovery every
    300 ms, heartbeat every 100 ms, lease of 10 s. *)
Definition participant_A : Participant.Attrs :=
  Participant.mkAttrs 0 "participant-A" (3 # 10) (1 # 10) (Fin 10).

Definition participant_B : Participant.Attrs :=
  Participant.mkAttrs 0 "participant-B" (3 # 10) (1 # 10) (Fin 10).

(** A participant with one local writer on [/chatter] and no match. *)
Definition state_with_writer : Participant.State :=
  (Participant.create_writer Participant.init_state "writer-1" "/chatter"
     "String" default_profile).2.

(** The discovery message broadcast by participant B once it has created
    the writer [writer-9] on [/map]. *)
Definition state_of_B : Participant.State :=
  (Participant.create_writer Participant.init_state "writer-9" "/map"
     "OccupancyGrid" (profile_with_ownership SHARED)).2.

Definition discovery_from_B : DiscoveryMessage.t :=
  Participant._create_discovery_message participant_B state_of_B.

(** Participant A, with its reader on [/map], after it received that
    message at time 0. *)
Definition state_after_discovery : Participant.State :=
  Participant._process_discovery_message participant_A state_with_reader
    discovery_from_B 0.

(** Participant A after its initialisation at time 0. *)
Definition active_state : Participant.State :=
  Participant.intTransition Participant.init_state 0.

(** What holds of every database state: no topic is cached with an empty
    set, and participants and endpoints are stored under their guid. *)
Definition db_inv (db : Discovery.DiscoveryDatabase) : Prop :=
  (∀ topic s, Discovery.topic_cache db !! topic = Some s -> s ≠ ∅) ∧
  (∀ k info, Discovery.participants db !! k = Some info -> ParticipantInfo.guid info = k) ∧
  (∀ k info, Discovery.endpoints db !! k = Some info -> EndpointInfo.guid info = k).

(** A database with participant B and its writer, and a second endpoint on
    the same topic that belongs to participant C. *)
Definition sample_db : Discovery.DiscoveryDatabase :=
  Discovery.run
    [Discovery.OpAddParticipant (ParticipantInfo.mk "participant-B" 0 (Fin 10) "ROS2_DEVS");
     Discovery.OpAddEndpoint
       (EndpointInfo.mk "writer-9" "participant-B" "/map" "OccupancyGrid" "writer"
          default_profile []);
     Discovery.OpAddEndpoint
       (EndpointInfo.mk "reader-4" "participant-C" "/map" "OccupancyGrid" "reader"
          default_profile [])].

(** No network transport of the multiplexer holds a pending message. *)
Definition quiet (sim : TransportMultiplexer.Sim) : Prop :=
  NetworkTransport.pending_messages (TransportMultiplexer.multicast sim) = [] ∧
  NetworkTransport.pending_messages (TransportMultiplexer.unicast sim) = [] ∧
  NetworkTransport.pending_messages (TransportMultiplexer.tcp sim) = [].

(** A configuration in which the best-effort transports lose everything. *)
Definition lossy_config : Transport.NetworkConfig :=
  Transport.mkNetworkConfig 200 10000 1.

(** The eight dimensions, in the order in which the checker examines
    them. *)
Definition policy_names : list string :=
  ["reliability"; "durability"; "deadline"; "lifespan"; "liveliness";
   "history"; "ownership"; "partition"].

(** The profile [p] with its durability replaced. *)
Definition with_durability (d : QoSDurabilityPolicy) (p : QoSProfile) : QoSProfile :=
  mkQoS (reliability p) d (history p) (depth p) (deadline p) (lifespan p)
    (liveliness p) (liveliness_lease_duration p) (ownership p) (max_samples p)
    (partition p).

(** The partition list that the checker iterates over: an empty list
    stands for the single empty name. *)
Definition effective_partitions (l : list string) : list string :=
  match l with [] => [EmptyString] | _ :: _ => l end.

(** Every stored endpoint is cached under its topic. *)
Definition db_indexed (db : Discovery.DiscoveryDatabase) : Prop :=
  ∀ k info, Discovery.endpoints db !! k = Some info ->
    ∃ guids, Discovery.topic_cache db !! EndpointInfo.topic info = Some guids ∧ k ∈ guids.

(** The lease of the participant stored under [guid] has expired at
    [current_time]. *)
Definition lease_expired (ps : gmap string ParticipantInfo.t) (current_time : Q)
  (guid : string) : bool :=
  match ps !! guid with
  | Some info => Dur.gtb (Fin current_time) (ParticipantInfo.lease_expiry info)
  | None => false
  end.

(** The five phases that the participant assigns. *)
Definition known_phase (p : string) : Prop :=
  p = "initializing" ∨ p = "active" ∨ p = "discovering" ∨ p = "heartbeat"
  ∨ p = "sending_data".

(** A delay that the simulator can schedule: infinite, or strictly
    positive. *)
Definition positive_delay (t : Time) : Prop :=
  match t with Fin q => (0 < q)%Q | Inf => True end.

(** The guids of the local endpoints that a remote endpoint is matched
    with: the local readers on its topic that pass [_qos_match] for a
    remote writer, the local writers for a remote reader. *)
Definition match_targets (lr : gmap string (list DataReader.t))
  (lw : gmap string (list DataWriter.t)) (ep : EndpointInfo.t) : list string :=
  if bool_decide (EndpointInfo.kind ep = "writer") then
    DataReader.guid <$>
      List.filter (fun r => Participant._qos_match (EndpointInfo.qos ep) (DataReader.qos r))
                  (default [] (lr !! EndpointInfo.topic ep))
  else if bool_decide (EndpointInfo.kind ep = "reader") then
    DataWriter.guid <$>
      List.filter (fun w => Participant._qos_match (DataWriter.qos w) (EndpointInfo.qos ep))
                  (default [] (lw !! EndpointInfo.topic ep))
  else [].

(** One pair entered into the Match Table. *)
Definition add_pair (m : gmap string (gset string)) (p : string * string)
  : gmap string (gset string) :=
  Participant.add_match m p.1 p.2.

(** The pairs that a list of announced endpoints enters. *)
Definition match_pairs (lr : gmap string (list DataReader.t))
  (lw : gmap string (list DataWriter.t)) (eps : list EndpointInfo.t)
  : list (string * string) :=
  flat_map (fun ep => (fun l => (l, EndpointInfo.guid ep)) <$> match_targets lr lw ep) eps.

(** [discovered_endpoints[endpoint.guid] = endpoint] *)
Definition store_endpoint (m : gmap string EndpointInfo.t) (ep : EndpointInfo.t)
  : gmap string EndpointInfo.t :=
  <[EndpointInfo.guid ep := ep]> m.

(** The last endpoint of a list that has the guid [k], if any, else
    [acc]. *)
Definition last_announced (k : string) (acc : option EndpointInfo.t)
  (ep : EndpointInfo.t) : option EndpointInfo.t :=
  if bool_decide (EndpointInfo.guid ep = k) then Some ep else acc.

(** A network transport on its own: the external transitions for a list
    of arriving messages, each with the random sample drawn for it, and
    [n] internal events, each emitting the output and then taking the
    internal transition. *)
Definition feed (config : Transport.NetworkConfig) (tt : Transport.TransportType)
  (st : NetworkTransport.State) (arrivals : list (Transport.Message * Q))
  : NetworkTransport.State :=
  foldl (fun st a => NetworkTransport.extTransition config tt st (Some a.1) a.2)
        st arrivals.

Fixpoint drain (n : nat) (st : NetworkTransport.State)
  : list Transport.Message * NetworkTransport.State :=
  match n with
  | O => ([], st)
  | S n' =>
      let out := NetworkTransport.outputFnc st in
      let rest := drain n' (NetworkTransport.intTransition st) in
      (out ++ rest.1, rest.2)
  end.

End Statements.

Import Statements.

(** * Properties *)

(** ** Durations *)

Section DurationFacts.

Lemma Dur_leb_refl a : Dur.leb a a = true.
Proof.
  destruct a as [x|]; simpl; [|reflexivity].
  apply Qle_bool_iff, Qle_refl.
Qed.

Lemma Dur_gtb_negb_leb a b : Dur.gtb a b = negb (Dur.leb a b).
Proof. destruct a, b; reflexivity. Qed.

Lemma Qle_bool_false (x y : Q) : Qle_bool x y = false <-> (y < x)%Q.
Proof.
  split.
  - intros E. apply Qnot_le_lt. intros Hle. apply Qle_bool_iff in Hle. congruence.
  - intros Hlt. destruct (Qle_bool x y) eqn:E; [|reflexivity].
    apply Qle_bool_iff in E. lra.
Qed.

(** A duration that is not negative is at least nine tenths of itself. *)
Lemma Dur_geb_scale_self a :
  Dur.leb (Fin 0) a = true -> Dur.geb a (Dur.scale a (9 # 10)) = true.
Proof.
  destruct a as [x|]; simpl; [|reflexivity].
  unfold Dur.geb; simpl. intros Hx.
  apply Qle_bool_iff in Hx. apply Qle_bool_iff. lra.
Qed.

Lemma Dur_positive_nonneg a : Dur.leb a (Fin 0) = false -> Dur.leb (Fin 0) a = true.
Proof.
  destruct a as [x|]; simpl; [|reflexivity].
  intros Hx. apply Qle_bool_false in Hx. apply Qle_bool_iff. lra.
Qed.

End DurationFacts.

(** ** The QoS compatibility checker *)

Section CheckerFacts.

Import QoS.

Lemma elem_of_append_unless (x name : string) ok l :
  x ∈ append_unless ok name l <-> x ∈ l ∨ (ok = false ∧ x = name).
Proof.
  unfold append_unless. destruct ok.
  - split; [auto | intros [H | [H _]]; [exact H | discriminate]].
  - rewrite elem_of_app, list_elem_of_singleton. intuition.
Qed.

(** [compatible] is the conjunction of the eight checks. *)
Lemma compatible_and pub sub :
  compatible (check_compatibility pub sub) =
    _check_reliability pub sub && _check_durability pub sub &&
    _check_deadline pub sub && _check_lifespan pub sub &&
    _check_liveliness pub sub && _check_history pub sub &&
    _check_ownership pub sub && _check_partition pub sub.
Proof.
  unfold check_compatibility; simpl.
  destruct (_check_reliability pub sub), (_check_durability pub sub),
    (_check_deadline pub sub), (_check_lifespan pub sub),
    (_check_liveliness pub sub), (_check_history pub sub),
    (_check_ownership pub sub), (_check_partition pub sub); reflexivity.
Qed.



End CheckerFacts.

Section CheckerClaims.

Import QoS.



(** *** A profile against itself *)

Lemma split_star_nonempty s : split_star s ≠ [].
Proof.
  destruct s as [|a s]; simpl; [discriminate|].
  destruct (bool_decide (a = star)); [discriminate|].
  destruct (split_star s); discriminate.
Qed.

(** A string without a star is the only piece of its split. *)
Lemma split_star_single s p : split_star s = [p] -> p = s.
Proof.
  revert p. induction s as [|a s IH]; simpl; intros p H.
  - congruence.
  - destruct (bool_decide (a = star)).
    + inversion H as [[H1 H2]]. exfalso. exact (split_star_nonempty _ H2).
    + destruct (split_star s) as [|q qs] eqn:E.
      * exfalso. exact (split_star_nonempty _ E).
      * inversion H; subst. f_equal. apply IH. reflexivity.
Qed.

Lemma startswith_first_part s :
  startswith s (first_part (split_star s)) = true.
Proof.
  induction s as [|a s IH]; simpl; [reflexivity|].
  destruct (bool_decide (a = star)); [reflexivity|].
  destruct (split_star s) as [|p ps] eqn:E.
  - exfalso. exact (split_star_nonempty _ E).
  - simpl in *. apply andb_true_intro. split; [|exact IH].
    apply bool_decide_eq_true_2. reflexivity.
Qed.

Lemma endswith_refl s : endswith s s = true.
Proof.
  destruct s; cbn [endswith]; apply orb_true_iff; left;
    apply bool_decide_eq_true_2; reflexivity.
Qed.

Lemma endswith_cons a s p : endswith s p = true -> endswith (String a s) p = true.
Proof. intros H. simpl. rewrite H. apply orb_true_r. Qed.

Lemma endswith_last_part s :
  endswith s (last_part (split_star s)) = true.
Proof.
  induction s as [|a s IH]; [reflexivity|].
  cbn [split_star].
  destruct (bool_decide (a = star)).
  - apply endswith_cons.
    destruct (split_star s) as [|p ps] eqn:E.
    + exfalso. exact (split_star_nonempty _ E).
    + exact IH.
  - destruct (split_star s) as [|p ps] eqn:E.
    + exfalso. exact (split_star_nonempty _ E).
    + destruct ps as [|q qs].
      * apply split_star_single in E. subst p. apply endswith_refl.
      * apply endswith_cons. exact IH.
Qed.

(** Every partition name or pattern matches itself. *)
Lemma _partition_matches_refl s : _partition_matches s s = true.
Proof.
  unfold _partition_matches.
  destruct (has_star s); simpl.
  - rewrite startswith_first_part, endswith_last_part.
    rewrite !andb_false_r. reflexivity.
  - apply bool_decide_eq_true_2. reflexivity.
Qed.

Lemma _check_partition_refl p : _check_partition p p = true.
Proof.
  unfold _check_partition.
  destruct (partition p) as [|x l] eqn:E; [reflexivity|].
  assert (Hx : x ∈ elements (partition_set (x :: l))).
  { apply elem_of_elements. unfold partition_set.
    apply elem_of_list_to_set. left. }
  apply existsb_exists. exists x. split; [apply list_elem_of_In, Hx|].
  apply existsb_exists. exists x. split; [apply list_elem_of_In, Hx|].
  apply _partition_matches_refl.
Qed.

(** A profile is compatible with itself as soon as its lifespan is not
    negative; no other condition of well-formedness is needed. *)
Lemma check_self_compatible_nonneg p :
  Dur.leb (Fin 0) (lifespan p) = true ->
  compatible (check_compatibility p p) = true.
Proof.
  intros Hl. rewrite compatible_and.
  repeat (apply andb_true_intro; split).
  - unfold _check_reliability. case_bool_decide; reflexivity.
  - unfold _check_durability. apply Z.geb_le. lia.
  - apply Dur_leb_refl.
  - unfold _check_lifespan. apply Dur_geb_scale_self. exact Hl.
  - unfold _check_liveliness. rewrite Z.ltb_irrefl. apply Dur_leb_refl.
  - unfold _check_history. case_bool_decide as Hk; [reflexivity|].
    destruct (bool_decide (history p = KEEP_LAST)); simpl; [|reflexivity].
    apply Z.geb_le. lia.
  - apply bool_decide_eq_true_2. reflexivity.
  - apply _check_partition_refl.
Qed.

(** The condition is needed: a profile with a lifespan of -1 s, which the
    validator rejects, is reported incompatible with itself. *)
Lemma negative_lifespan_self_incompatible :
  validate_profile (profile_with_lifespan (Fin (-1))) = false ∧
  incompatible_policies
    (check_compatibility (profile_with_lifespan (Fin (-1)))
                         (profile_with_lifespan (Fin (-1)))) = ["lifespan"].
Proof. split; reflexivity. Qed.

(** Claim C8: for every well-formed QoS profile [p], the check of [p]
    against itself reports [compatible = true]. *)
Theorem check_self_compatible p :
  well_formed p -> compatible (check_compatibility p p) = true.
Proof.
  unfold well_formed, validate_profile. intros Hwf.
  destruct (Dur.leb (deadline p) (Fin 0)) eqn:Hd; [discriminate|].
  destruct (Dur.leb (lifespan p) (Fin 0)) eqn:Hl; [discriminate|].
  apply check_self_compatible_nonneg, Dur_positive_nonneg, Hl.
Qed.

Lemma check_self_compatible_sample :
  well_formed sample_profile ∧
  compatible (check_compatibility sample_profile sample_profile) = true.
Proof.
  split; [reflexivity|]. apply (check_self_compatible sample_profile). reflexivity.
Defined.

End CheckerClaims.

(** ** The transport router *)

Section RouterClaims.

Import QoS Transport TransportRouter.

(** Claim C7 on the code: the router does not classify every message.
    [_select_transport] returns the shared-memory class for a message that
    has a [destination_node] equal to its [source_node], and it returns
    no other class: for a message without a [destination_node], which is
    every message built by the constructor of [Message], reading that
    attribute raises [AttributeError]; for a message whose source and
    destination differ, the test for a discovery broadcast evaluates
    [MessageType.DISCOVERY], which the enumeration does not declare, and
    raises [AttributeError]. The rules for the multicast, the reliable and
    the best-effort unicast class are never reached: a RELIABLE message and
    a best-effort message between two nodes raise, the external transition
    of the router raises with [_select_transport], and the simulation of
    the multiplexer on such a message ends with the exception. *)
Theorem select_transport_raises_unless_local (m : Message) :
  (same_process m -> _select_transport m = Ok SHARED_MEMORY) ∧
  (destination_node m = Absent ->
   _select_transport m = Raise (AttributeError "destination_node")) ∧
  (∀ d, destination_node m = Assigned d -> d ≠ source_node m ->
        _select_transport m = Raise (AttributeError "DISCOVERY")) ∧
  (∀ t, _select_transport m = Ok t -> t = SHARED_MEMORY ∧ same_process m) ∧
  (∀ st, extTransition st (Some m)
         = match _select_transport m with
           | Ok _ => Ok (StDict shm_out m)
           | Raise e => Raise e
           end) ∧
  requests_reliable remote_reliable_message ∧
  _select_transport remote_reliable_message = Raise (AttributeError "DISCOVERY") ∧
  _select_transport remote_best_effort_message = Raise (AttributeError "DISCOVERY") ∧
  _select_transport constructed_message = Raise (AttributeError "destination_node") ∧
  (∀ config random fuel t,
     TransportMultiplexer.simulate config random (S fuel)
       TransportMultiplexer.init_sim [(t, remote_reliable_message)]
     = Raise (AttributeError "DISCOVERY")).
Proof.
  assert (Hcases :
    _select_transport m
    = match destination_node m with
      | Absent => Raise (AttributeError "destination_node")
      | Assigned d =>
          if bool_decide (source_node m = d) then Ok SHARED_MEMORY
          else Raise (AttributeError "DISCOVERY")
      end).
  { unfold _select_transport. destruct (destination_node m) as [|d]; [reflexivity|].
    cbn [getattr mbind result_bind]. case_bool_decide; reflexivity. }
  unfold same_process.
  split; [|split; [|split; [|split; [|split]]]].
  - intros H. rewrite Hcases, H. rewrite bool_decide_eq_true_2 by reflexivity.
    reflexivity.
  - intros H. rewrite Hcases, H. reflexivity.
  - intros d H Hd. rewrite Hcases, H.
    rewrite bool_decide_eq_false_2 by (intros E; apply Hd; symmetry; exact E).
    reflexivity.
  - intros t. rewrite Hcases. destruct (destination_node m) as [|d].
    + intros H. discriminate H.
    + case_bool_decide as Hd; intros H; [|discriminate H].
      inversion H. subst d. split; reflexivity.
  - intros st. unfold extTransition. rewrite Hcases.
    destruct (destination_node m) as [|d]; [reflexivity|].
    case_bool_decide; reflexivity.
  - split; [eexists; split; reflexivity|].
    split; [reflexivity|]. split; [reflexivity|]. split; [reflexivity|].
    intros config random fuel t. reflexivity.
Qed.

End RouterClaims.

(** ** Endpoint matching *)

Section MatchingFacts.

Import QoS Participant.

Lemma reliability_by_value r w :
  bool_decide (reliability_value r = "RELIABLE")
  && bool_decide (reliability_value w = "BEST_EFFORT")
  = negb (if bool_decide (r = RELIABLE) then bool_decide (w = RELIABLE) else true).
Proof. destruct r, w; reflexivity. Qed.

Lemma durability_by_value d :
  durability_levels_get (durability_value d) = durability_levels d.
Proof. destruct d; reflexivity. Qed.

Lemma partitions_intersect_spec a b :
  partitions_intersect a b = true <-> ∃ x, x ∈ a ∧ x ∈ b.
Proof.
  unfold partitions_intersect. rewrite bool_decide_eq_true. split.
  - intros H. apply set_choose_L in H. destruct H as [x Hx].
    exists x. set_solver.
  - intros (x & Ha & Hb). set_solver.
Qed.

(** [_qos_match] is the conjunction of the checker's reliability,
    durability and deadline rules and of a literal partition overlap. *)
Lemma _qos_match_spec w r :
  _qos_match w r = true <->
  _check_reliability w r = true ∧ _check_durability w r = true ∧
  _check_deadline w r = true ∧ share_partition (QoS.partition w) (QoS.partition r).
Proof.
  unfold _qos_match, _check_reliability, _check_durability, _check_deadline,
    share_partition.
  rewrite reliability_by_value, !durability_by_value, Dur_gtb_negb_leb.
  destruct (if bool_decide (reliability r = RELIABLE)
            then bool_decide (reliability w = RELIABLE) else true); simpl;
    [|split; [done | intros [? _]; done]].
  rewrite Z.gtb_ltb, Z.geb_leb.
  destruct (Z.ltb_spec (durability_levels (durability w))
                       (durability_levels (durability r))) as [Hlt | Hge].
  - split; [done|]. intros (_ & H & _). apply Z.leb_le in H. lia.
  - destruct (Dur.leb (deadline w) (deadline r)); simpl;
      [|split; [done | intros (_ & _ & ? & _); done]].
    assert (Hle : (durability_levels (durability r) <=?
                   durability_levels (durability w)) = true)
      by (apply Z.leb_le; lia).
    destruct (QoS.partition w) as [|x xs] eqn:Ew.
    { split; auto. }
    destruct (QoS.partition r) as [|y ys] eqn:Er.
    { split; auto 6. }
    destruct (partitions_intersect (x :: xs) (y :: ys)) eqn:Ei; simpl.
    + apply partitions_intersect_spec in Ei. split; auto 7.
    + split; [done|]. intros (_ & _ & _ & [H | [H | H]]); try done.
      apply partitions_intersect_spec in H. congruence.
Qed.

Lemma matched_add_match m l r g loc :
  g ∈ default ∅ (add_match m l r !! loc) <->
  g ∈ default ∅ (m !! loc) ∨ (loc = l ∧ g = r).
Proof.
  unfold add_match. destruct (decide (loc = l)) as [-> | Hne].
  - rewrite lookup_insert_eq. simpl. set_solver.
  - rewrite lookup_insert_ne by congruence. set_solver.
Qed.

Lemma dom_add_match m l r : dom (add_match m l r) = dom m ∪ {[l]}.
Proof. unfold add_match. rewrite dom_insert_L. set_solver. Qed.

Section Loop.

Context {A : Type} (guid_of : A -> string) (ok : A -> bool) (remote : string).

Local Abbreviation body := (match_body guid_of ok remote).

Lemma match_loop_frame xs st :
  ∃ m, foldl body st xs = set_matched_endpoints m st.
Proof.
  revert st. induction xs as [|x xs IH]; intros st; simpl.
  - exists (matched_endpoints st). destruct st; reflexivity.
  - destruct (IH (body st x)) as [m Hm]. rewrite Hm.
    exists m. unfold match_body. destruct (ok x); reflexivity.
Qed.

Lemma match_loop_matched xs st g loc :
  g ∈ matched_of (foldl body st xs) loc <->
  g ∈ matched_of st loc ∨
  (g = remote ∧ ∃ x, x ∈ xs ∧ guid_of x = loc ∧ ok x = true).
Proof.
  revert st. induction xs as [|x xs IH]; intros st; simpl.
  - split; [auto|]. intros [H | (_ & x & Hx & _)]; [exact H|].
    apply elem_of_nil in Hx. contradiction.
  - rewrite IH. unfold match_body. destruct (ok x) eqn:Eok.
    + unfold matched_of at 1. simpl. rewrite matched_add_match.
      fold (matched_of st loc). split.
      * intros [[H | [-> ->]] | (-> & y & Hy & Hg & Ho)]; auto.
        -- right. split; [reflexivity|]. exists x. split; [left|auto].
        -- right. split; [reflexivity|]. exists y. split; [right; exact Hy|auto].
      * intros [H | (-> & y & Hy & Hg & Ho)]; auto.
        apply elem_of_cons in Hy. destruct Hy as [-> | Hy].
        -- left. right. auto.
        -- right. split; [reflexivity|]. exists y. auto.
    + split.
      * intros [H | (-> & y & Hy & Hg & Ho)]; auto.
        right. split; [reflexivity|]. exists y. split; [right; exact Hy|auto].
      * intros [H | (-> & y & Hy & Hg & Ho)]; auto.
        apply elem_of_cons in Hy. destruct Hy as [-> | Hy]; [congruence|].
        right. split; [reflexivity|]. exists y. auto.
Qed.

Lemma match_loop_dom xs st loc :
  loc ∈ dom (matched_endpoints (foldl body st xs)) ->
  loc ∈ dom (matched_endpoints st) ∨ ∃ x, x ∈ xs ∧ guid_of x = loc.
Proof.
  revert st. induction xs as [|x xs IH]; intros st; simpl; [auto|].
  intros H. apply IH in H. destruct H as [H | (y & Hy & Hg)].
  - unfold match_body in H. destruct (ok x).
    + simpl in H. rewrite dom_add_match in H.
      apply elem_of_union in H. destruct H as [H | H]; [auto|].
      apply elem_of_singleton in H. right. exists x. split; [left | auto].
    + auto.
  - right. exists y. split; [right; exact Hy | exact Hg].
Qed.

End Loop.

(** A remote writer that passes [_qos_match] against a local reader on
    its topic is recorded in the matched set of that reader; likewise a
    remote reader in the matched set of a local writer. *)
Lemma match_inserts_remote_for_reader st ep r :
  EndpointInfo.kind ep = "writer" ->
  r ∈ readers_on st (EndpointInfo.topic ep) ->
  _qos_match (EndpointInfo.qos ep) (DataReader.qos r) = true ->
  EndpointInfo.guid ep ∈ matched_of (_check_endpoint_matching st ep) (DataReader.guid r).
Proof.
  intros Hk Hr Hq. unfold _check_endpoint_matching, readers_on in *.
  rewrite Hk. simpl.
  destruct (local_readers st !! EndpointInfo.topic ep) as [readers|]; simpl in Hr;
    [|apply elem_of_nil in Hr; contradiction].
  apply (match_loop_matched DataReader.guid
           (fun reader => _qos_match (EndpointInfo.qos ep) (DataReader.qos reader))).
  right. split; [reflexivity|]. exists r. auto.
Qed.

Lemma match_inserts_remote_for_writer st ep w :
  EndpointInfo.kind ep = "reader" ->
  w ∈ writers_on st (EndpointInfo.topic ep) ->
  _qos_match (DataWriter.qos w) (EndpointInfo.qos ep) = true ->
  EndpointInfo.guid ep ∈ matched_of (_check_endpoint_matching st ep) (DataWriter.guid w).
Proof.
  intros Hk Hw Hq. unfold _check_endpoint_matching, writers_on in *.
  rewrite Hk. simpl.
  destruct (local_writers st !! EndpointInfo.topic ep) as [writers|]; simpl in Hw;
    [|apply elem_of_nil in Hw; contradiction].
  apply (match_loop_matched DataWriter.guid
           (fun writer => _qos_match (DataWriter.qos writer) (EndpointInfo.qos ep))).
  right. split; [reflexivity|]. exists w. auto.
Qed.

End MatchingFacts.

Section MatchingClaims.

Import QoS Participant.

(** Claim C1, as stated, fails: a local reader that requests EXCLUSIVE
    ownership and a remote writer on the same topic that offers SHARED
    ownership are entered into the Match Table, although the full
    compatibility check of the writer's profile against the reader's
    reports them incompatible (on ownership). *)
Lemma matched_despite_incompatible :
  readers_on state_with_reader (EndpointInfo.topic remote_writer)
    = [DataReader.mk "reader-1" (profile_with_ownership EXCLUSIVE) "/map"
         "OccupancyGrid" [] None] ∧
  ("writer-9" ∉ matched_of state_with_reader "reader-1") ∧
  ("writer-9" ∈ matched_of (_check_endpoint_matching state_with_reader remote_writer)
                  "reader-1") ∧
  compatible (check_compatibility (EndpointInfo.qos remote_writer)
                (profile_with_ownership EXCLUSIVE)) = false ∧
  incompatible_policies (check_compatibility (EndpointInfo.qos remote_writer)
                           (profile_with_ownership EXCLUSIVE)) = ["ownership"].
Proof.
  split; [vm_compute; reflexivity|].
  split.
  { assert (E : matched_of state_with_reader "reader-1" = ∅)
      by (vm_compute; reflexivity).
    rewrite E. apply not_elem_of_empty. }
  split; [|split; reflexivity].
  assert (E : matched_of (_check_endpoint_matching state_with_reader remote_writer)
                "reader-1" = {["writer-9"]})
    by (vm_compute; reflexivity).
  rewrite E. apply elem_of_singleton. reflexivity.
Qed.

(** The converse fails as well: the checker accepts the offered partition
    pattern [sensors/*] against the requested name [sensors/lidar], while
    [_qos_match] compares the names literally and rejects the pair. *)
Lemma compatible_yet_unmatched :
  compatible (check_compatibility (profile_with_partition ["sensors/*"])
                                  (profile_with_partition ["sensors/lidar"])) = true ∧
  _qos_match (profile_with_partition ["sensors/*"])
             (profile_with_partition ["sensors/lidar"]) = false.
Proof. split; vm_compute; reflexivity. Qed.

(** Claim C1, amended: when a remote endpoint is processed, a guid [g] is
    in the matched set of a local guid [l] afterwards if and only if it
    was there before or [g] is the remote endpoint's guid and a local
    endpoint of the opposite kind on the same topic, with guid [l], passes
    the participant's own test [_qos_match] (writer profile offered,
    reader profile requested). [_qos_match] applies the checker's
    reliability, durability and deadline rules and requires, when both
    partition lists are non-empty, a partition name common to both; it
    does not examine lifespan, liveliness, history or ownership. *)
Theorem matching_decided_by_qos_match
  (st : State) (ep : EndpointInfo.t) (g l : string) :
  (∀ w r, _qos_match w r = true <->
          _check_reliability w r = true ∧ _check_durability w r = true ∧
          _check_deadline w r = true ∧
          share_partition (QoS.partition w) (QoS.partition r)) ∧
  (EndpointInfo.kind ep = "writer" ->
   (g ∈ matched_of (_check_endpoint_matching st ep) l <->
    g ∈ matched_of st l ∨
    (g = EndpointInfo.guid ep ∧
     ∃ reader, reader ∈ readers_on st (EndpointInfo.topic ep) ∧
               DataReader.guid reader = l ∧
               _qos_match (EndpointInfo.qos ep) (DataReader.qos reader) = true))) ∧
  (EndpointInfo.kind ep = "reader" ->
   (g ∈ matched_of (_check_endpoint_matching st ep) l <->
    g ∈ matched_of st l ∨
    (g = EndpointInfo.guid ep ∧
     ∃ writer, writer ∈ writers_on st (EndpointInfo.topic ep) ∧
               DataWriter.guid writer = l ∧
               _qos_match (DataWriter.qos writer) (EndpointInfo.qos ep) = true))).
Proof.
  split; [exact _qos_match_spec|]. split; intros Hk.
  - unfold _check_endpoint_matching, readers_on. rewrite Hk. simpl.
    destruct (local_readers st !! EndpointInfo.topic ep) as [readers|]; simpl.
    + apply (match_loop_matched DataReader.guid
               (fun reader => _qos_match (EndpointInfo.qos ep) (DataReader.qos reader))).
    + split; [auto|]. intros [H | (_ & x & Hx & _)]; [exact H|].
      apply elem_of_nil in Hx. contradiction.
  - unfold _check_endpoint_matching, writers_on. rewrite Hk. simpl.
    destruct (local_writers st !! EndpointInfo.topic ep) as [writers|]; simpl.
    + apply (match_loop_matched DataWriter.guid
               (fun writer => _qos_match (DataWriter.qos writer) (EndpointInfo.qos ep))).
    + split; [auto|]. intros [H | (_ & x & Hx & _)]; [exact H|].
      apply elem_of_nil in Hx. contradiction.
Qed.

Lemma matching_decided_by_qos_match_sample :
  EndpointInfo.kind remote_writer = "writer" ∧
  ("writer-9" ∈ matched_of (_check_endpoint_matching state_with_reader remote_writer)
                  "reader-1").
Proof.
  split; [reflexivity|].
  apply (proj1 (proj2 (matching_decided_by_qos_match state_with_reader
                         remote_writer "writer-9" "reader-1"))); [reflexivity|].
  right. split; [reflexivity|].
  exists (DataReader.mk "reader-1" (profile_with_ownership EXCLUSIVE) "/map"
            "OccupancyGrid" [] None).
  split; [|split; reflexivity].
  vm_compute. left.
Defined.

End MatchingClaims.

(** ** Reachable states of the participant *)

Section ParticipantInvariant.

Import QoS Participant.

Lemma find_step_fold_Some g (l : list (list DataWriter.t)) acc w :
  foldl (find_step g) acc l = Some w ->
  acc = Some w ∨ ∃ ws, ws ∈ l ∧ w ∈ ws ∧ DataWriter.guid w = g.
Proof.
  revert acc. induction l as [|ws l IH]; intros acc; simpl; [auto|].
  intros H. apply IH in H. destruct H as [H | (ws' & Hin & Hw & Hg)].
  - unfold find_step in H.
    destruct (List.find _ ws) as [w'|] eqn:E; [|auto].
    inversion H; subst w'. apply find_some in E. destruct E as [Hin Hb].
    apply bool_decide_eq_true in Hb.
    right. exists ws. split; [left|]. split; [apply list_elem_of_In, Hin | exact Hb].
  - right. exists ws'. split; [right; exact Hin | auto].
Qed.

Lemma find_step_fold_is_Some g (l : list (list DataWriter.t)) acc :
  is_Some acc ∨ (∃ ws w, ws ∈ l ∧ w ∈ ws ∧ DataWriter.guid w = g) ->
  is_Some (foldl (find_step g) acc l).
Proof.
  revert acc. induction l as [|ws l IH]; intros acc; simpl.
  - intros [H | (ws & w & Hin & _)]; [exact H|].
    apply elem_of_nil in Hin. contradiction.
  - intros H. apply IH.
    destruct H as [H | (ws' & w & Hin & Hw & Hg)].
    + left. unfold find_step. destruct (List.find _ ws); [eauto | exact H].
    + apply elem_of_cons in Hin. destruct Hin as [-> | Hin].
      * left. unfold find_step.
        destruct (List.find _ ws) as [w'|] eqn:E; [eauto|].
        pose proof (find_none _ _ E w (proj1 (list_elem_of_In _ _) Hw)) as Hf.
        apply bool_decide_eq_false in Hf. contradiction.
      * right. exists ws', w. auto.
Qed.

Lemma elem_of_map_values {V} (m : gmap string V) (v : V) :
  v ∈ (map_to_list m).*2 <-> ∃ k, m !! k = Some v.
Proof.
  rewrite list_elem_of_fmap. split.
  - intros ([k v'] & -> & H). apply elem_of_map_to_list in H. eauto.
  - intros [k H]. exists (k, v). split; [reflexivity|].
    apply elem_of_map_to_list. exact H.
Qed.

(** [find_writer] returns a local writer with the guid asked for... *)
Lemma find_writer_Some st g w :
  find_writer st g = Some w ->
  ∃ topic, w ∈ writers_on st topic ∧ DataWriter.guid w = g.
Proof.
  unfold find_writer. intros H.
  apply (find_step_fold_Some g) in H.
  destruct H as [H | (ws & Hin & Hw & Hg)]; [discriminate|].
  apply elem_of_map_values in Hin. destruct Hin as [topic Ht].
  exists topic. unfold writers_on. rewrite Ht. auto.
Qed.

(** ... and finds one whenever there is one. *)
Lemma find_writer_is_Some st topic w :
  w ∈ writers_on st topic -> is_Some (find_writer st (DataWriter.guid w)).
Proof.
  unfold writers_on, find_writer. intros H.
  destruct (local_writers st !! topic) as [ws|] eqn:E; simpl in H;
    [|apply elem_of_nil in H; contradiction].
  apply (find_step_fold_is_Some (DataWriter.guid w)). right.
  exists ws, w. split; [|auto].
  apply elem_of_map_values. eauto.
Qed.

(** The invariant reads five entries of the state only. *)
Lemma participant_inv_frame st st' :
  local_writers st' = local_writers st ->
  local_readers st' = local_readers st ->
  matched_endpoints st' = matched_endpoints st ->
  discovered_endpoints st' = discovered_endpoints st ->
  sequence_numbers st' = sequence_numbers st ->
  participant_inv st -> participant_inv st'.
Proof.
  intros Hw Hr Hm Hd Hs.
  unfold participant_inv, is_local_guid, writers_on, readers_on, matched_of.
  rewrite Hw, Hr, Hm, Hd, Hs. auto.
Qed.

Lemma is_local_guid_mono st st' l :
  (∀ topic w, w ∈ writers_on st topic -> w ∈ writers_on st' topic) ->
  (∀ topic r, r ∈ readers_on st topic -> r ∈ readers_on st' topic) ->
  is_local_guid st l -> is_local_guid st' l.
Proof.
  intros Hw Hr [(topic & w & Hin & Hg) | (topic & r & Hin & Hg)].
  - left. exists topic, w. auto.
  - right. exists topic, r. auto.
Qed.

Lemma participant_inv_init : participant_inv init_state.
Proof.
  unfold participant_inv, writers_on, matched_of. simpl. repeat split.
  - intros topic w H. rewrite lookup_empty in H. simpl in H.
    apply elem_of_nil in H. contradiction.
  - intros l H. rewrite dom_empty_L in H. apply elem_of_empty in H. contradiction.
  - intros l g H. rewrite lookup_empty in H. simpl in H.
    apply elem_of_empty in H. contradiction.
Qed.

Lemma writers_on_create_writer st guid topic type_name qos topic' w :
  w ∈ writers_on (create_writer st guid topic type_name qos).2 topic' <->
  w ∈ writers_on st topic' ∨
  (topic' = topic ∧ w = (create_writer st guid topic type_name qos).1).
Proof.
  unfold writers_on, create_writer. simpl.
  destruct (decide (topic' = topic)) as [-> | Hne].
  - rewrite lookup_insert_eq. simpl. rewrite elem_of_app, list_elem_of_singleton.
    intuition.
  - rewrite lookup_insert_ne by congruence. intuition.
Qed.

Lemma readers_on_create_reader st guid topic type_name qos cb topic' r :
  r ∈ readers_on (create_reader st guid topic type_name qos cb).2 topic' <->
  r ∈ readers_on st topic' ∨
  (topic' = topic ∧ r = (create_reader st guid topic type_name qos cb).1).
Proof.
  unfold readers_on, create_reader. simpl.
  destruct (decide (topic' = topic)) as [-> | Hne].
  - rewrite lookup_insert_eq. simpl. rewrite elem_of_app, list_elem_of_singleton.
    intuition.
  - rewrite lookup_insert_ne by congruence. intuition.
Qed.

Lemma participant_inv_create_writer st guid topic type_name qos :
  participant_inv st ->
  participant_inv (create_writer st guid topic type_name qos).2.
Proof.
  intros (I1 & I2 & I3). split; [|split].
  - intros topic' w Hw. apply writers_on_create_writer in Hw.
    change (sequence_numbers (create_writer st guid topic type_name qos).2)
      with (<[guid := 0]> (sequence_numbers st)).
    destruct Hw as [Hw | [_ ->]].
    + apply lookup_insert_is_Some'. right. eapply I1; eauto.
    + simpl. apply lookup_insert_is_Some'. left. reflexivity.
  - intros l Hl. apply (is_local_guid_mono st); [| |apply I2; exact Hl].
    + intros topic' w Hw. apply writers_on_create_writer. auto.
    + auto.
  - exact I3.
Qed.

Lemma participant_inv_create_reader st guid topic type_name qos cb :
  participant_inv st ->
  participant_inv (create_reader st guid topic type_name qos cb).2.
Proof.
  intros (I1 & I2 & I3). split; [|split].
  - exact I1.
  - intros l Hl. apply (is_local_guid_mono st); [| |apply I2; exact Hl].
    + auto.
    + intros topic' r Hr. apply readers_on_create_reader. auto.
  - exact I3.
Qed.

Lemma participant_inv_write_data st guid data now b st' :
  write_data st guid data now = Some (b, st') ->
  participant_inv st -> participant_inv st'.
Proof.
  unfold write_data. intros H (I1 & I2 & I3).
  destruct (find_writer st guid) as [w|];
    [|inversion H; subst; split; [exact I1 | split; [exact I2 | exact I3]]].
  destruct (sequence_numbers st !! guid) as [n|] eqn:En; [|discriminate].
  assert (Hinv : participant_inv
            (set_sequence_numbers (<[guid := n + 1]> (sequence_numbers st)) st)).
  { split; [|split]; [|exact I2|exact I3].
    intros topic w' Hw. simpl. apply lookup_insert_is_Some'. right. eauto. }
  simpl in H. case_bool_decide; inversion H; subst; [|exact Hinv].
  revert Hinv. apply participant_inv_frame; reflexivity.
Qed.

Lemma set_matched_endpoints_same st : set_matched_endpoints (matched_endpoints st) st = st.
Proof. destruct st; reflexivity. Qed.

(** Matching changes the Match Table only. *)
Lemma _check_endpoint_matching_frame st ep :
  ∃ m, _check_endpoint_matching st ep = set_matched_endpoints m st.
Proof.
  unfold _check_endpoint_matching.
  destruct (bool_decide (EndpointInfo.kind ep = "writer")).
  - destruct (local_readers st !! EndpointInfo.topic ep) as [readers|].
    + apply (match_loop_frame DataReader.guid
               (fun reader => _qos_match (EndpointInfo.qos ep) (DataReader.qos reader))).
    + exists (matched_endpoints st). symmetry. apply set_matched_endpoints_same.
  - destruct (bool_decide (EndpointInfo.kind ep = "reader")).
    + destruct (local_writers st !! EndpointInfo.topic ep) as [writers|].
      * apply (match_loop_frame DataWriter.guid
                 (fun writer => _qos_match (DataWriter.qos writer) (EndpointInfo.qos ep))).
      * exists (matched_endpoints st). symmetry. apply set_matched_endpoints_same.
    + exists (matched_endpoints st). symmetry. apply set_matched_endpoints_same.
Qed.

(** A key of the Match Table after matching was a key before, or is the
    guid of a local endpoint. *)
Lemma _check_endpoint_matching_dom st ep l :
  l ∈ dom (matched_endpoints (_check_endpoint_matching st ep)) ->
  l ∈ dom (matched_endpoints st) ∨ is_local_guid st l.
Proof.
  unfold _check_endpoint_matching.
  destruct (bool_decide (EndpointInfo.kind ep = "writer")).
  - destruct (local_readers st !! EndpointInfo.topic ep) as [readers|] eqn:E; [|auto].
    intros H.
    apply (match_loop_dom DataReader.guid
             (fun reader => _qos_match (EndpointInfo.qos ep) (DataReader.qos reader)))
      in H.
    destruct H as [H | (r & Hr & Hg)]; [auto|].
    right. right. exists (EndpointInfo.topic ep), r.
    unfold readers_on. rewrite E. auto.
  - destruct (bool_decide (EndpointInfo.kind ep = "reader")); [|auto].
    destruct (local_writers st !! EndpointInfo.topic ep) as [writers|] eqn:E; [|auto].
    intros H.
    apply (match_loop_dom DataWriter.guid
             (fun writer => _qos_match (DataWriter.qos writer) (EndpointInfo.qos ep)))
      in H.
    destruct H as [H | (w & Hw & Hg)]; [auto|].
    right. left. exists (EndpointInfo.topic ep), w.
    unfold writers_on. rewrite E. auto.
Qed.

(** Matching adds the guid of the remote endpoint and nothing else. *)
Lemma _check_endpoint_matching_members st ep l g :
  g ∈ matched_of (_check_endpoint_matching st ep) l ->
  g ∈ matched_of st l ∨ g = EndpointInfo.guid ep.
Proof.
  unfold _check_endpoint_matching.
  destruct (bool_decide (EndpointInfo.kind ep = "writer")).
  - destruct (local_readers st !! EndpointInfo.topic ep) as [readers|]; [|auto].
    intros H.
    apply (match_loop_matched DataReader.guid
             (fun reader => _qos_match (EndpointInfo.qos ep) (DataReader.qos reader)))
      in H.
    destruct H as [H | [H _]]; auto.
  - destruct (bool_decide (EndpointInfo.kind ep = "reader")); [|auto].
    destruct (local_writers st !! EndpointInfo.topic ep) as [writers|]; [|auto].
    intros H.
    apply (match_loop_matched DataWriter.guid
             (fun writer => _qos_match (DataWriter.qos writer) (EndpointInfo.qos ep)))
      in H.
    destruct H as [H | [H _]]; auto.
Qed.

Lemma participant_inv_process_endpoint st ep :
  participant_inv st -> participant_inv (process_endpoint st ep).
Proof.
  intros (I1 & I2 & I3). unfold process_endpoint.
  set (st1 := set_discovered_endpoints
                (<[EndpointInfo.guid ep := ep]> (discovered_endpoints st)) st).
  destruct (_check_endpoint_matching_frame st1 ep) as [m Hm].
  split; [|split].
  - rewrite Hm. exact I1.
  - intros l Hl. apply _check_endpoint_matching_dom in Hl.
    rewrite Hm. destruct Hl as [Hl | Hl]; [apply I2; exact Hl | exact Hl].
  - intros l g Hg. apply _check_endpoint_matching_members in Hg.
    rewrite Hm. simpl. rewrite dom_insert_L.
    destruct Hg as [Hg | ->]; [|set_solver].
    apply elem_of_union. right. eapply I3. exact Hg.
Qed.

Lemma participant_inv_process_discovery self st msg now :
  participant_inv st -> participant_inv (_process_discovery_message self st msg now).
Proof.
  unfold _process_discovery_message. intros HI.
  case_bool_decide; [exact HI|].
  match goal with |- participant_inv (foldl _ ?s _) =>
    assert (H0 : participant_inv s)
      by (revert HI; apply participant_inv_frame; reflexivity);
    generalize dependent s
  end.
  induction (DiscoveryMessage.endpoints msg) as [|ep eps IH]; intros s Hs; simpl.
  - exact Hs.
  - apply IH. apply participant_inv_process_endpoint. exact Hs.
Qed.

Lemma matched_of_discard st ep_guid l g :
  g ∈ matched_of (remove_discovered_endpoint st ep_guid) l <->
  g ∈ matched_of st l ∧ g ≠ ep_guid.
Proof.
  unfold matched_of, remove_discovered_endpoint. simpl.
  rewrite lookup_fmap.
  destruct (matched_endpoints st !! l); simpl; set_solver.
Qed.

Lemma participant_inv_remove_endpoint st ep_guid :
  participant_inv st -> participant_inv (remove_discovered_endpoint st ep_guid).
Proof.
  intros (I1 & I2 & I3). split; [|split].
  - exact I1.
  - intros l Hl. unfold remove_discovered_endpoint in Hl. simpl in Hl.
    rewrite dom_fmap_L in Hl. apply I2 in Hl. exact Hl.
  - intros l g Hg. apply matched_of_discard in Hg. destruct Hg as [Hg Hne].
    unfold remove_discovered_endpoint. simpl. rewrite dom_delete_L.
    apply elem_of_difference. split; [eapply I3; exact Hg|].
    rewrite elem_of_singleton. exact Hne.
Qed.

Lemma participant_inv_remove_endpoints st guids :
  participant_inv st -> participant_inv (foldl remove_discovered_endpoint st guids).
Proof.
  revert st. induction guids as [|g guids IH]; intros st HI; simpl; [exact HI|].
  apply IH, participant_inv_remove_endpoint, HI.
Qed.

Lemma participant_inv_remove_expired st guid :
  participant_inv st -> participant_inv (remove_expired st guid).
Proof.
  intros HI. unfold remove_expired. apply participant_inv_remove_endpoints.
  revert HI. apply participant_inv_frame; reflexivity.
Qed.

Lemma participant_inv_cleanup st now :
  participant_inv st -> participant_inv (cleanup_expired_participants st now).
Proof.
  unfold cleanup_expired_participants.
  generalize (expired_of st now). intros guids. revert st.
  induction guids as [|g guids IH]; intros st HI; simpl; [exact HI|].
  apply IH, participant_inv_remove_expired, HI.
Qed.

Lemma participant_inv_timeAdvance self now st :
  participant_inv st -> participant_inv (timeAdvance self now st).2.
Proof.
  apply participant_inv_frame; unfold timeAdvance;
    repeat case_match; reflexivity.
Qed.

Lemma participant_inv_outputFnc self now st :
  participant_inv st -> participant_inv (outputFnc self st now).2.
Proof.
  apply participant_inv_frame; unfold outputFnc;
    repeat case_match; reflexivity.
Qed.

Lemma participant_inv_intTransition now st :
  participant_inv st -> participant_inv (intTransition st now).
Proof.
  apply participant_inv_frame; unfold intTransition;
    repeat case_match; reflexivity.
Qed.

Lemma participant_inv_rmw_command st command now st' :
  _process_rmw_command st command now = Some st' ->
  participant_inv st -> participant_inv st'.
Proof.
  destruct command as [guid topic tn qos | guid topic tn qos cb | h data |];
    simpl; intros H HI.
  - inversion H; subst. apply participant_inv_create_writer, HI.
  - inversion H; subst. apply participant_inv_create_reader, HI.
  - destruct (write_data st h data now) as [[b st'']|] eqn:E; [|discriminate].
    inversion H; subst. eapply participant_inv_write_data; eauto.
  - inversion H; subst. exact HI.
Qed.

Lemma participant_inv_apply_event self st ev st' :
  apply_event self st ev = Some st' ->
  participant_inv st -> participant_inv st'.
Proof.
  destruct ev; simpl; intros H HI.
  - inversion H; subst. apply participant_inv_timeAdvance, HI.
  - inversion H; subst. apply participant_inv_outputFnc, HI.
  - inversion H; subst. apply participant_inv_intTransition, HI.
  - unfold extTransition in H.
    assert (H1 : participant_inv
              match on_discovery_in inputs with
              | Some discovery_msg => _process_discovery_message self st discovery_msg now
              | None => st
              end).
    { destruct (on_discovery_in inputs);
        [apply participant_inv_process_discovery, HI | exact HI]. }
    destruct (on_rmw_command_in inputs) as [command|].
    + eapply participant_inv_rmw_command; eauto.
    + inversion H; subst. exact H1.
  - inversion H; subst. apply participant_inv_create_writer, HI.
  - inversion H; subst. apply participant_inv_create_reader, HI.
  - destruct (write_data st writer_guid data now) as [[b st'']|] eqn:E; [|discriminate].
    inversion H; subst. eapply participant_inv_write_data; eauto.
  - inversion H; subst. apply participant_inv_cleanup, HI.
Qed.

Lemma participant_inv_run self evs st st' :
  run_from self st evs = Some st' -> participant_inv st -> participant_inv st'.
Proof.
  revert st. induction evs as [|ev evs IH]; intros st; simpl.
  - intros H HI. inversion H; subst. exact HI.
  - destruct (apply_event self st ev) as [st1|] eqn:E; [|discriminate].
    intros H HI. apply (IH st1 H). eapply participant_inv_apply_event; eauto.
Qed.

(** Every reachable state satisfies the invariant. *)
Lemma reachable_inv self st : reachable self st -> participant_inv st.
Proof.
  intros [evs H]. eapply participant_inv_run; [exact H|].
  apply participant_inv_init.
Qed.

End ParticipantInvariant.

(** ** Publishing *)

Section PublishClaims.

Import QoS Participant.

(** Claim C6, as stated, fails: a write through a local writer that has no
    entry in the Match Table is not a no-op. Nothing is enqueued, but the
    writer's sequence-number counter goes from 0 to 1. *)
Lemma unmatched_write_advances_counter :
  reachable participant_A state_with_writer ∧
  matched_endpoints state_with_writer !! "writer-1" = None ∧
  sequence_numbers state_with_writer !! "writer-1" = Some 0 ∧
  ∃ st', write_data state_with_writer "writer-1" "hello" 5 = Some (false, st') ∧
         pending_messages st' = pending_messages state_with_writer ∧
         sequence_numbers st' !! "writer-1" = Some 1 ∧
         st' ≠ state_with_writer.
Proof.
  split.
  { exists [EvCreateWriter "writer-1" "/chatter" "String" default_profile].
    reflexivity. }
  split; [reflexivity|]. split; [vm_compute; reflexivity|].
  exists (set_sequence_numbers (<["writer-1" := 1]> (sequence_numbers state_with_writer))
            state_with_writer).
  split; [vm_compute; reflexivity|]. split; [reflexivity|].
  split; [vm_compute; reflexivity|].
  intros E. apply (f_equal (fun s => sequence_numbers s !! "writer-1")) in E.
  vm_compute in E. discriminate E.
Qed.

(** Claim C6, amended: in a reachable state, a write through a local
    writer whose counter holds [n] never fails with an exception and
    always advances the counter to [n + 1]. If the writer's guid has no
    entry in the Match Table, the call returns [False], enqueues nothing
    and changes nothing but that counter; otherwise it returns [True] and
    appends to the pending queue a message that carries the sequence
    number [n]. The numbers assigned by successive writes of one writer
    are strictly increasing: the message enqueued by the next write
    carries [n + 1]. *)
Theorem write_data_sequence self st guid data now :
  reachable self st -> is_Some (find_writer st guid) ->
  ∃ n w, sequence_numbers st !! guid = Some n ∧ find_writer st guid = Some w ∧
    let st1 := set_sequence_numbers (<[guid := n + 1]> (sequence_numbers st)) st in
    let msg := DataMsg.mk guid n (DataWriter.topic_name w) data now in
    (matched_endpoints st !! guid = None ->
     write_data st guid data now = Some (false, st1)) ∧
    (is_Some (matched_endpoints st !! guid) ->
     write_data st guid data now =
       Some (true, set_pending_messages (pending_messages st ++ [msg]) st1)) ∧
    (∀ b st', write_data st guid data now = Some (b, st') ->
       sequence_numbers st' !! guid = Some (n + 1) ∧
       ∀ data' now' st'',
         write_data st' guid data' now' = Some (true, st'') ->
         ∃ msg', pending_messages st'' = pending_messages st' ++ [msg'] ∧
                 DataMsg.sequence_number msg' = n + 1).
Proof.
  intros Hreach [w Hw].
  destruct (reachable_inv _ _ Hreach) as (I1 & _ & _).
  destruct (find_writer_Some _ _ _ Hw) as (topic & Hin & Hg).
  destruct (I1 _ _ Hin) as [n Hn]. rewrite Hg in Hn.
  exists n, w. split; [exact Hn|]. split; [exact Hw|].
  unfold write_data. rewrite Hw, Hn. simpl. split; [|split].
  - intros Hm. rewrite bool_decide_eq_false_2; [reflexivity|].
    rewrite Hm. intros [? ?]. discriminate.
  - intros Hm. rewrite bool_decide_eq_true_2 by exact Hm. reflexivity.
  - intros b st' H.
    assert (Hseq : sequence_numbers st' !! guid = Some (n + 1))
      by (case_bool_decide; inversion H; subst; simpl; apply lookup_insert_eq).
    assert (Hfind : find_writer st' guid = Some w)
      by (case_bool_decide; inversion H; subst; exact Hw).
    split; [exact Hseq|].
    intros data' now' st'' H2. rewrite Hfind, Hseq in H2.
    case_bool_decide; [|discriminate].
    inversion H2; subst. simpl. eexists. split; reflexivity.
Qed.

Lemma write_data_sequence_sample :
  reachable participant_A state_with_writer ∧
  is_Some (find_writer state_with_writer "writer-1") ∧
  write_data state_with_writer "writer-1" "hello" 5 =
    Some (false,
          set_sequence_numbers
            (<["writer-1" := 0 + 1]> (sequence_numbers state_with_writer))
            state_with_writer).
Proof.
  assert (Hr : reachable participant_A state_with_writer).
  { exists [EvCreateWriter "writer-1" "/chatter" "String" default_profile].
    reflexivity. }
  assert (Hf : is_Some (find_writer state_with_writer "writer-1")).
  { vm_compute. eexists. reflexivity. }
  split; [exact Hr|]. split; [exact Hf|].
  destruct (write_data_sequence participant_A state_with_writer "writer-1" "hello" 5
              Hr Hf) as (n & w & Hn & _ & Hno & _).
  assert (E : sequence_numbers state_with_writer !! "writer-1" = Some 0)
    by (vm_compute; reflexivity).
  rewrite E in Hn. inversion Hn; subst n.
  apply Hno. vm_compute. reflexivity.
Defined.

End PublishClaims.

(** ** The Match Table and the lease sweep *)

Section MatchTableClaims.

Import QoS Participant.

Lemma state_after_discovery_reachable :
  reachable participant_A state_after_discovery.
Proof.
  exists [EvCreateReader "reader-1" "/map" "OccupancyGrid"
            (profile_with_ownership EXCLUSIVE) None;
          EvExternal (mkInputs (Some discovery_from_B) None None) 0].
  reflexivity.
Qed.

(** Claim C3, as stated, fails: after participant A, which has the reader
    [reader-1], received the announcement of the remote writer
    [writer-9], the state is reachable, [writer-9] is in the matched set
    of [reader-1], and [reader-1] is not in the matched set of
    [writer-9], for which the Match Table has no entry at all. *)
Lemma match_table_not_symmetric :
  reachable participant_A state_after_discovery ∧
  ("writer-9" ∈ matched_of state_after_discovery "reader-1") ∧
  ("reader-1" ∉ matched_of state_after_discovery "writer-9") ∧
  matched_endpoints state_after_discovery !! "writer-9" = None.
Proof.
  split; [exact state_after_discovery_reachable|].
  assert (E1 : matched_of state_after_discovery "reader-1" = {["writer-9"]})
    by (vm_compute; reflexivity).
  assert (E2 : matched_endpoints state_after_discovery !! "writer-9" = None)
    by (vm_compute; reflexivity).
  split; [rewrite E1; apply elem_of_singleton; reflexivity|].
  split; [|exact E2].
  unfold matched_of. rewrite E2. apply not_elem_of_empty.
Qed.

(** Claim C3, amended: in every reachable state the Match Table is stored
    per local endpoint, in one direction: every key is the guid of a local
    reader or writer and every guid in a matched set is the guid of a
    discovered remote endpoint (a successful match inserts the remote guid
    into the set of the local endpoint only). Removing a discovered
    endpoint removes its guid from every matched set: whatever the lease
    sweep deletes from the discovered endpoints is in no matched set
    afterwards. *)
Theorem match_table_per_local_endpoint self st :
  reachable self st ->
  (∀ l, l ∈ dom (matched_endpoints st) -> is_local_guid st l) ∧
  (∀ l g, g ∈ matched_of st l -> g ∈ dom (discovered_endpoints st)) ∧
  (∀ ep r, EndpointInfo.kind ep = "writer" ->
           r ∈ readers_on st (EndpointInfo.topic ep) ->
           _qos_match (EndpointInfo.qos ep) (DataReader.qos r) = true ->
           EndpointInfo.guid ep
             ∈ matched_of (_check_endpoint_matching st ep) (DataReader.guid r)) ∧
  (∀ ep w, EndpointInfo.kind ep = "reader" ->
           w ∈ writers_on st (EndpointInfo.topic ep) ->
           _qos_match (DataWriter.qos w) (EndpointInfo.qos ep) = true ->
           EndpointInfo.guid ep
             ∈ matched_of (_check_endpoint_matching st ep) (DataWriter.guid w)) ∧
  (∀ ep_guid l, ep_guid ∉ matched_of (remove_discovered_endpoint st ep_guid) l) ∧
  (∀ now ep_guid l,
     ep_guid ∉ dom (discovered_endpoints (cleanup_expired_participants st now)) ->
     ep_guid ∉ matched_of (cleanup_expired_participants st now) l).
Proof.
  intros Hreach. pose proof (reachable_inv _ _ Hreach) as HI.
  destruct HI as (I1 & I2 & I3).
  split; [exact I2|]. split; [exact I3|]. split; [|split; [|split]].
  - intros ep r Hk Hr Hq. apply match_inserts_remote_for_reader; assumption.
  - intros ep w Hk Hw Hq. apply match_inserts_remote_for_writer; assumption.
  - intros ep_guid l H. apply matched_of_discard in H. destruct H as [_ H].
    apply H. reflexivity.
  - intros now ep_guid l Hgone Hin. apply Hgone.
    assert (HI' : participant_inv (cleanup_expired_participants st now)).
    { apply participant_inv_cleanup. split; [exact I1 | split; [exact I2 | exact I3]]. }
    destruct HI' as (_ & _ & I3'). eapply I3'. exact Hin.
Qed.

Lemma match_table_per_local_endpoint_sample :
  reachable participant_A state_after_discovery ∧
  is_local_guid state_after_discovery "reader-1".
Proof.
  split; [exact state_after_discovery_reachable|].
  apply (proj1 (match_table_per_local_endpoint participant_A state_after_discovery
                  state_after_discovery_reachable)).
  apply elem_of_dom.
  assert (E : matched_endpoints state_after_discovery !! "reader-1"
              = Some {["writer-9"]}) by (vm_compute; reflexivity).
  rewrite E. eexists. reflexivity.
Defined.

End MatchTableClaims.

(** ** The discovery database *)

Section DatabaseClaims.

Import Discovery.

Lemma db_inv_empty : db_inv empty_db.
Proof.
  unfold db_inv, empty_db. simpl. repeat split; intros ? ? H;
    rewrite lookup_empty in H; discriminate.
Qed.

Lemma db_inv_add_participant db info : db_inv db -> db_inv (add_participant db info).
Proof.
  intros (I1 & I2 & I3). split; [exact I1 | split; [|exact I3]].
  intros k i H. simpl in H. apply lookup_insert_Some in H.
  destruct H as [[<- <-] | [_ H]]; [reflexivity | apply I2, H].
Qed.

Lemma db_inv_add_endpoint db info : db_inv db -> db_inv (add_endpoint db info).
Proof.
  intros (I1 & I2 & I3). split; [|split; [exact I2|]].
  - intros topic s H. unfold add_endpoint in H. simpl in H.
    destruct (decide (topic = EndpointInfo.topic info)) as [-> | Hne].
    + rewrite lookup_alter_eq in H.
      destruct (_ !! EndpointInfo.topic info) as [s0|]; [|discriminate].
      inversion H; subst. set_solver.
    + rewrite lookup_alter_ne in H by congruence.
      destruct (topic_cache db !! EndpointInfo.topic info);
        [|rewrite lookup_insert_ne in H by congruence]; eapply I1; exact H.
  - intros k i H. simpl in H. apply lookup_insert_Some in H.
    destruct H as [[<- <-] | [_ H]]; [reflexivity | apply I3, H].
Qed.

Lemma remove_endpoint_participants db guid :
  participants (remove_endpoint db guid) = participants db.
Proof. unfold remove_endpoint. destruct (endpoints db !! guid); reflexivity. Qed.

Lemma remove_endpoint_endpoints db guid :
  endpoints (remove_endpoint db guid) = delete guid (endpoints db).
Proof.
  unfold remove_endpoint. destruct (endpoints db !! guid) eqn:E; simpl.
  - reflexivity.
  - symmetry. apply delete_id. exact E.
Qed.

Lemma db_inv_remove_endpoint db guid : db_inv db -> db_inv (remove_endpoint db guid).
Proof.
  intros (I1 & I2 & I3). split; [|split].
  - unfold remove_endpoint.
    destruct (endpoints db !! guid) as [ep|]; [|exact I1]. simpl.
    destruct (topic_cache db !! EndpointInfo.topic ep) as [s0|] eqn:E; [|exact I1].
    intros topic s H. case_bool_decide as Hs.
    + apply lookup_delete_Some in H. destruct H as [_ H]. eapply I1; exact H.
    + apply lookup_insert_Some in H. destruct H as [[_ <-] | [_ H]];
        [exact Hs | eapply I1; exact H].
  - rewrite remove_endpoint_participants. exact I2.
  - rewrite remove_endpoint_endpoints. intros k i H.
    apply lookup_delete_Some in H. destruct H as [_ H]. apply I3, H.
Qed.

Lemma db_inv_remove_endpoints db guids :
  db_inv db -> db_inv (foldl remove_endpoint db guids).
Proof.
  revert db. induction guids as [|g guids IH]; intros db HI; simpl; [exact HI|].
  apply IH, db_inv_remove_endpoint, HI.
Qed.

Lemma db_inv_remove_participant db guid :
  db_inv db -> db_inv (remove_participant db guid).
Proof.
  intros (I1 & I2 & I3). unfold remove_participant.
  apply db_inv_remove_endpoints. split; [exact I1 | split; [|exact I3]].
  intros k i H. simpl in H. apply lookup_delete_Some in H.
  destruct H as [_ H]. apply I2, H.
Qed.

Lemma db_inv_cleanup_expired db current_time :
  db_inv db -> db_inv (cleanup_expired db current_time).
Proof.
  unfold cleanup_expired. generalize (expired_of (participants db) current_time).
  intros guids. revert db.
  induction guids as [|g guids IH]; intros db HI; simpl; [exact HI|].
  apply IH, db_inv_remove_participant, HI.
Qed.

Lemma db_inv_reachable db : reachable db -> db_inv db.
Proof.
  intros [ops ->]. unfold run.
  assert (H : ∀ db0, db_inv db0 -> db_inv (foldl apply_op db0 ops)).
  { induction ops as [|op ops IH]; intros db0 HI; simpl; [exact HI|].
    apply IH. destruct op; simpl.
    - apply db_inv_add_participant, HI.
    - apply db_inv_add_endpoint, HI.
    - apply db_inv_remove_endpoint, HI.
    - apply db_inv_remove_participant, HI.
    - apply db_inv_cleanup_expired, HI. }
  apply H, db_inv_empty.
Qed.

(** Removing a list of endpoints leaves the participants alone and
    deletes exactly the listed keys. *)
Lemma remove_endpoints_participants db guids :
  participants (foldl remove_endpoint db guids) = participants db.
Proof.
  revert db. induction guids as [|g guids IH]; intros db; simpl; [reflexivity|].
  rewrite IH. apply remove_endpoint_participants.
Qed.

Lemma remove_endpoints_lookup db guids k :
  endpoints (foldl remove_endpoint db guids) !! k =
    if bool_decide (k ∈ guids) then None else endpoints db !! k.
Proof.
  revert db. induction guids as [|g guids IH]; intros db; cbn [foldl].
  - case_bool_decide as H; [apply elem_of_nil in H; contradiction | reflexivity].
  - rewrite IH, remove_endpoint_endpoints.
    destruct (decide (k = g)) as [-> | Hne].
    + rewrite lookup_delete_eq.
      destruct (bool_decide (g ∈ guids)); case_bool_decide as H;
        try reflexivity; exfalso; apply H; left.
    + rewrite lookup_delete_ne by congruence.
      case_bool_decide as H1; case_bool_decide as H2; try reflexivity.
      * exfalso. apply H2. right. exact H1.
      * exfalso. apply elem_of_cons in H2. destruct H2; [congruence | contradiction].
Qed.

Lemma elem_of_endpoints_of eps guid k :
  k ∈ endpoints_of eps guid <->
  ∃ info, eps !! k = Some info ∧ EndpointInfo.participant_guid info = guid.
Proof.
  unfold endpoints_of. rewrite list_elem_of_fmap. split.
  - intros ([k' info] & -> & H). apply elem_of_map_to_list in H.
    apply map_lookup_filter_Some in H. exists info. exact H.
  - intros (info & H1 & H2). exists (k, info). split; [reflexivity|].
    apply elem_of_map_to_list, map_lookup_filter_Some. auto.
Qed.

(** Claim C10: in every state of the Discovery Database reachable by
    [add_participant], [add_endpoint], [remove_endpoint],
    [remove_participant] and [cleanup_expired], the topic cache maps no
    topic to an empty set of endpoints; and after [remove_participant g]
    no participant is stored under [g] or has guid [g], and no stored
    endpoint has [participant_guid] equal to [g]. *)
Theorem discovery_database_invariant db :
  reachable db ->
  (∀ topic s, topic_cache db !! topic = Some s -> s ≠ ∅) ∧
  (∀ g,
     participants (remove_participant db g) !! g = None ∧
     (∀ k info, participants (remove_participant db g) !! k = Some info ->
                ParticipantInfo.guid info ≠ g) ∧
     (∀ k info, endpoints (remove_participant db g) !! k = Some info ->
                EndpointInfo.participant_guid info ≠ g)).
Proof.
  intros Hreach. pose proof (db_inv_reachable _ Hreach) as HI.
  split; [exact (proj1 HI)|]. intros g.
  pose proof (db_inv_remove_participant db g HI) as (_ & I2' & _).
  assert (Hp : participants (remove_participant db g) !! g = None).
  { unfold remove_participant. rewrite remove_endpoints_participants. simpl.
    apply lookup_delete_eq. }
  split; [exact Hp|]. split.
  - intros k info H Hg. pose proof (I2' _ _ H) as Hk.
    rewrite Hg in Hk. subst k. rewrite Hp in H. discriminate.
  - intros k info H Hg. unfold remove_participant in H.
    rewrite remove_endpoints_lookup in H. simpl in H.
    case_bool_decide as Hin; [discriminate|].
    apply Hin. apply elem_of_endpoints_of. exists info. auto.
Qed.

Lemma discovery_database_invariant_sample :
  reachable sample_db ∧
  participants (remove_participant sample_db "participant-B") !! "participant-B" = None.
Proof.
  assert (Hr : reachable sample_db) by (eexists; reflexivity).
  split; [exact Hr|].
  exact (proj1 (proj2 (discovery_database_invariant sample_db Hr) "participant-B")).
Defined.

End DatabaseClaims.

(** ** The lease sweep of the participant *)

Section LeaseSweep.

Import QoS Participant.

(** Every endpoint descriptor in a discovery message built by
    [_create_discovery_message] carries the empty string as
    [participant_guid], whatever the guid of the participant. *)
Lemma created_endpoints_carry_no_owner self st ep :
  ep ∈ DiscoveryMessage.endpoints (_create_discovery_message self st) ->
  EndpointInfo.participant_guid ep = "".
Proof.
  unfold _create_discovery_message. simpl. rewrite elem_of_app.
  intros [H | H]; apply list_elem_of_fmap in H; destruct H as (x & -> & _);
    reflexivity.
Qed.

(** Claim C4 on the code: participant B announces its writer [writer-9]
    with a lease of 10 s; participant A receives the announcement at time 0
    and matches the writer with its reader. At time 11 the lease of B has
    expired. The sweep removes B from the discovered participants, but
    the endpoint of B stays among the discovered endpoints and in the
    matched set of the reader. *)
Lemma sweep_leaves_endpoints_of_expired_participant :
  DiscoveryMessage.participant_guid discovery_from_B = "participant-B" ∧
  discovered_participants state_after_discovery !! "participant-B"
    = Some (ParticipantInfo.mk "participant-B" 0 (Fin (0 + 10)) "ROS2_DEVS") ∧
  Dur.gtb (Fin 11) (Fin (0 + 10)) = true ∧
  discovered_participants (cleanup_expired_participants state_after_discovery 11)
    !! "participant-B" = None ∧
  discovered_endpoints (cleanup_expired_participants state_after_discovery 11)
    !! "writer-9"
    = Some (EndpointInfo.mk "writer-9" "" "/map" "OccupancyGrid" "writer"
              (profile_with_ownership SHARED) []) ∧
  matched_of (cleanup_expired_participants state_after_discovery 11) "reader-1"
    = {["writer-9"]}.
Proof.
  repeat split; vm_compute; reflexivity.
Qed.

(** *** What the sweep does remove

    The sweep itself works on the [participant_guid] stored with each
    endpoint: an endpoint stored with the guid of an expired participant
    is removed, and leaves every matched set. *)

Lemma discard_endpoints_participants st ks :
  discovered_participants (foldl remove_discovered_endpoint st ks)
  = discovered_participants st.
Proof.
  revert st. induction ks as [|k ks IH]; intros st; cbn [foldl]; [reflexivity|].
  rewrite IH. reflexivity.
Qed.

Lemma discard_endpoints_lookup st ks k :
  discovered_endpoints (foldl remove_discovered_endpoint st ks) !! k =
    if bool_decide (k ∈ ks) then None else discovered_endpoints st !! k.
Proof.
  revert st. induction ks as [|g ks IH]; intros st; cbn [foldl].
  - case_bool_decide as H; [apply elem_of_nil in H; contradiction | reflexivity].
  - rewrite IH. unfold remove_discovered_endpoint at 1. cbn [discovered_endpoints
      set_matched_endpoints set_discovered_endpoints].
    destruct (decide (k = g)) as [-> | Hne].
    + rewrite lookup_delete_eq.
      destruct (bool_decide (g ∈ ks)); case_bool_decide as H;
        try reflexivity; exfalso; apply H; left.
    + rewrite lookup_delete_ne by congruence.
      case_bool_decide as H1; case_bool_decide as H2; try reflexivity.
      * exfalso. apply H2. right. exact H1.
      * exfalso. apply elem_of_cons in H2. destruct H2; [congruence | contradiction].
Qed.

Lemma elem_of_endpoints_of_state st guid k :
  k ∈ endpoints_of st guid <->
  ∃ info, discovered_endpoints st !! k = Some info ∧
          EndpointInfo.participant_guid info = guid.
Proof.
  unfold endpoints_of. rewrite list_elem_of_fmap. split.
  - intros ([k' info] & -> & H). apply elem_of_map_to_list in H.
    apply map_lookup_filter_Some in H. exists info. exact H.
  - intros (info & H1 & H2). exists (k, info). split; [reflexivity|].
    apply elem_of_map_to_list, map_lookup_filter_Some. auto.
Qed.

Lemma elem_of_expired_of st now g :
  g ∈ expired_of st now <->
  ∃ info, discovered_participants st !! g = Some info ∧
          Dur.gtb (Fin now) (ParticipantInfo.lease_expiry info) = true.
Proof.
  unfold expired_of. rewrite list_elem_of_fmap. split.
  - intros ([k' info] & -> & H). apply elem_of_map_to_list in H.
    apply map_lookup_filter_Some in H. exists info. exact H.
  - intros (info & H1 & H2). exists (g, info). split; [reflexivity|].
    apply elem_of_map_to_list, map_lookup_filter_Some. auto.
Qed.

Lemma remove_expired_participants st g :
  discovered_participants (remove_expired st g) = delete g (discovered_participants st).
Proof. unfold remove_expired. rewrite discard_endpoints_participants. reflexivity. Qed.

Lemma remove_expired_lookup st g k :
  discovered_endpoints (remove_expired st g) !! k =
    if bool_decide (k ∈ endpoints_of st g) then None else discovered_endpoints st !! k.
Proof. unfold remove_expired. rewrite discard_endpoints_lookup. reflexivity. Qed.

Lemma sweep_participants st gs g :
  g ∈ gs -> discovered_participants (foldl remove_expired st gs) !! g = None.
Proof.
  assert (Hkeep : ∀ gs st, discovered_participants st !! g = None ->
            discovered_participants (foldl remove_expired st gs) !! g = None).
  { clear. intros gs. induction gs as [|g' gs IH]; intros st H; cbn [foldl]; [exact H|].
    apply IH. rewrite remove_expired_participants.
    apply lookup_delete_None. auto. }
  revert st. induction gs as [|g' gs IH]; intros st Hin; cbn [foldl].
  - apply elem_of_nil in Hin. contradiction.
  - apply elem_of_cons in Hin. destruct Hin as [-> | Hin]; [|apply IH, Hin].
    apply Hkeep. rewrite remove_expired_participants. apply lookup_delete_eq.
Qed.

Lemma sweep_endpoints_shrink st gs k info :
  discovered_endpoints (foldl remove_expired st gs) !! k = Some info ->
  discovered_endpoints st !! k = Some info.
Proof.
  revert st. induction gs as [|g gs IH]; intros st H; cbn [foldl] in H; [exact H|].
  apply IH in H. rewrite remove_expired_lookup in H.
  case_bool_decide; [discriminate | exact H].
Qed.

Lemma sweep_endpoints st gs g k info :
  g ∈ gs ->
  discovered_endpoints (foldl remove_expired st gs) !! k = Some info ->
  EndpointInfo.participant_guid info ≠ g.
Proof.
  revert st. induction gs as [|g' gs IH]; intros st Hin H; cbn [foldl] in H.
  - apply elem_of_nil in Hin. contradiction.
  - apply elem_of_cons in Hin. destruct Hin as [-> | Hin]; [|eapply IH; eauto].
    apply sweep_endpoints_shrink in H. rewrite remove_expired_lookup in H.
    case_bool_decide as Hk; [discriminate|].
    intros Hg. apply Hk. apply elem_of_endpoints_of_state. exists info. auto.
Qed.

(** In a reachable state the sweep removes every participant whose lease
    has expired, every discovered endpoint stored with the guid of such a
    participant, and the guid of every such endpoint from all matched
    sets. *)
Lemma sweep_removes_owned_endpoints self st now g info :
  reachable self st ->
  discovered_participants st !! g = Some info ->
  Dur.gtb (Fin now) (ParticipantInfo.lease_expiry info) = true ->
  discovered_participants (cleanup_expired_participants st now) !! g = None ∧
  (∀ k ep, discovered_endpoints (cleanup_expired_participants st now) !! k = Some ep ->
           EndpointInfo.participant_guid ep ≠ g) ∧
  (∀ k ep l, discovered_endpoints st !! k = Some ep ->
             EndpointInfo.participant_guid ep = g ->
             k ∉ matched_of (cleanup_expired_participants st now) l).
Proof.
  intros Hreach Hp Hexp.
  assert (Hin : g ∈ expired_of st now)
    by (apply elem_of_expired_of; exists info; auto).
  unfold cleanup_expired_participants. split; [|split].
  - apply sweep_participants, Hin.
  - intros k ep. apply sweep_endpoints, Hin.
  - intros k ep l Hk Hg Hm.
    pose proof (participant_inv_cleanup st now (reachable_inv _ _ Hreach))
      as (_ & _ & I3).
    apply I3 in Hm. apply elem_of_dom in Hm. destruct Hm as [ep' Hep'].
    pose proof (sweep_endpoints _ _ _ _ _ Hin Hep') as Hne.
    apply sweep_endpoints_shrink in Hep'. congruence.
Qed.

End LeaseSweep.

(** ** Time advance *)

Section TimeAdvanceClaims.

Import QoS Participant.

(** Claim C9, as stated, fails for the Domain Participant: in the state it
    reaches by its initialisation at time 0 (phase ['active']), its
    [timeAdvance] returns 0.1 when the wall clock reads 0 and 0.001 when
    it reads 1, and the second evaluation changes the phase of the state
    to ['discovering']. *)
Lemma timeAdvance_reads_clock_and_writes_phase :
  reachable participant_A active_state ∧
  phase active_state = "active" ∧
  (timeAdvance participant_A 0 active_state).1 = Fin (1 # 10) ∧
  (timeAdvance participant_A 1 active_state).1 = Fin (1 # 1000) ∧
  phase (timeAdvance participant_A 1 active_state).2 = "discovering" ∧
  (timeAdvance participant_A 1 active_state).2 ≠ active_state.
Proof.
  split; [exists [EvInternal 0]; reflexivity|].
  split; [reflexivity|]. split; [reflexivity|]. split; [reflexivity|].
  split; [reflexivity|].
  intros E. apply (f_equal phase) in E. vm_compute in E. discriminate E.
Qed.

Lemma set_phase_same st : set_phase (phase st) st = st.
Proof. destruct st; reflexivity. Qed.

(** Claim C9, amended: the participant's [timeAdvance] is a function of
    the state and of the wall-clock reading. In every phase other than
    ['active'] its result is the same for all clock readings and the
    state is left unchanged; in any phase the evaluation changes at most
    the phase entry of the state, which it leaves as it is or sets to
    ['discovering'], ['heartbeat'] or ['sending_data']. The time advance
    of the router and of the shared-memory transport is the constant
    infinity, and that of a network transport depends only on whether its
    queue is empty. *)
Theorem timeAdvance_pure_outside_active self st now1 now2 :
  (phase st ≠ "active" ->
   timeAdvance self now1 st = timeAdvance self now2 st ∧
   (timeAdvance self now1 st).2 = st) ∧
  (∃ p, (timeAdvance self now1 st).2 = set_phase p st ∧
        (p = phase st ∨ p = "discovering" ∨ p = "heartbeat" ∨ p = "sending_data")) ∧
  (∀ s, TransportRouter.timeAdvance s = Inf) ∧
  (∀ s, SharedMemoryTransport.timeAdvance s = Inf) ∧
  (∀ config tt s,
     NetworkTransport.timeAdvance config tt s =
       if bool_decide (NetworkTransport.pending_messages s = [])
       then Inf else Fin (NetworkTransport._get_latency config tt)).
Proof.
  split; [|split; [|split; [|split]]].
  - intros Hna. unfold timeAdvance.
    rewrite (bool_decide_eq_false_2 (phase st = "active")) by exact Hna.
    destruct (bool_decide (phase st = "initializing")); [split; reflexivity|].
    destruct (_ || _); split; reflexivity.
  - unfold timeAdvance.
    repeat case_match;
      try (exists (phase st); split; [symmetry; apply set_phase_same | left; reflexivity]);
      eexists; (split; [reflexivity | auto]).
  - reflexivity.
  - reflexivity.
  - intros config tt s. unfold NetworkTransport.timeAdvance.
    destruct (NetworkTransport.pending_messages s); reflexivity.
Qed.

Lemma timeAdvance_pure_outside_active_sample :
  phase init_state ≠ "active" ∧
  timeAdvance participant_A 0 init_state = timeAdvance participant_A 1 init_state ∧
  (timeAdvance participant_A 0 init_state).2 = init_state.
Proof.
  assert (H : phase init_state ≠ "active") by (simpl; discriminate).
  split; [exact H|].
  exact (proj1 (timeAdvance_pure_outside_active participant_A init_state 0 1) H).
Defined.

End TimeAdvanceClaims.

(** ** The transport multiplexer *)

Section MultiplexerClaims.

Import Transport TransportMultiplexer.

Variable config : NetworkConfig.
Variable random : nat -> Q.

Lemma quiet_init : quiet init_sim.
Proof. repeat split. Qed.

(** While no network transport holds a message, no sub-model is ever
    imminent: the router and the shared-memory transport never are. *)
Lemma quiet_imminent sim : quiet sim -> imminent config sim = None.
Proof.
  intros (Hm & Hu & Ht). unfold imminent, children, next_event_time. simpl.
  unfold NetworkTransport.timeAdvance. rewrite Hm, Hu, Ht. reflexivity.
Qed.

Lemma quiet_external_event sim t m sim' :
  quiet sim -> external_event config random sim t m = Ok sim' -> quiet sim'.
Proof.
  intros H. unfold external_event, external_transition.
  destruct (TransportRouter.extTransition (router sim) (Some m)) as [st|e];
    intros E; [|discriminate E].
  inversion E. exact H.
Qed.

(** The router turns an arriving message into its state and emits
    nothing, so that nothing reaches a transport. *)
Lemma simulate_quiet fuel sim arrivals r :
  quiet sim -> simulate config random fuel sim arrivals = Ok r -> r.2 = [].
Proof.
  revert sim arrivals r. induction fuel as [|fuel IH]; intros sim arrivals r Hq.
  { intros E. inversion E. reflexivity. }
  cbn [simulate]. unfold internal_event.
  rewrite (quiet_imminent sim Hq).
  destruct arrivals as [|[t m] arrivals].
  { intros E. inversion E. reflexivity. }
  destruct (external_event config random sim t m) as [sim'|e] eqn:Ee;
    [|intros E; discriminate E].
  apply IH. exact (quiet_external_event sim t m sim' Hq Ee).
Qed.

(** The multiplexer emits nothing on [data_out], whatever arrives on
    [data_in]. *)
Lemma multiplexer_never_emits fuel arrivals r :
  simulate config random fuel init_sim arrivals = Ok r -> r.2 = [].
Proof. apply simulate_quiet, quiet_init. Qed.

End MultiplexerClaims.

Section SharedMemoryClaim.

Import Transport TransportMultiplexer.

(** Claim C5 on the code: a message whose source and destination are the
    same node is classified into the shared-memory class; fed into the
    multiplexer at time [t], it is stored as the state of the router, and
    nothing is emitted on [data_out], for every loss rate and however long
    the simulation runs. *)
Lemma shared_memory_message_not_delivered
  (config : NetworkConfig) (random : nat -> Q) (fuel : nat) (t : Q) :
  TransportRouter._select_transport local_message = Ok SHARED_MEMORY ∧
  ∃ sim,
    simulate config random (S fuel) init_sim [(t, local_message)] = Ok (sim, []) ∧
    router sim = TransportRouter.StDict TransportRouter.shm_out local_message ∧
    shm sim = SharedMemoryTransport.StNone.
Proof.
  split; [reflexivity|].
  cbn [simulate]. unfold internal_event.
  rewrite (quiet_imminent config init_sim quiet_init).
  destruct (external_event config random init_sim t local_message) as [sim1|e] eqn:Ee;
    [|discriminate Ee].
  assert (Hq : quiet sim1)
    by exact (quiet_external_event config random init_sim t local_message sim1
                quiet_init Ee).
  assert (Hstop : ∀ fuel, simulate config random fuel sim1 [] = Ok (sim1, [])).
  { intros [|n]; [reflexivity|]. cbn [simulate]. unfold internal_event.
    rewrite (quiet_imminent config sim1 Hq). reflexivity. }
  exists sim1. split; [apply Hstop|].
  inversion Ee. split; reflexivity.
Qed.

End SharedMemoryClaim.

(** * Further properties *)

(** ** The checker's report *)

Section ReportFacts.

Import QoS.

(** X1: The report lists exactly the failing dimensions, each once, in the
    order in which the checker examines them; the profiles are compatible
    exactly when the report is empty. *)
Theorem violations_exact pub sub :
  let v := incompatible_policies (check_compatibility pub sub) in
  ("reliability" ∈ v <-> _check_reliability pub sub = false) ∧
  ("durability" ∈ v <-> _check_durability pub sub = false) ∧
  ("deadline" ∈ v <-> _check_deadline pub sub = false) ∧
  ("lifespan" ∈ v <-> _check_lifespan pub sub = false) ∧
  ("liveliness" ∈ v <-> _check_liveliness pub sub = false) ∧
  ("history" ∈ v <-> _check_history pub sub = false) ∧
  ("ownership" ∈ v <-> _check_ownership pub sub = false) ∧
  ("partition" ∈ v <-> _check_partition pub sub = false) ∧
  sublist v policy_names ∧
  (compatible (check_compatibility pub sub) = true <-> v = []).
Proof.
  unfold check_compatibility, policy_names; simpl.
  destruct (_check_reliability pub sub), (_check_durability pub sub),
    (_check_deadline pub sub), (_check_lifespan pub sub),
    (_check_liveliness pub sub), (_check_history pub sub),
    (_check_ownership pub sub), (_check_partition pub sub); simpl;
    repeat split;
    try (intros _; reflexivity);
    try (intros H; inversion H; fail);
    try (intros H; set_solver);
    try (repeat first [apply sublist_nil | apply sublist_skip | apply sublist_cons]);
    try (intros _; set_solver);
    try discriminate.
Qed.

End ReportFacts.

Section CheckerMonotone.

Import QoS.

(** X2: Offering a durability of a higher level never breaks compatibility:
    if [pub] is compatible with [sub], so is [pub] with its durability
    raised. *)
Theorem durability_raise_keeps_compatible pub sub d :
  compatible (check_compatibility pub sub) = true ->
  durability_levels (durability pub) <= durability_levels d ->
  compatible (check_compatibility (with_durability d pub) sub) = true.
Proof.
  rewrite !compatible_and. intros H Hd.
  repeat (apply andb_prop in H; destruct H as [H ?]).
  repeat (apply andb_true_intro; split); try assumption.
  unfold _check_durability in *. simpl.
  match goal with Hx : (_ >=? _) = true |- _ => apply Z.geb_le in Hx end.
  apply Z.geb_le. lia.
Qed.

Lemma durability_raise_keeps_compatible_sample :
  compatible (check_compatibility (profile_with_ownership SHARED)
                                  (profile_with_ownership SHARED)) = true ∧
  compatible (check_compatibility
                (with_durability TRANSIENT_LOCAL (profile_with_ownership SHARED))
                (profile_with_ownership SHARED)) = true.
Proof.
  assert (H : compatible (check_compatibility (profile_with_ownership SHARED)
                            (profile_with_ownership SHARED)) = true) by reflexivity.
  split; [exact H|].
  apply (durability_raise_keeps_compatible _ _ TRANSIENT_LOCAL H). simpl. lia.
Defined.

End CheckerMonotone.

(** ** Partition patterns *)

Section PartitionFacts.

Import QoS.

Lemma has_star_append a b : has_star (String.append a b) = has_star a || has_star b.
Proof.
  induction a as [|c a IH]; [reflexivity|].
  change (String.append (String c a) b) with (String c (String.append a b)).
  cbn [has_star]. rewrite IH. apply orb_assoc.
Qed.

(** The split of a star-free string followed by a star, and of a star
    followed by a star-free string. *)
Lemma split_star_free p : has_star p = false -> split_star p = [p].
Proof.
  induction p as [|c p IH]; cbn [has_star split_star]; [reflexivity|].
  intros H. apply orb_false_elim in H. destruct H as [Hc Hp].
  rewrite Hc, (IH Hp). reflexivity.
Qed.

Lemma split_star_prefix p :
  has_star p = false -> split_star (String.append p "*") = [p; EmptyString].
Proof.
  induction p as [|c p IH]; cbn [has_star]; [reflexivity|].
  intros H. apply orb_false_elim in H. destruct H as [Hc Hp].
  change (String.append (String c p) "*") with (String c (String.append p "*")).
  cbn [split_star]. rewrite Hc, (IH Hp). reflexivity.
Qed.

Lemma split_star_suffix p :
  has_star p = false -> split_star (String.append "*" p) = [EmptyString; p].
Proof.
  intros H. change (String.append "*" p) with (String star p).
  cbn [split_star]. rewrite (split_star_free p H). reflexivity.
Qed.

Lemma startswith_empty name : startswith name EmptyString = true.
Proof. destruct name; reflexivity. Qed.

Lemma endswith_empty name : endswith name EmptyString = true.
Proof.
  induction name as [|c name IH]; [reflexivity|].
  apply endswith_cons. exact IH.
Qed.

Lemma has_star_eq a b : a = b -> has_star a = has_star b.
Proof. intros ->. reflexivity. Qed.

(** X3: How [_partition_matches] reads a pattern: a star-free prefix followed
    by a star matches the names that start with the prefix; a star
    followed by a star-free suffix matches the names that end with the
    suffix; two star-free strings match when they are equal; and a
    star-free pattern never matches a name that contains a star, so that
    the relation is not symmetric. *)
Theorem partition_pattern_semantics (p name : string) :
  has_star p = false ->
  _partition_matches (String.append p "*") name = startswith name p ∧
  _partition_matches (String.append "*" p) name = endswith name p ∧
  (has_star name = false -> _partition_matches p name = bool_decide (p = name)) ∧
  (has_star name = true -> _partition_matches p name = false).
Proof.
  intros Hp. split; [|split; [|split]].
  - unfold _partition_matches.
    rewrite has_star_append, Hp, (split_star_prefix p Hp).
    replace (has_star "*") with true by reflexivity.
    cbn [orb negb andb first_part last_part hd List.last nonempty_str].
    destruct p as [|c p]; [symmetry; apply startswith_empty|].
    cbn [nonempty_str andb]. destruct (startswith name (String c p)); reflexivity.
  - unfold _partition_matches.
    rewrite has_star_append, (split_star_suffix p Hp).
    replace (has_star "*") with true by reflexivity.
    cbn [orb negb andb first_part last_part hd List.last nonempty_str].
    destruct p as [|c p]; [symmetry; apply endswith_empty|].
    cbn [nonempty_str andb]. destruct (endswith name (String c p)); reflexivity.
  - intros Hn. unfold _partition_matches. rewrite Hp, Hn. reflexivity.
  - intros Hn. unfold _partition_matches. rewrite Hp, Hn. reflexivity.
Qed.

Lemma partition_pattern_semantics_sample :
  has_star "sensors/" = false ∧
  _partition_matches "sensors/*" "sensors/lidar" = true.
Proof.
  split; [reflexivity|].
  exact (eq_trans
           (proj1 (partition_pattern_semantics "sensors/" "sensors/lidar" eq_refl))
           eq_refl).
Defined.

Lemma existsb_elements (f : string -> bool) (l : list string) :
  existsb f (elements (list_to_set l : gset string)) = existsb f l.
Proof.
  apply eq_true_iff_eq. rewrite !existsb_exists. split.
  - intros (x & Hx & Hf). exists x. split; [|exact Hf].
    apply list_elem_of_In. apply list_elem_of_In, elem_of_elements in Hx.
    apply elem_of_list_to_set in Hx. exact Hx.
  - intros (x & Hx & Hf). exists x. split; [|exact Hf].
    apply list_elem_of_In, elem_of_elements, elem_of_list_to_set.
    apply list_elem_of_In. exact Hx.
Qed.

Lemma elements_partition_set (f : string -> bool) (l : list string) :
  existsb f (elements (partition_set l)) = existsb f (effective_partitions l).
Proof.
  destruct l as [|x l]; simpl.
  - rewrite elements_singleton. reflexivity.
  - apply (existsb_elements f (x :: l)).
Qed.

(** The partition rule as a statement about the two lists: unless both
    are empty, some offered pattern must match some requested name, an
    empty list standing for the single empty name. *)
Lemma _check_partition_spec pub sub :
  _check_partition pub sub = true <->
  (partition pub = [] ∧ partition sub = []) ∨
  ∃ a b, a ∈ effective_partitions (partition pub) ∧
         b ∈ effective_partitions (partition sub) ∧
         _partition_matches a b = true.
Proof.
  unfold _check_partition.
  assert (Hloop :
    existsb (fun pub_part =>
               existsb (fun sub_part => _partition_matches pub_part sub_part)
                       (elements (partition_set (partition sub))))
            (elements (partition_set (partition pub))) = true <->
    ∃ a b, a ∈ effective_partitions (partition pub) ∧
           b ∈ effective_partitions (partition sub) ∧
           _partition_matches a b = true).
  { rewrite elements_partition_set, existsb_exists. split.
    - intros (a & Ha & H). rewrite elements_partition_set, existsb_exists in H.
      destruct H as (b & Hb & H). exists a, b.
      split; [apply list_elem_of_In, Ha|]. split; [apply list_elem_of_In, Hb | exact H].
    - intros (a & b & Ha & Hb & H). exists a. split; [apply list_elem_of_In, Ha|].
      rewrite elements_partition_set, existsb_exists.
      exists b. split; [apply list_elem_of_In, Hb | exact H]. }
  destruct (partition pub) as [|x xs] eqn:Ep, (partition sub) as [|y ys] eqn:Es.
  - split; auto.
  - rewrite Hloop. split; [auto|]. intros [[_ H] | H]; [discriminate | exact H].
  - rewrite Hloop. split; [auto|]. intros [[H _] | H]; [discriminate | exact H].
  - rewrite Hloop. split; [auto|]. intros [[H _] | H]; [discriminate | exact H].
Qed.

(** X4: When only one side names partitions, the other side counts as the
    single empty name: an offer without partitions is accepted by a
    request with partitions exactly when the request lists the empty
    name, and a request without partitions accepts an offer with
    partitions exactly when one offered pattern matches the empty name. *)
Theorem partition_one_side_empty pub sub :
  (partition pub = [] -> partition sub ≠ [] ->
   (_check_partition pub sub = true <-> EmptyString ∈ partition sub)) ∧
  (partition sub = [] -> partition pub ≠ [] ->
   (_check_partition pub sub = true <->
    ∃ a, a ∈ partition pub ∧ _partition_matches a EmptyString = true)).
Proof.
  split; intros He Hne; rewrite _check_partition_spec, He.
  - destruct (partition sub) as [|y ys] eqn:Es; [contradiction|]. simpl.
    split.
    + intros [[_ H] | (a & b & Ha & Hb & H)]; [discriminate|].
      apply list_elem_of_singleton in Ha. subst a.
      unfold _partition_matches in H. simpl in H.
      destruct (has_star b); simpl in H; [discriminate|].
      apply bool_decide_eq_true in H. subst b. exact Hb.
    + intros H. right. exists EmptyString, EmptyString.
      split; [apply list_elem_of_singleton; reflexivity|]. split; [exact H | reflexivity].
  - destruct (partition pub) as [|x xs] eqn:Ep; [contradiction|]. simpl.
    split.
    + intros [[H _] | (a & b & Ha & Hb & H)]; [discriminate|].
      apply list_elem_of_singleton in Hb. subst b. exists a. auto.
    + intros (a & Ha & H). right. exists a, EmptyString.
      split; [exact Ha|]. split; [apply list_elem_of_singleton; reflexivity | exact H].
Qed.

Lemma partition_one_side_empty_sample :
  _check_partition (profile_with_partition [])
                   (profile_with_partition ["sensors"; ""]) = true.
Proof.
  apply (proj1 (partition_one_side_empty (profile_with_partition [])
                  (profile_with_partition ["sensors"; ""]))).
  - reflexivity.
  - discriminate.
  - simpl. right. left.
Defined.

End PartitionFacts.

(** ** Error messages and the compatibility matrix *)

Section ReportMessages.

Import QoS CheckerReport.

Lemma concat_starts_with_first (sep x : string) (xs : list string) c rest :
  x = String c rest -> ∃ rest', String.concat sep (x :: xs) = String c rest'.
Proof.
  intros ->. destruct xs as [|y ys]; simpl; eexists; reflexivity.
Qed.

Lemma compatible_of_no_violation pub sub :
  incompatible_policies (check_compatibility pub sub) = [] ->
  compatible (check_compatibility pub sub) = true.
Proof.
  unfold check_compatibility. cbv zeta. cbn [incompatible_policies compatible].
  intros ->. reflexivity.
Qed.

(** X5: The message of a check result is the success message exactly when the
    profiles are compatible; otherwise it is the list of the failing
    dimensions. *)
Theorem error_message_compatible pub sub :
  get_error_message (check_compatibility pub sub) = "QoS policies are compatible"
  <-> compatible (check_compatibility pub sub) = true.
Proof.
  unfold get_error_message.
  destruct (compatible (check_compatibility pub sub)) eqn:E; [split; reflexivity|].
  split; [|discriminate]. intros H. exfalso.
  destruct (incompatible_policies (check_compatibility pub sub)) as [|x xs] eqn:El.
  - assert (Hc : compatible (check_compatibility pub sub) = true)
      by (apply compatible_of_no_violation; exact El).
    congruence.
  - cbn [List.map] in H.
    destruct (concat_starts_with_first "; "
                (String.append "Incompatible " (String.append x " QoS policy"))
                (List.map (fun policy =>
                   String.append "Incompatible " (String.append policy " QoS policy")) xs)
                "I"%char (String.append "ncompatible " (String.append x " QoS policy"))
                eq_refl) as [rest' Hr].
    rewrite Hr in H. discriminate H.
Qed.

End ReportMessages.

Section CompatibilityMatrix.

Import QoS CheckerReport.

Lemma enumerate_snoc {A} (l : list A) (x : A) :
  enumerate (l ++ [x]) = enumerate l ++ [(length l, x)].
Proof.
  unfold enumerate. rewrite imap_app. simpl.
  rewrite Nat.add_0_r. reflexivity.
Qed.

(** One row of the matrix: the inner loop, for the publisher [i]. *)
Lemma matrix_row_lookup (i : nat) (pub : QoSProfile) (subs : list QoSProfile)
  (results : gmap (nat * nat) QoSCompatibilityResult) (i' j : nat) :
  foldl (fun results sub => <[(i, sub.1) := check_compatibility pub sub.2]> results)
        results (enumerate subs) !! (i', j)
  = if bool_decide (i' = i)
    then match subs !! j with
         | Some sub => Some (check_compatibility pub sub)
         | None => results !! (i', j)
         end
    else results !! (i', j).
Proof.
  induction subs as [|sub subs IH] using rev_ind.
  - simpl. case_bool_decide; reflexivity.
  - rewrite enumerate_snoc, foldl_app. simpl.
    destruct (decide ((i, length subs) = (i', j))) as [E | Hne].
    + inversion E; subst. rewrite lookup_insert_eq.
      rewrite bool_decide_eq_true_2 by reflexivity.
      rewrite lookup_app_r by lia. rewrite Nat.sub_diag. reflexivity.
    + rewrite lookup_insert_ne by exact Hne. rewrite IH.
      case_bool_decide as Hi; [|reflexivity]. subst i'.
      assert (Hj : j ≠ length subs) by congruence.
      destruct (decide (j < length subs)%nat) as [Hlt | Hge].
      * rewrite lookup_app_l by exact Hlt. reflexivity.
      * rewrite (lookup_ge_None_2 subs j) by lia.
        rewrite (lookup_ge_None_2 (subs ++ [sub]) j); [reflexivity|].
        rewrite length_app. simpl. lia.
Qed.

(** X6: [check_endpoint_compatibility] holds, for every pair of a publisher
    index and a subscriber index in range, the result of checking that
    publisher against that subscriber, and nothing else. *)
Theorem compatibility_matrix_lookup
  (publishers subscribers : list QoSProfile) (i j : nat) :
  check_endpoint_compatibility publishers subscribers !! (i, j)
  = match publishers !! i, subscribers !! j with
    | Some pub, Some sub => Some (check_compatibility pub sub)
    | _, _ => None
    end.
Proof.
  unfold check_endpoint_compatibility.
  induction publishers as [|pub publishers IH] using rev_ind.
  - simpl. rewrite lookup_empty. reflexivity.
  - rewrite enumerate_snoc, foldl_app. simpl.
    rewrite matrix_row_lookup, IH.
    case_bool_decide as Hi.
    + subst i. rewrite lookup_app_r by lia. rewrite Nat.sub_diag. simpl.
      rewrite (lookup_ge_None_2 publishers (length publishers)) by lia.
      destruct (subscribers !! j); reflexivity.
    + destruct (decide (i < length publishers)%nat) as [Hlt | Hge].
      * rewrite lookup_app_l by exact Hlt. reflexivity.
      * rewrite (lookup_ge_None_2 publishers i) by lia.
        rewrite (lookup_ge_None_2 (publishers ++ [pub]) i); [reflexivity|].
        rewrite length_app. simpl. lia.
Qed.

End CompatibilityMatrix.

(** ** The adapter and the per-policy classes against the checker *)

Section AdapterFacts.

Import QoS.

Lemma adapter_reliability pub sub :
  QoSAdapter._check_reliability (reliability pub) (reliability sub)
  = _check_reliability pub sub.
Proof.
  unfold QoSAdapter._check_reliability, _check_reliability.
  destruct (reliability pub), (reliability sub); reflexivity.
Qed.

Lemma adapter_history pub sub :
  QoSAdapter._check_history (history pub) (depth pub) (history sub) (depth sub)
  = _check_history pub sub.
Proof.
  unfold QoSAdapter._check_history, _check_history.
  destruct (history pub), (history sub); reflexivity.
Qed.

Lemma Dur_geb_tolerance a b :
  Dur.leb (Fin 0) b = true -> Dur.geb a b = true ->
  Dur.geb a (Dur.scale b (9 # 10)) = true.
Proof.
  unfold Dur.geb. destruct a as [x|], b as [y|]; simpl; try reflexivity; try discriminate.
  intros Hy Hxy. apply Qle_bool_iff in Hy, Hxy. apply Qle_bool_iff. lra.
Qed.

(** X7: What the adapter accepts, the checker can only reject on the
    dimensions that the adapter does not examine or examines in part:
    if [QoSAdapter.check_compatibility] returns [(True, None)] and the
    requested lifespan is not negative, every violation reported by
    [QoSCompatibilityChecker.check_compatibility] is one of liveliness (its
    lease duration), ownership and partition. *)
Theorem adapter_accepts_checker_violations pub sub v :
  QoSAdapter.check_compatibility pub sub = (true, None) ->
  Dur.leb (Fin 0) (lifespan sub) = true ->
  v ∈ incompatible_policies (check_compatibility pub sub) ->
  v = "liveliness" ∨ v = "ownership" ∨ v = "partition".
Proof.
  unfold QoSAdapter.check_compatibility.
  rewrite adapter_reliability, adapter_history.
  destruct (_check_reliability pub sub) eqn:E1; [|discriminate].
  destruct (QoSAdapter._check_durability _ _) eqn:E2; [|discriminate].
  destruct (QoSAdapter._check_deadline _ _) eqn:E3; [|discriminate].
  destruct (QoSAdapter._check_lifespan _ _) eqn:E4; [|discriminate].
  destruct (QoSAdapter._check_liveliness _ _) eqn:E5; [|discriminate].
  destruct (_check_history pub sub) eqn:E6; [|discriminate].
  intros _ Hl. unfold check_compatibility. cbv zeta. cbn [incompatible_policies].
  rewrite !elem_of_append_unless, elem_of_nil.
  assert (E4' : _check_lifespan pub sub = true)
    by (apply Dur_geb_tolerance; assumption).
  change (QoSAdapter._check_durability (durability pub) (durability sub))
    with (_check_durability pub sub) in E2.
  change (QoSAdapter._check_deadline (deadline pub) (deadline sub))
    with (_check_deadline pub sub) in E3.
  intros H. repeat destruct H as [H | H]; try contradiction;
    destruct H as [Hf ->]; try congruence; auto.
Qed.

Lemma adapter_accepts_checker_violations_sample :
  QoSAdapter.check_compatibility (profile_with_ownership SHARED)
                                 (profile_with_ownership EXCLUSIVE) = (true, None) ∧
  ("ownership" = "liveliness" ∨ "ownership" = "ownership" ∨ "ownership" = "partition").
Proof.
  split; [reflexivity|].
  apply (adapter_accepts_checker_violations (profile_with_ownership SHARED)
           (profile_with_ownership EXCLUSIVE) "ownership");
    [reflexivity | reflexivity |].
  assert (E : incompatible_policies
                (check_compatibility (profile_with_ownership SHARED)
                                     (profile_with_ownership EXCLUSIVE)) = ["ownership"])
    by reflexivity.
  rewrite E. left.
Defined.

(** The converse fails: the checker's 10% tolerance accepts an offered
    lifespan of 95 s against a request of 100 s, which the adapter
    rejects. *)
Lemma checker_accepts_adapter_rejects :
  compatible (check_compatibility (profile_with_lifespan (Fin 95))
                                  (profile_with_lifespan (Fin 100))) = true ∧
  QoSAdapter.check_compatibility (profile_with_lifespan (Fin 95))
                                 (profile_with_lifespan (Fin 100))
  = (false, Some "Incompatible lifespan QoS").
Proof. split; reflexivity. Qed.

End AdapterFacts.

Section PolicyClassFacts.

Import QoS.

Lemma has_star_neq p n : has_star p = false -> has_star n = true -> p ≠ n.
Proof. intros Hp Hn E. subst. congruence. Qed.

(** The two implementations of the partition pattern test, in
    [PartitionQosPolicy] and in [QoSCompatibilityChecker], compute the
    same function. *)
Lemma partition_matches_agree (pattern name : string) :
  PartitionQosPolicy._partition_matches pattern name = _partition_matches pattern name.
Proof.
  unfold PartitionQosPolicy._partition_matches, _partition_matches.
  destruct (has_star pattern) eqn:Hp; cbn [negb andb].
  - destruct (first_part (split_star pattern)) as [|c f] eqn:Ef;
      destruct (last_part (split_star pattern)) as [|d l] eqn:El;
      cbn [nonempty_str andb];
      rewrite ?startswith_empty, ?endswith_empty; reflexivity.
  - destruct (has_star name) eqn:Hn; cbn [negb]; [|reflexivity].
    apply bool_decide_eq_false_2. apply has_star_neq; assumption.
Qed.

Lemma existsb_ext_in {A} (f g : A -> bool) (l : list A) :
  (∀ x, f x = g x) -> existsb f l = existsb g l.
Proof. intros H. induction l as [|x l IH]; simpl; [reflexivity|]. rewrite H, IH. reflexivity. Qed.

(** X8: [PartitionQosPolicy.matches] decides like the checker's partition
    rule when both sides name partitions or neither does; when exactly
    one side names partitions it always answers [False], where the
    checker lets the empty side stand for the empty name. *)
Theorem partition_policy_against_checker pub sub :
  ((partition pub = [] <-> partition sub = []) ->
   PartitionQosPolicy.matches (PartitionQosPolicy.mk (partition pub))
                              (PartitionQosPolicy.mk (partition sub))
   = _check_partition pub sub) ∧
  (¬ (partition pub = [] <-> partition sub = []) ->
   PartitionQosPolicy.matches (PartitionQosPolicy.mk (partition pub))
                              (PartitionQosPolicy.mk (partition sub)) = false).
Proof.
  unfold PartitionQosPolicy.matches, _check_partition. simpl.
  destruct (partition pub) as [|x xs] eqn:Ep, (partition sub) as [|y ys] eqn:Es.
  - split; [reflexivity|]. intros H. exfalso. apply H. split; auto.
  - split; [intros [H _]; specialize (H eq_refl); discriminate|]. reflexivity.
  - split; [intros [_ H]; specialize (H eq_refl); discriminate|].
    intros _. clear Ep. generalize (x :: xs). intros l.
    induction l as [|a l IH]; simpl; [reflexivity | exact IH].
  - split; [|intros H; exfalso; apply H; split; discriminate].
    intros _. rewrite !elements_partition_set. cbn [effective_partitions].
    apply existsb_ext_in. intros a.
    rewrite elements_partition_set. cbn [effective_partitions].
    apply existsb_ext_in. intros b. apply partition_matches_agree.
Qed.

Lemma partition_policy_against_checker_sample :
  PartitionQosPolicy.matches (PartitionQosPolicy.mk [])
                             (PartitionQosPolicy.mk ["sensors"; ""]) = false ∧
  _check_partition (profile_with_partition [])
                   (profile_with_partition ["sensors"; ""]) = true.
Proof.
  split; [|reflexivity].
  apply (proj2 (partition_policy_against_checker (profile_with_partition [])
                  (profile_with_partition ["sensors"; ""]))).
  simpl. intros [H _]. specialize (H eq_refl). discriminate.
Defined.

(** X9: The per-policy classes of [policies.py] against the checker, on the
    fields of two profiles: reliability, durability, deadline, liveliness
    and ownership are decided alike; the lifespan policy has no
    tolerance, so it implies the checker's rule for a request that is not
    negative; the history policy agrees with the checker when both
    history kinds are equal and gives the opposite answer when they
    differ. *)
Theorem policy_classes_against_checker pub sub (b1 b2 : Time) :
  ReliabilityQosPolicy.is_compatible_with
    (ReliabilityQosPolicy.mk (reliability pub) b1)
    (ReliabilityQosPolicy.mk (reliability sub) b2) = _check_reliability pub sub ∧
  DurabilityQosPolicy.is_compatible_with
    (DurabilityQosPolicy.mk (durability pub))
    (DurabilityQosPolicy.mk (durability sub)) = _check_durability pub sub ∧
  DeadlineQosPolicy.is_compatible_with
    (DeadlineQosPolicy.mk (deadline pub))
    (DeadlineQosPolicy.mk (deadline sub)) = _check_deadline pub sub ∧
  LivelinessQosPolicy.is_compatible_with
    (LivelinessQosPolicy.mk (liveliness pub) (liveliness_lease_duration pub))
    (LivelinessQosPolicy.mk (liveliness sub) (liveliness_lease_duration sub))
    = _check_liveliness pub sub ∧
  OwnershipQosPolicy.is_compatible_with
    (OwnershipQosPolicy.mk (ownership pub))
    (OwnershipQosPolicy.mk (ownership sub)) = _check_ownership pub sub ∧
  (Dur.leb (Fin 0) (lifespan sub) = true ->
   LifespanQosPolicy.is_compatible_with
     (LifespanQosPolicy.mk (lifespan pub)) (LifespanQosPolicy.mk (lifespan sub)) = true ->
   _check_lifespan pub sub = true) ∧
  (history pub = history sub ->
   HistoryQosPolicy.is_compatible_with
     (HistoryQosPolicy.mk (history pub) (depth pub))
     (HistoryQosPolicy.mk (history sub) (depth sub)) = _check_history pub sub) ∧
  (history pub ≠ history sub ->
   HistoryQosPolicy.is_compatible_with
     (HistoryQosPolicy.mk (history pub) (depth pub))
     (HistoryQosPolicy.mk (history sub) (depth sub)) = negb (_check_history pub sub)).
Proof.
  split.
  { unfold ReliabilityQosPolicy.is_compatible_with, _check_reliability. simpl.
    destruct (reliability pub), (reliability sub); reflexivity. }
  split.
  { unfold DurabilityQosPolicy.is_compatible_with, _check_durability. simpl.
    destruct (durability pub), (durability sub); reflexivity. }
  split; [reflexivity|].
  split.
  { unfold LivelinessQosPolicy.is_compatible_with, _check_liveliness. simpl.
    destruct (liveliness pub), (liveliness sub); reflexivity. }
  split; [reflexivity|].
  split.
  { intros Hs H. unfold LifespanQosPolicy.is_compatible_with in H. simpl in H.
    apply Dur_geb_tolerance; assumption. }
  split.
  - unfold HistoryQosPolicy.is_compatible_with, _check_history. simpl.
    intros E. rewrite E. destruct (history sub); reflexivity.
  - unfold HistoryQosPolicy.is_compatible_with, _check_history. simpl.
    intros E. destruct (history pub), (history sub); try reflexivity; congruence.
Qed.

Lemma policy_classes_against_checker_sample :
  HistoryQosPolicy.is_compatible_with (HistoryQosPolicy.mk KEEP_ALL 0)
                                      (HistoryQosPolicy.mk KEEP_LAST 10) = false ∧
  _check_history QoSPresetProfiles.keep_all (QoSPresetProfiles.keep_last 10) = true.
Proof.
  split; [|reflexivity].
  exact (proj2 (proj2 (proj2 (proj2 (proj2 (proj2 (proj2
           (policy_classes_against_checker QoSPresetProfiles.keep_all
              (QoSPresetProfiles.keep_last 10) Inf Inf)))))))
           ltac:(discriminate)).
Defined.

End PolicyClassFacts.

(** ** The preset profiles *)

Section PresetFacts.

Import QoS.

(** X10: Every profile that [get_profile_by_name] returns passes the validator
    and is compatible with itself. *)
Theorem named_presets_valid (name : string) (p : QoSProfile) :
  QoSPresetProfiles.get_profile_by_name name = Some p ->
  validate_profile p = true ∧ compatible (check_compatibility p p) = true.
Proof.
  unfold QoSPresetProfiles.get_profile_by_name.
  repeat (case_bool_decide as Hname;
          [intros Hp; inversion Hp; subst; split; reflexivity | clear Hname]).
  intros Hp. discriminate Hp.
Qed.

Lemma named_presets_valid_sample :
  QoSPresetProfiles.get_profile_by_name "tf_static" = Some QoSPresetProfiles.tf_static ∧
  validate_profile QoSPresetProfiles.tf_static = true.
Proof.
  split; [reflexivity|].
  exact (proj1 (named_presets_valid "tf_static" QoSPresetProfiles.tf_static eq_refl)).
Defined.

(** X11: [keep_last(depth)] builds a profile that the validator accepts
    exactly for a depth between 1 and the default [max_samples] of 5000;
    a [keep_last] writer is compatible with a [keep_last] reader exactly
    when its depth is at least the reader's. *)
Theorem keep_last_preset (a b : Z) :
  (validate_profile (QoSPresetProfiles.keep_last a) = true <-> 0 < a <= 5000) ∧
  (compatible (check_compatibility (QoSPresetProfiles.keep_last a)
                                   (QoSPresetProfiles.keep_last b)) = true <-> b <= a).
Proof.
  split.
  - unfold validate_profile. simpl.
    destruct (Z.leb_spec a 0), (Z.ltb_spec 5000 a); simpl; split; intros Hv;
      try discriminate Hv; try reflexivity; lia.
  - rewrite compatible_and. simpl.
    unfold _check_history. simpl.
    destruct (Z.geb_spec a b); split; intros Hv;
      try reflexivity; try discriminate Hv; lia.
Qed.

End PresetFacts.

(** ** Queries of the discovery database *)

Section DatabaseQueries.

Import Discovery DiscoveryQueries.

Lemma db_indexed_add_endpoint db info : db_indexed db -> db_indexed (add_endpoint db info).
Proof.
  intros HI k e H. unfold add_endpoint in *. simpl in *.
  assert (Hcache : ∀ topic guids g,
            topic_cache db !! topic = Some guids -> g ∈ guids ->
            ∃ guids',
              alter (fun s => s ∪ {[EndpointInfo.guid info]}) (EndpointInfo.topic info)
                match topic_cache db !! EndpointInfo.topic info with
                | Some _ => topic_cache db
                | None => <[EndpointInfo.topic info := ∅]> (topic_cache db)
                end !! topic = Some guids' ∧ g ∈ guids').
  { intros topic guids g Ht Hg.
    destruct (decide (topic = EndpointInfo.topic info)) as [-> | Hne].
    - rewrite Ht, lookup_alter_eq, Ht. simpl. eexists. split; [reflexivity|]. set_solver.
    - rewrite lookup_alter_ne by congruence.
      destruct (topic_cache db !! EndpointInfo.topic info);
        [|rewrite lookup_insert_ne by congruence]; eauto. }
  apply lookup_insert_Some in H. destruct H as [[<- <-] | [Hne H]].
  - rewrite lookup_alter_eq.
    destruct (topic_cache db !! EndpointInfo.topic info) as [s|] eqn:E.
    + rewrite E. simpl. eexists. split; [reflexivity|]. set_solver.
    + rewrite lookup_insert_eq. simpl. eexists. split; [reflexivity|]. set_solver.
  - destruct (HI _ _ H) as (guids & Ht & Hg). eapply Hcache; eauto.
Qed.

Lemma db_indexed_remove_endpoint db guid :
  db_indexed db -> db_indexed (remove_endpoint db guid).
Proof.
  intros HI k e H. rewrite remove_endpoint_endpoints in H.
  apply lookup_delete_Some in H. destruct H as [Hne H].
  destruct (HI _ _ H) as (guids & Ht & Hg).
  unfold remove_endpoint.
  destruct (endpoints db !! guid) as [ep|]; [|eauto]. simpl.
  destruct (topic_cache db !! EndpointInfo.topic ep) as [s0|] eqn:E; [|eauto].
  destruct (decide (EndpointInfo.topic e = EndpointInfo.topic ep)) as [Et | Hnt].
  - rewrite Et in *. rewrite E in Ht. inversion Ht; subst s0.
    assert (Hk : k ∈ guids ∖ {[guid]}) by set_solver.
    case_bool_decide as Hs; [set_solver|].
    rewrite lookup_insert_eq. eauto.
  - case_bool_decide.
    + rewrite lookup_delete_ne by congruence. eauto.
    + rewrite lookup_insert_ne by congruence. eauto.
Qed.

Lemma db_indexed_remove_endpoints db guids :
  db_indexed db -> db_indexed (foldl remove_endpoint db guids).
Proof.
  revert db. induction guids as [|g guids IH]; intros db HI; simpl; [exact HI|].
  apply IH, db_indexed_remove_endpoint, HI.
Qed.

Lemma db_indexed_remove_participant db guid :
  db_indexed db -> db_indexed (remove_participant db guid).
Proof. intros HI. unfold remove_participant. apply db_indexed_remove_endpoints. exact HI. Qed.

Lemma db_indexed_cleanup_expired db current_time :
  db_indexed db -> db_indexed (cleanup_expired db current_time).
Proof.
  unfold cleanup_expired. generalize (expired_of (participants db) current_time).
  intros guids. revert db.
  induction guids as [|g guids IH]; intros db HI; simpl; [exact HI|].
  apply IH, db_indexed_remove_participant, HI.
Qed.

Lemma db_indexed_reachable db : reachable db -> db_indexed db.
Proof.
  intros [ops ->]. unfold run.
  assert (H : ∀ db0, db_indexed db0 -> db_indexed (foldl apply_op db0 ops)).
  { induction ops as [|op ops IH]; intros db0 HI; simpl; [exact HI|].
    apply IH. destruct op; simpl.
    - exact HI.
    - apply db_indexed_add_endpoint, HI.
    - apply db_indexed_remove_endpoint, HI.
    - apply db_indexed_remove_participant, HI.
    - apply db_indexed_cleanup_expired, HI. }
  apply H. intros k e Hk. simpl in Hk. rewrite lookup_empty in Hk. discriminate.
Qed.

Lemma reachable_step db op : reachable db -> reachable (apply_op db op).
Proof.
  intros [ops ->]. exists (ops ++ [op]). unfold run. rewrite foldl_app. reflexivity.
Qed.

Lemma elem_of_get_endpoints db topic e :
  e ∈ get_endpoints_for_topic db topic <->
  ∃ guids k, topic_cache db !! topic = Some guids ∧ k ∈ guids ∧
             endpoints db !! k = Some e.
Proof.
  unfold get_endpoints_for_topic.
  destruct (topic_cache db !! topic) as [guids|].
  - rewrite list_elem_of_omap. split.
    + intros (k & Hk & He). apply elem_of_elements in Hk. eauto.
    + intros (guids' & k & Hg & Hk & He). inversion Hg; subst.
      exists k. split; [apply elem_of_elements, Hk | exact He].
  - split; [intros H; apply elem_of_nil in H; contradiction|].
    intros (? & ? & H & _); discriminate.
Qed.

(** X12: In a reachable database, the query by topic returns only endpoints
    that are stored under their guid, and it returns every stored
    endpoint when asked for that endpoint's topic. *)
Theorem topic_query_sound_complete db :
  reachable db ->
  (∀ topic e, e ∈ get_endpoints_for_topic db topic ->
              endpoints db !! EndpointInfo.guid e = Some e) ∧
  (∀ k e, endpoints db !! k = Some e ->
          e ∈ get_endpoints_for_topic db (EndpointInfo.topic e)).
Proof.
  intros Hr. pose proof (db_inv_reachable _ Hr) as (_ & _ & I3).
  pose proof (db_indexed_reachable _ Hr) as HI. split.
  - intros topic e H. apply elem_of_get_endpoints in H.
    destruct H as (guids & k & _ & _ & He). rewrite (I3 _ _ He). exact He.
  - intros k e He. apply elem_of_get_endpoints.
    destruct (HI _ _ He) as (guids & Ht & Hk). eauto.
Qed.

Lemma topic_query_sound_complete_sample :
  reachable sample_db ∧
  EndpointInfo.mk "writer-9" "participant-B" "/map" "OccupancyGrid" "writer"
    QoS.default_profile [] ∈ get_endpoints_for_topic sample_db "/map".
Proof.
  assert (Hr : reachable sample_db) by (eexists; reflexivity).
  split; [exact Hr|].
  apply (proj2 (topic_query_sound_complete sample_db Hr) "writer-9").
  vm_compute. reflexivity.
Defined.

(** The cache is not cleaned when an endpoint is announced again under
    another topic: the query for the old topic then returns an endpoint
    of the new topic. *)
Lemma topic_query_stale :
  get_endpoints_for_topic
    (run [OpAddEndpoint (EndpointInfo.mk "writer-9" "participant-B" "/map"
                           "OccupancyGrid" "writer" QoS.default_profile []);
          OpAddEndpoint (EndpointInfo.mk "writer-9" "participant-B" "/scan"
                           "LaserScan" "writer" QoS.default_profile [])])
    "/map"
  = [EndpointInfo.mk "writer-9" "participant-B" "/scan" "LaserScan" "writer"
       QoS.default_profile []].
Proof. vm_compute. reflexivity. Qed.

(** X13: Writers and readers of a topic: a stored endpoint of kind ['writer']
    is returned by [get_writers_for_topic] for its topic, a stored
    endpoint of kind ['reader'] by [get_readers_for_topic]; what the two
    queries return is stored, has the kind asked for, and no endpoint is
    returned by both. *)
Theorem writers_and_readers_of_topic db :
  reachable db ->
  (∀ k e, endpoints db !! k = Some e -> EndpointInfo.kind e = "writer" ->
          e ∈ get_writers_for_topic db (EndpointInfo.topic e)) ∧
  (∀ k e, endpoints db !! k = Some e -> EndpointInfo.kind e = "reader" ->
          e ∈ get_readers_for_topic db (EndpointInfo.topic e)) ∧
  (∀ topic e, e ∈ get_writers_for_topic db topic ->
              EndpointInfo.kind e = "writer" ∧
              endpoints db !! EndpointInfo.guid e = Some e ∧
              e ∉ get_readers_for_topic db topic) ∧
  (∀ topic e, e ∈ get_readers_for_topic db topic ->
              EndpointInfo.kind e = "reader" ∧
              endpoints db !! EndpointInfo.guid e = Some e).
Proof.
  intros Hr. pose proof (db_inv_reachable _ Hr) as (_ & _ & I3).
  pose proof (db_indexed_reachable _ Hr) as HI.
  assert (Hfound : ∀ k e, endpoints db !! k = Some e ->
            e ∈ get_endpoints_for_topic db (EndpointInfo.topic e)).
  { intros k e He. apply elem_of_get_endpoints.
    destruct (HI _ _ He) as (guids & Ht & Hk). eauto. }
  assert (Hstored : ∀ topic e, e ∈ get_endpoints_for_topic db topic ->
            endpoints db !! EndpointInfo.guid e = Some e).
  { intros topic e H. apply elem_of_get_endpoints in H.
    destruct H as (guids & k & _ & _ & He). rewrite (I3 _ _ He). exact He. }
  unfold get_writers_for_topic, get_readers_for_topic.
  split; [|split; [|split]].
  - intros k e He Hk. apply list_elem_of_In, filter_In.
    split; [apply list_elem_of_In; eauto | apply bool_decide_eq_true, Hk].
  - intros k e He Hk. apply list_elem_of_In, filter_In.
    split; [apply list_elem_of_In; eauto | apply bool_decide_eq_true, Hk].
  - intros topic e H. apply list_elem_of_In, filter_In in H.
    destruct H as [Hin Hk]. apply bool_decide_eq_true in Hk.
    split; [exact Hk|]. split; [apply list_elem_of_In in Hin; eauto|].
    intros H2. apply list_elem_of_In, filter_In in H2. destruct H2 as [_ Hk2].
    apply bool_decide_eq_true in Hk2. rewrite Hk in Hk2. discriminate.
  - intros topic e H. apply list_elem_of_In, filter_In in H.
    destruct H as [Hin Hk]. apply bool_decide_eq_true in Hk.
    split; [exact Hk|]. apply list_elem_of_In in Hin. eauto.
Qed.

Lemma writers_and_readers_of_topic_sample :
  reachable sample_db ∧
  EndpointInfo.mk "reader-4" "participant-C" "/map" "OccupancyGrid" "reader"
    QoS.default_profile [] ∈ get_readers_for_topic sample_db "/map".
Proof.
  assert (Hr : reachable sample_db) by (eexists; reflexivity).
  split; [exact Hr|].
  apply (proj1 (proj2 (writers_and_readers_of_topic sample_db Hr)) "reader-4").
  - vm_compute. reflexivity.
  - reflexivity.
Defined.

End DatabaseQueries.

Section DatabaseUpdates.

Import Discovery DiscoveryQueries.

(** X14: Adding an endpoint and removing it again, in a reachable database:
    an added endpoint is stored under its guid and returned by the query
    for its topic; after [remove_endpoint guid] no query returns an
    endpoint with that guid, and every other endpoint is still returned
    where it was. *)
Theorem add_remove_endpoint_queries db :
  reachable db ->
  (∀ info, endpoints (add_endpoint db info) !! EndpointInfo.guid info = Some info ∧
           info ∈ get_endpoints_for_topic (add_endpoint db info) (EndpointInfo.topic info)) ∧
  (∀ guid topic e, e ∈ get_endpoints_for_topic (remove_endpoint db guid) topic ->
                   EndpointInfo.guid e ≠ guid) ∧
  (∀ guid topic e, e ∈ get_endpoints_for_topic db topic ->
                   EndpointInfo.guid e ≠ guid ->
                   e ∈ get_endpoints_for_topic (remove_endpoint db guid) topic).
Proof.
  intros Hr. split; [|split].
  - intros info.
    assert (Hs : endpoints (add_endpoint db info) !! EndpointInfo.guid info = Some info)
      by apply lookup_insert_eq.
    split; [exact Hs|].
    pose proof (db_indexed_reachable _ (reachable_step db (OpAddEndpoint info) Hr)) as HI.
    apply elem_of_get_endpoints. destruct (HI _ _ Hs) as (guids & Ht & Hk). eauto.
  - intros guid topic e H Hg.
    pose proof (db_inv_reachable _ (reachable_step db (OpRemoveEndpoint guid) Hr))
      as (_ & _ & I3).
    apply elem_of_get_endpoints in H. destruct H as (guids & k & _ & _ & He).
    pose proof (I3 _ _ He) as Hk. rewrite Hg in Hk. subst k.
    simpl in He. rewrite remove_endpoint_endpoints, lookup_delete_eq in He.
    discriminate.
  - intros guid topic e H Hne.
    pose proof (db_inv_reachable _ Hr) as (_ & _ & I3).
    apply elem_of_get_endpoints in H. destruct H as (guids & k & Ht & Hk & He).
    pose proof (I3 _ _ He) as Hg. subst k.
    apply elem_of_get_endpoints.
    assert (He' : endpoints (remove_endpoint db guid) !! EndpointInfo.guid e = Some e).
    { rewrite remove_endpoint_endpoints. rewrite lookup_delete_ne by congruence. exact He. }
    unfold remove_endpoint in *.
    destruct (endpoints db !! guid) as [ep|]; [|eauto]. simpl in *.
    destruct (topic_cache db !! EndpointInfo.topic ep) as [s0|] eqn:E; [|eauto].
    destruct (decide (topic = EndpointInfo.topic ep)) as [-> | Hnt].
    + rewrite E in Ht. inversion Ht; subst s0.
      assert (Hk' : EndpointInfo.guid e ∈ guids ∖ {[guid]}) by set_solver.
      case_bool_decide as Hs; [set_solver|].
      exists (guids ∖ {[guid]}), (EndpointInfo.guid e).
      rewrite lookup_insert_eq. auto.
    + exists guids, (EndpointInfo.guid e). case_bool_decide.
      * rewrite lookup_delete_ne by congruence. auto.
      * rewrite lookup_insert_ne by congruence. auto.
Qed.

Lemma add_remove_endpoint_queries_sample :
  reachable sample_db ∧
  (∀ topic e, e ∈ get_endpoints_for_topic (remove_endpoint sample_db "writer-9") topic ->
              EndpointInfo.guid e ≠ "writer-9").
Proof.
  assert (Hr : reachable sample_db) by (eexists; reflexivity).
  split; [exact Hr|].
  exact (proj1 (proj2 (add_remove_endpoint_queries sample_db Hr)) "writer-9").
Defined.

Lemma same_database db participants' :
  participants' = participants db ->
  {| participants := participants'; endpoints := endpoints db;
     topic_cache := topic_cache db |} = db.
Proof. intros ->. destruct db; reflexivity. Qed.

Lemma endpoints_of_none (eps : gmap string EndpointInfo.t) guid :
  (∀ k info, eps !! k = Some info -> EndpointInfo.participant_guid info ≠ guid) ->
  endpoints_of eps guid = [].
Proof.
  intros H. unfold endpoints_of.
  assert (E : filter (fun kv : string * EndpointInfo.t =>
                        EndpointInfo.participant_guid kv.2 = guid) eps = ∅).
  { apply map_eq. intros k. rewrite lookup_empty.
    apply map_lookup_filter_None. right. intros info Hk. apply (H _ _ Hk). }
  rewrite E, map_to_list_empty. reflexivity.
Qed.

Lemma remove_participant_endpoints db guid k info :
  endpoints (remove_participant db guid) !! k = Some info ->
  EndpointInfo.participant_guid info ≠ guid.
Proof.
  unfold remove_participant. rewrite remove_endpoints_lookup. simpl.
  case_bool_decide as Hin; [discriminate|].
  intros H Hg. apply Hin. apply elem_of_endpoints_of. exists info. auto.
Qed.

(** X15: Removing is idempotent, also for what is not there: a second
    [remove_endpoint] or [remove_participant] with the same guid, or a
    first one with a guid that is not stored and owns no endpoint, leaves
    the database as it is. *)
Theorem removal_idempotent db guid :
  remove_endpoint (remove_endpoint db guid) guid = remove_endpoint db guid ∧
  remove_participant (remove_participant db guid) guid = remove_participant db guid ∧
  (endpoints db !! guid = None -> remove_endpoint db guid = db) ∧
  (participants db !! guid = None ->
   (∀ k info, endpoints db !! k = Some info ->
              EndpointInfo.participant_guid info ≠ guid) ->
   remove_participant db guid = db).
Proof.
  assert (Hnone : ∀ db0, endpoints db0 !! guid = None -> remove_endpoint db0 guid = db0).
  { intros db0 H. unfold remove_endpoint. rewrite H. reflexivity. }
  assert (Hpart : ∀ db0, participants db0 !! guid = None ->
            (∀ k info, endpoints db0 !! k = Some info ->
                       EndpointInfo.participant_guid info ≠ guid) ->
            remove_participant db0 guid = db0).
  { intros db0 Hp He. unfold remove_participant. simpl.
    rewrite (endpoints_of_none _ guid He). simpl.
    apply same_database. apply delete_id. exact Hp. }
  split; [|split; [|split]].
  - apply Hnone. rewrite remove_endpoint_endpoints. apply lookup_delete_eq.
  - apply Hpart.
    + unfold remove_participant. rewrite remove_endpoints_participants. simpl.
      apply lookup_delete_eq.
    + apply remove_participant_endpoints.
  - apply Hnone.
  - apply Hpart.
Qed.

Lemma removal_idempotent_sample :
  endpoints sample_db !! "writer-0" = None ∧
  remove_endpoint sample_db "writer-0" = sample_db.
Proof.
  assert (H : endpoints sample_db !! "writer-0" = None) by (vm_compute; reflexivity).
  split; [exact H|].
  exact (proj1 (proj2 (proj2 (removal_idempotent sample_db "writer-0"))) H).
Defined.

End DatabaseUpdates.

Section DatabaseCleanup.

Import Discovery.

Lemma remove_participant_lookup db guid k :
  participants (remove_participant db guid) !! k
  = if bool_decide (k = guid) then None else participants db !! k.
Proof.
  unfold remove_participant. rewrite remove_endpoints_participants. simpl.
  case_bool_decide as E.
  - subst. apply lookup_delete_eq.
  - apply lookup_delete_ne. congruence.
Qed.

Lemma remove_participant_endpoint_lookup db guid k :
  endpoints (remove_participant db guid) !! k
  = match endpoints db !! k with
    | Some info =>
        if bool_decide (EndpointInfo.participant_guid info = guid) then None
        else Some info
    | None => None
    end.
Proof.
  unfold remove_participant. rewrite remove_endpoints_lookup. simpl.
  destruct (endpoints db !! k) as [info|] eqn:E.
  - case_bool_decide as Hin; case_bool_decide as Hg; try reflexivity.
    + apply elem_of_endpoints_of in Hin. destruct Hin as (info' & H1 & H2).
      congruence.
    + exfalso. apply Hin. apply elem_of_endpoints_of. eauto.
  - case_bool_decide; reflexivity.
Qed.

Lemma remove_participants_lookup db guids k :
  participants (foldl remove_participant db guids) !! k
  = if bool_decide (k ∈ guids) then None else participants db !! k.
Proof.
  revert db. induction guids as [|g guids IH]; intros db; cbn [foldl].
  - case_bool_decide as H; [apply elem_of_nil in H; contradiction | reflexivity].
  - rewrite IH, remove_participant_lookup.
    repeat case_bool_decide; try reflexivity; exfalso;
      rewrite elem_of_cons in *; intuition congruence.
Qed.

Lemma remove_participants_endpoint_lookup db guids k :
  endpoints (foldl remove_participant db guids) !! k
  = match endpoints db !! k with
    | Some info =>
        if bool_decide (EndpointInfo.participant_guid info ∈ guids) then None
        else Some info
    | None => None
    end.
Proof.
  revert db. induction guids as [|g guids IH]; intros db; cbn [foldl].
  - destruct (endpoints db !! k); [|reflexivity].
    case_bool_decide as H; [apply elem_of_nil in H; contradiction | reflexivity].
  - rewrite IH, remove_participant_endpoint_lookup.
    destruct (endpoints db !! k) as [info|]; [|reflexivity].
    repeat case_bool_decide; try reflexivity; exfalso;
      rewrite elem_of_cons in *; intuition congruence.
Qed.

Lemma elem_of_expired_of_db ps now g :
  g ∈ expired_of ps now <-> lease_expired ps now g = true.
Proof.
  unfold expired_of, lease_expired. rewrite list_elem_of_fmap. split.
  - intros ([k info] & -> & H). apply elem_of_map_to_list in H.
    apply map_lookup_filter_Some in H. destruct H as [H1 H2].
    simpl in *. rewrite H1. exact H2.
  - destruct (ps !! g) as [info|] eqn:E; [|discriminate].
    intros H. exists (g, info). split; [reflexivity|].
    apply elem_of_map_to_list, map_lookup_filter_Some. auto.
Qed.

(** X16: What [cleanup_expired] leaves: exactly the participants whose lease
    has not expired at the given time, and exactly the endpoints whose
    [participant_guid] does not name a participant with an expired
    lease. Endpoints of participants that are not registered stay. *)
Theorem cleanup_expired_keeps db current_time k :
  participants (cleanup_expired db current_time) !! k
  = (if lease_expired (participants db) current_time k then None
     else participants db !! k) ∧
  endpoints (cleanup_expired db current_time) !! k
  = match endpoints db !! k with
    | Some info =>
        if lease_expired (participants db) current_time
             (EndpointInfo.participant_guid info)
        then None else Some info
    | None => None
    end.
Proof.
  unfold cleanup_expired.
  rewrite remove_participants_lookup, remove_participants_endpoint_lookup.
  split.
  - case_bool_decide as H.
    + apply elem_of_expired_of_db in H. rewrite H. reflexivity.
    + destruct (lease_expired (participants db) current_time k) eqn:E; [|reflexivity].
      exfalso. apply H, elem_of_expired_of_db, E.
  - destruct (endpoints db !! k) as [info|]; [|reflexivity].
    case_bool_decide as H.
    + apply elem_of_expired_of_db in H. rewrite H. reflexivity.
    + destruct (lease_expired (participants db) current_time
                  (EndpointInfo.participant_guid info)) eqn:E; [|reflexivity].
      exfalso. apply H, elem_of_expired_of_db, E.
Qed.

End DatabaseCleanup.

(** ** The participant as a model: delays and phases *)

Section ParticipantPhases.

Import QoS Participant.

(** X18: Whatever the state and the clock reading, [timeAdvance] returns a
    strictly positive delay or infinity: never zero, never a negative
    delay, also when the clock reading lies before the recorded times. *)
Theorem timeAdvance_positive self now st :
  positive_delay (timeAdvance self now st).1.
Proof.
  unfold timeAdvance, positive_delay.
  destruct (bool_decide (phase st = "initializing")); [reflexivity|].
  destruct (bool_decide (phase st = "active")).
  - destruct (Qle_bool (discovery_period self) (now - last_discovery_time st)) eqn:Ed;
      [reflexivity|].
    destruct (Qle_bool (heartbeat_period self) (now - last_heartbeat_time st)) eqn:Eh;
      [reflexivity|].
    destruct (pending_messages st); [|reflexivity].
    apply Qle_bool_false in Ed, Eh. simpl. unfold Dur.min, Dur.ltb.
    destruct (negb _); simpl; lra.
  - destruct (_ || _); simpl; [reflexivity | exact I].
Qed.

Lemma phase_process_endpoints st eps :
  phase (foldl process_endpoint st eps) = phase st.
Proof.
  revert st. induction eps as [|ep eps IH]; intros st; simpl; [reflexivity|].
  rewrite IH. unfold process_endpoint.
  destruct (_check_endpoint_matching_frame
              (set_discovered_endpoints
                 (<[EndpointInfo.guid ep := ep]> (discovered_endpoints st)) st) ep)
    as [m Hm].
  rewrite Hm. reflexivity.
Qed.

Lemma phase_process_discovery self st msg now :
  phase (_process_discovery_message self st msg now) = phase st.
Proof.
  unfold _process_discovery_message. case_bool_decide; [reflexivity|].
  rewrite phase_process_endpoints. reflexivity.
Qed.

Lemma phase_remove_endpoints st ks :
  phase (foldl remove_discovered_endpoint st ks) = phase st.
Proof.
  revert st. induction ks as [|k ks IH]; intros st; simpl; [reflexivity|].
  rewrite IH. reflexivity.
Qed.

Lemma phase_cleanup st now : phase (cleanup_expired_participants st now) = phase st.
Proof.
  unfold cleanup_expired_participants. generalize (expired_of st now). intros gs.
  revert st. induction gs as [|g gs IH]; intros st; simpl; [reflexivity|].
  rewrite IH. unfold remove_expired. rewrite phase_remove_endpoints. reflexivity.
Qed.

Lemma phase_write_data st guid data now b st' :
  write_data st guid data now = Some (b, st') -> phase st' = phase st.
Proof.
  unfold write_data. destruct (find_writer st guid); [|intros H; inversion H; reflexivity].
  destruct (sequence_numbers st !! guid); [|discriminate]. simpl.
  case_bool_decide; intros Hw; inversion Hw; reflexivity.
Qed.

Lemma known_phase_apply_event self st ev st' :
  apply_event self st ev = Some st' -> known_phase (phase st) -> known_phase (phase st').
Proof.
  unfold known_phase. destruct ev; simpl; intros H HI.
  - inversion H; subst. unfold timeAdvance.
    repeat case_match; simpl; auto 6.
  - inversion H; subst. unfold outputFnc. repeat case_match; simpl; auto.
  - inversion H; subst. unfold intTransition. repeat case_match; simpl; auto 6.
  - unfold extTransition in H.
    assert (H1 : phase match on_discovery_in inputs with
                       | Some m => _process_discovery_message self st m now
                       | None => st
                       end = phase st).
    { destruct (on_discovery_in inputs); [apply phase_process_discovery | reflexivity]. }
    destruct (on_rmw_command_in inputs) as [[g t tn q | g t tn q cb | h d |]|];
      simpl in H.
    + inversion H; subst. simpl. auto 6.
    + inversion H; subst. simpl. auto 6.
    + destruct (write_data _ h d now) as [[b st'']|] eqn:E; [|discriminate].
      inversion H; subst. rewrite (phase_write_data _ _ _ _ _ _ E), H1. exact HI.
    + inversion H; subst. rewrite H1. exact HI.
    + inversion H; subst. rewrite H1. exact HI.
  - inversion H; subst. simpl. auto 6.
  - inversion H; subst. simpl. auto 6.
  - destruct (write_data st writer_guid data now) as [[b st'']|] eqn:E; [|discriminate].
    inversion H; subst. rewrite (phase_write_data _ _ _ _ _ _ E). exact HI.
  - inversion H; subst. rewrite phase_cleanup. exact HI.
Qed.

Lemma known_phase_reachable self st : reachable self st -> known_phase (phase st).
Proof.
  intros [evs H].
  assert (G : ∀ st0, run_from self st0 evs = Some st ->
                     known_phase (phase st0) -> known_phase (phase st)).
  { clear H. induction evs as [|ev evs IH]; intros st0; simpl.
    - intros H HI. inversion H; subst. exact HI.
    - destruct (apply_event self st0 ev) as [st1|] eqn:E; [|discriminate].
      intros H HI. apply (IH st1 H). eapply known_phase_apply_event; eauto. }
  apply (G _ H). left. reflexivity.
Qed.

(** X19: A reachable participant is always in one of its five phases; it never
    becomes passive, its [timeAdvance] being finite for every clock
    reading; and every internal transition brings it to phase
    ['active']. *)
Theorem participant_never_passive self st :
  reachable self st ->
  known_phase (phase st) ∧
  (∀ now, (timeAdvance self now st).1 ≠ Inf) ∧
  (∀ now, phase (intTransition st now) = "active").
Proof.
  intros Hr. pose proof (known_phase_reachable _ _ Hr) as Hk.
  split; [exact Hk|]. split; intros now.
  - unfold timeAdvance.
    destruct Hk as [E | [E | [E | [E | E]]]]; rewrite E; simpl; try discriminate.
    unfold Dur.min, Dur.ltb. repeat case_match; simpl; discriminate.
  - unfold intTransition.
    destruct Hk as [E | [E | [E | [E | E]]]]; rewrite E; simpl; try reflexivity.
    exact E.
Qed.

Lemma participant_never_passive_sample :
  reachable participant_A active_state ∧
  (timeAdvance participant_A 0 active_state).1 ≠ Inf.
Proof.
  assert (Hr : reachable participant_A active_state)
    by (exists [EvInternal 0]; reflexivity).
  split; [exact Hr|].
  exact (proj1 (proj2 (participant_never_passive participant_A active_state Hr)) 0%Q).
Defined.

End ParticipantPhases.

(** ** Announcements, unknown writers and data delivery *)

Section ParticipantMessages.

Import QoS Participant.

Lemma elem_of_concat {A} (x : A) (ls : list (list A)) :
  x ∈ concat ls <-> ∃ l, x ∈ l ∧ l ∈ ls.
Proof.
  rewrite list_elem_of_In, in_concat. split.
  - intros (l & Hl & Hx). exists l. split; apply list_elem_of_In; assumption.
  - intros (l & Hx & Hl). exists l. split; apply list_elem_of_In; assumption.
Qed.

Lemma elem_of_all_writers st w :
  w ∈ _get_all_writers st <-> ∃ topic, w ∈ writers_on st topic.
Proof.
  unfold _get_all_writers, writers_on. rewrite elem_of_concat. split.
  - intros (ws & Hw & Hin). apply elem_of_map_values in Hin.
    destruct Hin as [topic Ht]. exists topic. rewrite Ht. exact Hw.
  - intros [topic H].
    destruct (local_writers st !! topic) as [ws|] eqn:E; simpl in H;
      [|apply elem_of_nil in H; contradiction].
    exists ws. split; [exact H|]. apply elem_of_map_values. eauto.
Qed.

Lemma elem_of_all_readers st r :
  r ∈ _get_all_readers st <-> ∃ topic, r ∈ readers_on st topic.
Proof.
  unfold _get_all_readers, readers_on. rewrite elem_of_concat. split.
  - intros (rs & Hr & Hin). apply elem_of_map_values in Hin.
    destruct Hin as [topic Ht]. exists topic. rewrite Ht. exact Hr.
  - intros [topic H].
    destruct (local_readers st !! topic) as [rs|] eqn:E; simpl in H;
      [|apply elem_of_nil in H; contradiction].
    exists rs. split; [exact H|]. apply elem_of_map_values. eauto.
Qed.

(** X20: The discovery message of a participant carries its guid, domain and
    lease duration and announces its local endpoints, all of them and
    nothing else: one descriptor of kind ['writer'] per local writer and
    one of kind ['reader'] per local reader, with the guid, topic, type
    name, QoS profile and partition of the endpoint. *)
Theorem discovery_message_announces_local self st :
  let msg := _create_discovery_message self st in
  DiscoveryMessage.participant_guid msg = participant_guid self ∧
  DiscoveryMessage.domain_id msg = domain_id self ∧
  DiscoveryMessage.lease_duration msg = lease_duration self ∧
  (∀ ep, ep ∈ DiscoveryMessage.endpoints msg <->
     (∃ topic w, w ∈ writers_on st topic ∧
        ep = EndpointInfo.mk (DataWriter.guid w) "" (DataWriter.topic_name w)
               (DataWriter.type_name w) "writer" (DataWriter.qos w)
               (DataWriter.partition w)) ∨
     (∃ topic r, r ∈ readers_on st topic ∧
        ep = EndpointInfo.mk (DataReader.guid r) "" (DataReader.topic_name r)
               (DataReader.type_name r) "reader" (DataReader.qos r)
               (DataReader.partition r))) ∧
  length (DiscoveryMessage.endpoints msg)
  = (length (_get_all_writers st) + length (_get_all_readers st))%nat.
Proof.
  simpl. split; [reflexivity|]. split; [reflexivity|]. split; [reflexivity|]. split.
  - intros ep. rewrite elem_of_app, !list_elem_of_fmap. split.
    + intros [(w & -> & Hw) | (r & -> & Hr)].
      * left. apply elem_of_all_writers in Hw. destruct Hw as [topic Hw].
        exists topic, w. split; [exact Hw | reflexivity].
      * right. apply elem_of_all_readers in Hr. destruct Hr as [topic Hr].
        exists topic, r. split; [exact Hr | reflexivity].
    + intros [(topic & w & Hw & ->) | (topic & r & Hr & ->)].
      * left. exists w. split; [reflexivity|]. apply elem_of_all_writers. eauto.
      * right. exists r. split; [reflexivity|]. apply elem_of_all_readers. eauto.
  - rewrite length_app, !length_map. reflexivity.
Qed.

Lemma find_writer_None st guid :
  (∀ topic w, w ∈ writers_on st topic -> DataWriter.guid w ≠ guid) ->
  find_writer st guid = None.
Proof.
  intros H. destruct (find_writer st guid) as [w|] eqn:E; [|reflexivity].
  apply find_writer_Some in E. destruct E as (topic & Hin & Hg).
  exfalso. exact (H _ _ Hin Hg).
Qed.

(** X21: A write through a guid that names no local writer, be it the guid of
    a local reader or of a remote endpoint and whether or not the Match
    Table has an entry for it, is refused: the call returns [False] and
    the state, with its counters and its queue, is unchanged. *)
Theorem write_data_unknown_writer st guid data now :
  (∀ topic w, w ∈ writers_on st topic -> DataWriter.guid w ≠ guid) ->
  write_data st guid data now = Some (false, st).
Proof.
  intros H. unfold write_data. rewrite (find_writer_None st guid H). reflexivity.
Qed.

Lemma write_data_unknown_writer_sample :
  write_data state_after_discovery "reader-1" "hello" 5
  = Some (false, state_after_discovery).
Proof.
  apply write_data_unknown_writer. intros topic w Hw.
  unfold writers_on in Hw.
  assert (E : local_writers state_after_discovery = ∅) by (vm_compute; reflexivity).
  rewrite E, lookup_empty in Hw. simpl in Hw. apply elem_of_nil in Hw. contradiction.
Defined.

(** X22: Delivery of a received data message: a callback is called, with the
    data of the message, exactly for the local readers that have a
    callback and whose matched set holds the writer of the message. In
    particular a remote writer that has just been matched with a local
    reader is delivered to that reader, and the data of a writer that is
    in no matched set is dropped. *)
Theorem data_delivery st msg :
  (∀ cb d, (cb, d) ∈ _process_data_message st msg <->
     d = DataMsg.data msg ∧
     ∃ topic r, r ∈ readers_on st topic ∧ DataReader.callback r = Some cb ∧
                DataMsg.writer_guid msg ∈ matched_of st (DataReader.guid r)) ∧
  (∀ ep r cb,
     EndpointInfo.kind ep = "writer" ->
     r ∈ readers_on st (EndpointInfo.topic ep) ->
     _qos_match (EndpointInfo.qos ep) (DataReader.qos r) = true ->
     DataReader.callback r = Some cb ->
     DataMsg.writer_guid msg = EndpointInfo.guid ep ->
     (cb, DataMsg.data msg) ∈ _process_data_message (process_endpoint st ep) msg) ∧
  ((∀ l, DataMsg.writer_guid msg ∉ matched_of st l) ->
   _process_data_message st msg = []).
Proof.
  assert (Hchar : ∀ st0 cb d, (cb, d) ∈ _process_data_message st0 msg <->
     d = DataMsg.data msg ∧
     ∃ topic r, r ∈ readers_on st0 topic ∧ DataReader.callback r = Some cb ∧
                DataMsg.writer_guid msg ∈ matched_of st0 (DataReader.guid r)).
  { intros st0 cb d. unfold _process_data_message. rewrite list_elem_of_omap. split.
    - intros (r & Hr & H). apply elem_of_all_readers in Hr. destruct Hr as [topic Hr].
      unfold matched_of.
      destruct (matched_endpoints st0 !! DataReader.guid r) as [m|] eqn:Em;
        [|discriminate].
      case_bool_decide as Hm; [|discriminate].
      destruct (DataReader.callback r) as [cb'|] eqn:Ecb; [|discriminate].
      simpl in H. inversion H; subst. split; [reflexivity|].
      exists topic, r. split; [exact Hr|]. split; [exact Ecb|].
      rewrite Em. exact Hm.
    - intros (-> & topic & r & Hr & Hcb & Hm). exists r.
      split; [apply elem_of_all_readers; eauto|].
      unfold matched_of in Hm.
      destruct (matched_endpoints st0 !! DataReader.guid r) as [m|]; simpl in Hm;
        [|apply elem_of_empty in Hm; contradiction].
      rewrite bool_decide_eq_true_2 by exact Hm. rewrite Hcb. reflexivity. }
  split; [apply Hchar|]. split.
  - intros ep r cb Hk Hr Hq Hcb Hg. apply Hchar. split; [reflexivity|].
    unfold process_endpoint.
    set (st1 := set_discovered_endpoints
                  (<[EndpointInfo.guid ep := ep]> (discovered_endpoints st)) st).
    destruct (_check_endpoint_matching_frame st1 ep) as [m Hm].
    exists (EndpointInfo.topic ep), r. split; [rewrite Hm; exact Hr|].
    split; [exact Hcb|]. rewrite Hg.
    apply match_inserts_remote_for_reader; assumption.
  - intros Hno. destruct (_process_data_message st msg) as [|[cb d] l] eqn:E;
      [reflexivity|].
    exfalso. assert (Hin : (cb, d) ∈ _process_data_message st msg)
      by (rewrite E; left).
    apply Hchar in Hin. destruct Hin as (_ & topic & r & _ & _ & Hm).
    exact (Hno _ Hm).
Qed.

Lemma data_delivery_sample :
  _process_data_message state_after_discovery
    (DataMsg.mk "writer-0" 0 "/map" "grid" 1) = [].
Proof.
  apply (proj2 (proj2 (data_delivery state_after_discovery
                         (DataMsg.mk "writer-0" 0 "/map" "grid" 1)))).
  intros l Hm.
  pose proof (reachable_inv _ _ state_after_discovery_reachable) as (_ & _ & I3).
  apply I3 in Hm. apply elem_of_dom in Hm. destruct Hm as [e He].
  vm_compute in He. discriminate He.
Defined.

End ParticipantMessages.

(** ** Reception of announcements *)

Section Reception.

Import QoS Participant.

Lemma match_loop_filter {A} (guid_of : A -> string) (ok : A -> bool) remote xs st :
  foldl (match_body guid_of ok remote) st xs
  = set_matched_endpoints
      (foldl add_pair (matched_endpoints st)
             ((fun l => (l, remote)) <$> (guid_of <$> List.filter ok xs))) st.
Proof.
  revert st. induction xs as [|x xs IH]; intros st; simpl.
  - symmetry. apply set_matched_endpoints_same.
  - rewrite IH. unfold match_body. destruct (ok x); reflexivity.
Qed.

Lemma _check_endpoint_matching_pairs st ep :
  _check_endpoint_matching st ep
  = set_matched_endpoints
      (foldl add_pair (matched_endpoints st)
             ((fun l => (l, EndpointInfo.guid ep)) <$>
                match_targets (local_readers st) (local_writers st) ep)) st.
Proof.
  unfold _check_endpoint_matching, match_targets.
  destruct (bool_decide (EndpointInfo.kind ep = "writer")).
  - destruct (local_readers st !! EndpointInfo.topic ep) as [readers|]; simpl.
    + apply (match_loop_filter DataReader.guid
               (fun reader => _qos_match (EndpointInfo.qos ep) (DataReader.qos reader))).
    + symmetry. apply set_matched_endpoints_same.
  - destruct (bool_decide (EndpointInfo.kind ep = "reader")).
    + destruct (local_writers st !! EndpointInfo.topic ep) as [writers|]; simpl.
      * apply (match_loop_filter DataWriter.guid
                 (fun writer => _qos_match (DataWriter.qos writer) (EndpointInfo.qos ep))).
      * symmetry. apply set_matched_endpoints_same.
    + symmetry. apply set_matched_endpoints_same.
Qed.

(** Processing a list of announced endpoints stores them, the last one
    winning for a repeated guid, and enters their pairs; nothing else of
    the state changes. *)
Lemma process_endpoints_decompose st eps :
  foldl process_endpoint st eps
  = set_matched_endpoints
      (foldl add_pair (matched_endpoints st)
             (match_pairs (local_readers st) (local_writers st) eps))
      (set_discovered_endpoints (foldl store_endpoint (discovered_endpoints st) eps) st).
Proof.
  revert st. induction eps as [|ep eps IH]; intros st; simpl.
  - destruct st; reflexivity.
  - rewrite IH. unfold process_endpoint. rewrite _check_endpoint_matching_pairs.
    simpl. rewrite foldl_app. reflexivity.
Qed.

Lemma lookup_add_match m l r k :
  add_match m l r !! k
  = if bool_decide (k = l) then Some (default ∅ (m !! l) ∪ {[r]}) else m !! k.
Proof.
  unfold add_match. case_bool_decide as E.
  - subst. apply lookup_insert_eq.
  - apply lookup_insert_ne. congruence.
Qed.

Lemma add_pair_comm m p q : add_pair (add_pair m p) q = add_pair (add_pair m q) p.
Proof.
  destruct p as [l r], q as [l' r']. unfold add_pair. simpl.
  apply map_eq. intros k. rewrite !lookup_add_match.
  repeat case_bool_decide; subst; simpl; try reflexivity; try congruence;
    f_equal; set_solver.
Qed.

Lemma add_pair_idem m p : add_pair (add_pair m p) p = add_pair m p.
Proof.
  destruct p as [l r]. unfold add_pair. simpl.
  apply map_eq. intros k. rewrite !lookup_add_match.
  repeat case_bool_decide; subst; simpl; try reflexivity; try congruence;
    f_equal; set_solver.
Qed.

Lemma add_pairs_move m p ps :
  foldl add_pair (add_pair m p) ps = add_pair (foldl add_pair m ps) p.
Proof.
  revert m. induction ps as [|q ps IH]; intros m; simpl; [reflexivity|].
  rewrite <- IH. f_equal. apply add_pair_comm.
Qed.

Lemma add_pairs_twice m ps :
  foldl add_pair (foldl add_pair m ps) ps = foldl add_pair m ps.
Proof.
  revert m. induction ps as [|p ps IH]; intros m; simpl; [reflexivity|].
  rewrite !add_pairs_move, IH, add_pair_idem. reflexivity.
Qed.

Lemma lookup_store_endpoints d eps k :
  foldl store_endpoint d eps !! k = foldl (last_announced k) (d !! k) eps.
Proof.
  revert d. induction eps as [|ep eps IH]; intros d; simpl; [reflexivity|].
  rewrite IH. f_equal. unfold store_endpoint, last_announced.
  case_bool_decide as E.
  - subst. apply lookup_insert_eq.
  - apply lookup_insert_ne. exact E.
Qed.

Lemma last_announced_default k acc eps :
  foldl (last_announced k) acc eps
  = match foldl (last_announced k) None eps with
    | Some ep => Some ep
    | None => acc
    end.
Proof.
  revert acc. induction eps as [|ep eps IH]; intros acc; simpl; [reflexivity|].
  rewrite IH. rewrite (IH (last_announced k None ep)).
  destruct (foldl (last_announced k) None eps); [reflexivity|].
  unfold last_announced. case_bool_decide; reflexivity.
Qed.

Lemma store_endpoints_twice d eps :
  foldl store_endpoint (foldl store_endpoint d eps) eps = foldl store_endpoint d eps.
Proof.
  apply map_eq. intros k. rewrite !lookup_store_endpoints.
  rewrite (last_announced_default k (foldl _ _ _)).
  rewrite (last_announced_default k (d !! k)).
  destruct (foldl (last_announced k) None eps); reflexivity.
Qed.

Lemma last_announced_elem k eps ep :
  foldl (last_announced k) None eps = Some ep -> ep ∈ eps ∧ EndpointInfo.guid ep = k.
Proof.
  induction eps as [|e eps IH] using rev_ind; simpl; [discriminate|].
  rewrite foldl_app. simpl. unfold last_announced at 1.
  case_bool_decide as E.
  - intros H. inversion H; subst. split; [|reflexivity].
    apply elem_of_app. right. left.
  - intros H. destruct (IH H) as [Hin Hg]. split; [|exact Hg].
    apply elem_of_app. left. exact Hin.
Qed.

Lemma last_announced_is_Some k eps ep :
  ep ∈ eps -> EndpointInfo.guid ep = k ->
  is_Some (foldl (last_announced k) None eps).
Proof.
  intros Hin Hg. induction eps as [|e eps IH] using rev_ind;
    [apply elem_of_nil in Hin; contradiction|].
  rewrite foldl_app. simpl. unfold last_announced at 1.
  case_bool_decide as E; [eexists; reflexivity|].
  apply IH. apply elem_of_app in Hin. destruct Hin as [Hin | Hin]; [exact Hin|].
  apply list_elem_of_singleton in Hin. subst. contradiction.
Qed.

(** X23: Reception of a discovery message from another participant registers
    the sender with a lease that ends [lease_duration] after the time of
    reception, stores every announced endpoint under its guid (for a
    guid announced several times, one of the descriptors announced for
    it), keeps the other participants and the matches already made,
    and leaves the local endpoints, the counters, the queue and the phase
    alone. A message that carries the participant's own guid changes
    nothing. *)
Theorem discovery_reception self st msg now :
  let st' := _process_discovery_message self st msg now in
  (DiscoveryMessage.participant_guid msg = participant_guid self -> st' = st) ∧
  (DiscoveryMessage.participant_guid msg ≠ participant_guid self ->
   discovered_participants st' !! DiscoveryMessage.participant_guid msg
   = Some (ParticipantInfo.mk (DiscoveryMessage.participant_guid msg)
             (DiscoveryMessage.domain_id msg)
             (Dur.add (Fin now) (DiscoveryMessage.lease_duration msg)) "ROS2_DEVS") ∧
   (∀ k, k ≠ DiscoveryMessage.participant_guid msg ->
         discovered_participants st' !! k = discovered_participants st !! k) ∧
   (∀ ep, ep ∈ DiscoveryMessage.endpoints msg ->
          ∃ ep', discovered_endpoints st' !! EndpointInfo.guid ep = Some ep' ∧
                 ep' ∈ DiscoveryMessage.endpoints msg ∧
                 EndpointInfo.guid ep' = EndpointInfo.guid ep) ∧
   (∀ l g, g ∈ matched_of st l -> g ∈ matched_of st' l)) ∧
  local_writers st' = local_writers st ∧
  local_readers st' = local_readers st ∧
  sequence_numbers st' = sequence_numbers st ∧
  pending_messages st' = pending_messages st ∧
  phase st' = phase st.
Proof.
  cbv zeta. unfold _process_discovery_message.
  case_bool_decide as Hown.
  { split; [reflexivity|]. split; [contradiction|]. repeat split. }
  rewrite process_endpoints_decompose. cbn.
  split; [contradiction|]. split; [|repeat split].
  intros _. split; [apply lookup_insert_eq|]. split.
  { intros k Hk. apply lookup_insert_ne. congruence. }
  split.
  - intros ep Hin. rewrite lookup_store_endpoints, last_announced_default.
    destruct (last_announced_is_Some _ _ _ Hin eq_refl) as [ep' He]. rewrite He.
    apply last_announced_elem in He. destruct He as [Hin' Hg]. eauto.
  - intros l g Hg. unfold matched_of in *. cbn.
    generalize (match_pairs (local_readers st) (local_writers st)
                  (DiscoveryMessage.endpoints msg)).
    intros ps. revert Hg. generalize (matched_endpoints st). intros m. revert m.
    induction ps as [|[l' r'] ps IH]; intros m Hg; simpl; [exact Hg|].
    apply IH. unfold add_pair. simpl. apply matched_add_match. left. exact Hg.
Qed.

Lemma discovery_reception_sample :
  DiscoveryMessage.participant_guid discovery_from_B ≠ participant_guid participant_A ∧
  discovered_participants state_after_discovery !! "participant-B"
  = Some (ParticipantInfo.mk "participant-B" 0 (Dur.add (Fin 0) (Fin 10)) "ROS2_DEVS").
Proof.
  assert (H : DiscoveryMessage.participant_guid discovery_from_B
              ≠ participant_guid participant_A) by (simpl; discriminate).
  split; [exact H|].
  exact (proj1 (proj1 (proj2 (discovery_reception participant_A state_with_reader
                                discovery_from_B 0)) H)).
Defined.

(** X24: Announcing again is a no-op but for the lease: receiving the same
    discovery message a second time, at a later moment, gives the state
    that receiving it once at that later moment gives. The stored
    endpoints and the Match Table are not changed by the repetition. *)
Theorem discovery_reannounce self st msg now now' :
  _process_discovery_message self (_process_discovery_message self st msg now) msg now'
  = _process_discovery_message self st msg now'.
Proof.
  unfold _process_discovery_message.
  case_bool_decide as Hown; [reflexivity|].
  rewrite !process_endpoints_decompose. cbn.
  rewrite insert_insert_eq, add_pairs_twice, store_endpoints_twice. reflexivity.
Qed.

End Reception.

(** ** What the lease sweep keeps *)

Section SweepKeeps.

Import QoS Participant.

Lemma discard_endpoints_matched st ks l g :
  g ∈ matched_of (foldl remove_discovered_endpoint st ks) l <->
  g ∈ matched_of st l ∧ g ∉ ks.
Proof.
  revert st. induction ks as [|k ks IH]; intros st; cbn [foldl].
  - split; [intros H; split; [exact H | apply not_elem_of_nil] | intros [H _]; exact H].
  - rewrite IH, matched_of_discard, not_elem_of_cons. tauto.
Qed.

Lemma discard_endpoints_dom st ks :
  dom (matched_endpoints (foldl remove_discovered_endpoint st ks))
  = dom (matched_endpoints st).
Proof.
  revert st. induction ks as [|k ks IH]; intros st; cbn [foldl]; [reflexivity|].
  rewrite IH. unfold remove_discovered_endpoint. simpl. apply dom_fmap_L.
Qed.

Lemma remove_expired_endpoint_lookup st g k :
  discovered_endpoints (remove_expired st g) !! k
  = match discovered_endpoints st !! k with
    | Some e => if bool_decide (EndpointInfo.participant_guid e = g) then None else Some e
    | None => None
    end.
Proof.
  rewrite remove_expired_lookup.
  destruct (discovered_endpoints st !! k) as [e|] eqn:E.
  - case_bool_decide as Hin; case_bool_decide as Hg; try reflexivity.
    + apply elem_of_endpoints_of_state in Hin. destruct Hin as (e' & H1 & H2). congruence.
    + exfalso. apply Hin, elem_of_endpoints_of_state. eauto.
  - case_bool_decide; reflexivity.
Qed.

Lemma remove_expired_matched st g l x :
  x ∈ matched_of (remove_expired st g) l <->
  x ∈ matched_of st l ∧
  ¬ ∃ e, discovered_endpoints st !! x = Some e ∧ EndpointInfo.participant_guid e = g.
Proof.
  unfold remove_expired. rewrite discard_endpoints_matched.
  rewrite elem_of_endpoints_of_state. reflexivity.
Qed.

Lemma sweep_participant_lookup st gs k :
  discovered_participants (foldl remove_expired st gs) !! k
  = if bool_decide (k ∈ gs) then None else discovered_participants st !! k.
Proof.
  revert st. induction gs as [|g gs IH]; intros st; cbn [foldl].
  - case_bool_decide as H; [apply elem_of_nil in H; contradiction | reflexivity].
  - rewrite IH, remove_expired_participants.
    destruct (decide (k = g)) as [-> | Hne].
    + rewrite lookup_delete_eq.
      repeat case_bool_decide; try reflexivity; exfalso;
        rewrite elem_of_cons in *; intuition congruence.
    + rewrite lookup_delete_ne by congruence.
      repeat case_bool_decide; try reflexivity; exfalso;
        rewrite elem_of_cons in *; intuition congruence.
Qed.

Lemma sweep_endpoint_lookup st gs k :
  discovered_endpoints (foldl remove_expired st gs) !! k
  = match discovered_endpoints st !! k with
    | Some e => if bool_decide (EndpointInfo.participant_guid e ∈ gs) then None else Some e
    | None => None
    end.
Proof.
  revert st. induction gs as [|g gs IH]; intros st; cbn [foldl].
  - destruct (discovered_endpoints st !! k); [|reflexivity].
    case_bool_decide as H; [apply elem_of_nil in H; contradiction | reflexivity].
  - rewrite IH, remove_expired_endpoint_lookup.
    destruct (discovered_endpoints st !! k) as [e|]; [|reflexivity].
    repeat case_bool_decide; try reflexivity; exfalso;
      rewrite elem_of_cons in *; intuition congruence.
Qed.

Lemma sweep_matched st gs l x :
  x ∈ matched_of (foldl remove_expired st gs) l <->
  x ∈ matched_of st l ∧
  ¬ ∃ e, discovered_endpoints st !! x = Some e ∧ EndpointInfo.participant_guid e ∈ gs.
Proof.
  revert st. induction gs as [|g gs IH]; intros st; cbn [foldl].
  - split; [|intros [H _]; exact H]. intros H. split; [exact H|].
    intros (e & _ & He). apply elem_of_nil in He. exact He.
  - rewrite IH, remove_expired_matched. split.
    + intros [[Hm Hg] Hgs]. split; [exact Hm|].
      intros (e & He & Hin). apply elem_of_cons in Hin. destruct Hin as [Hin | Hin].
      * apply Hg. eauto.
      * apply Hgs. exists e. split; [|exact Hin].
        rewrite remove_expired_endpoint_lookup, He.
        case_bool_decide as E; [|reflexivity]. exfalso. apply Hg. eauto.
    + intros [Hm Hno]. split; [split; [exact Hm|]|].
      * intros (e & He & Hg). apply Hno. exists e. split; [exact He|].
        rewrite Hg. left.
      * intros (e & He & Hin). rewrite remove_expired_endpoint_lookup in He.
        destruct (discovered_endpoints st !! x) as [e'|] eqn:E; [|discriminate].
        case_bool_decide; [discriminate|]. inversion He; subst e'.
        apply Hno. exists e. split; [reflexivity | right; exact Hin].
Qed.

Lemma sweep_dom st gs :
  dom (matched_endpoints (foldl remove_expired st gs)) = dom (matched_endpoints st).
Proof.
  revert st. induction gs as [|g gs IH]; intros st; cbn [foldl]; [reflexivity|].
  rewrite IH. unfold remove_expired. rewrite discard_endpoints_dom. reflexivity.
Qed.

Lemma elem_of_expired_of_state st now g :
  g ∈ expired_of st now <-> lease_expired (discovered_participants st) now g = true.
Proof.
  rewrite elem_of_expired_of. unfold lease_expired. split.
  - intros (info & H1 & H2). rewrite H1. exact H2.
  - destruct (discovered_participants st !! g) as [info|]; [eauto | discriminate].
Qed.

(** X25: What the lease sweep keeps and what it removes: the participants
    whose lease has not expired stay, a discovered endpoint stays unless
    the [participant_guid] stored with it names a participant with an
    expired lease, and a guid leaves a matched set exactly when its
    endpoint is removed. The sweep deletes no key of the Match Table: a
    local endpoint whose matches are all removed keeps an entry with the
    empty set. *)
Theorem sweep_keeps st now k :
  discovered_participants (cleanup_expired_participants st now) !! k
  = (if lease_expired (discovered_participants st) now k then None
     else discovered_participants st !! k) ∧
  discovered_endpoints (cleanup_expired_participants st now) !! k
  = match discovered_endpoints st !! k with
    | Some e =>
        if lease_expired (discovered_participants st) now
             (EndpointInfo.participant_guid e)
        then None else Some e
    | None => None
    end ∧
  dom (matched_endpoints (cleanup_expired_participants st now))
  = dom (matched_endpoints st) ∧
  (∀ l g, g ∈ matched_of (cleanup_expired_participants st now) l <->
          g ∈ matched_of st l ∧
          ¬ ∃ e, discovered_endpoints st !! g = Some e ∧
                 lease_expired (discovered_participants st) now
                   (EndpointInfo.participant_guid e) = true).
Proof.
  unfold cleanup_expired_participants.
  rewrite sweep_participant_lookup, sweep_endpoint_lookup, sweep_dom.
  split; [|split; [|split; [reflexivity|]]].
  - case_bool_decide as H.
    + apply elem_of_expired_of_state in H. rewrite H. reflexivity.
    + destruct (lease_expired _ now k) eqn:E; [|reflexivity].
      exfalso. apply H, elem_of_expired_of_state, E.
  - destruct (discovered_endpoints st !! k) as [e|]; [|reflexivity].
    case_bool_decide as H.
    + apply elem_of_expired_of_state in H. rewrite H. reflexivity.
    + destruct (lease_expired _ now (EndpointInfo.participant_guid e)) eqn:E;
        [|reflexivity].
      exfalso. apply H, elem_of_expired_of_state, E.
  - intros l g. rewrite sweep_matched. split.
    + intros [Hm Hno]. split; [exact Hm|]. intros (e & He & Hx). apply Hno.
      exists e. split; [exact He | apply elem_of_expired_of_state, Hx].
    + intros [Hm Hno]. split; [exact Hm|]. intros (e & He & Hx). apply Hno.
      exists e. split; [exact He | apply elem_of_expired_of_state, Hx].
Qed.

End SweepKeeps.

(** ** A network transport on its own *)

Section NetworkTransportFacts.

Import Transport NetworkTransport.

Lemma drain_pending st :
  drain (length (pending_messages st)) st = (pending_messages st, init_state).
Proof.
  destruct st as [pending]. simpl.
  induction pending as [|m pending IH]; [reflexivity|].
  simpl. unfold intTransition. simpl. rewrite IH. reflexivity.
Qed.

Lemma feed_lossless config tt st arrivals :
  (∀ a, a ∈ arrivals -> _should_drop config tt a.2 = false) ->
  pending_messages (feed config tt st arrivals) = pending_messages st ++ arrivals.*1.
Proof.
  revert st. induction arrivals as [|[m r] arrivals IH]; intros st H; simpl.
  - rewrite app_nil_r. reflexivity.
  - pose proof (H (m, r) ltac:(left)) as Hd. simpl in Hd.
    change (pending_messages
              (feed config tt (extTransition config tt st (Some m) r) arrivals)
            = pending_messages st ++ m :: arrivals.*1).
    rewrite IH by (intros a Ha; apply H; right; exact Ha).
    unfold extTransition. rewrite Hd. simpl.
    rewrite <- app_assoc. reflexivity.
Qed.

Lemma feed_all_lost config tt st arrivals :
  (∀ a, a ∈ arrivals -> _should_drop config tt a.2 = true) ->
  feed config tt st arrivals = st.
Proof.
  revert st. induction arrivals as [|[m r] arrivals IH]; intros st H; simpl;
    [reflexivity|].
  pose proof (H (m, r) ltac:(left)) as Hd. simpl in Hd.
  change (feed config tt (extTransition config tt st (Some m) r) arrivals = st).
  unfold extTransition. rewrite Hd.
  apply IH. intros a Ha. apply H. right. exact Ha.
Qed.

(** X26: A network transport is a queue. With samples of [random.random()]
    in [[0, 1)]: the TCP transport, and a UDP transport configured with a
    loss rate of 0, deliver every message, in the order of arrival, one
    per internal event, and are passive afterwards; a UDP transport with a
    loss rate of 1 or more keeps nothing. *)
Theorem network_transport_queue config tt arrivals :
  (∀ a, a ∈ arrivals -> (0 <= a.2)%Q ∧ (a.2 < 1)%Q) ->
  ((tt = TCP ∨ (lan_loss_rate config <= 0)%Q) ->
   drain (length arrivals) (feed config tt init_state arrivals)
   = (arrivals.*1, init_state) ∧
   timeAdvance config tt
     (drain (length arrivals) (feed config tt init_state arrivals)).2 = Inf) ∧
  ((tt = UDP_MULTICAST ∨ tt = UDP_UNICAST) -> (1 <= lan_loss_rate config)%Q ->
   ∀ st, feed config tt st arrivals = st).
Proof.
  intros Hs. split.
  - intros Hl.
    assert (Hp : pending_messages (feed config tt init_state arrivals) = arrivals.*1).
    { rewrite feed_lossless; [reflexivity|].
      intros a Ha. destruct (Hs a Ha) as [H0 _].
      destruct Hl as [-> | Hrate]; [reflexivity|].
      unfold _should_drop.
      assert (E : Qle_bool (lan_loss_rate config) a.2 = true)
        by (apply Qle_bool_iff; lra).
      destruct tt; simpl; rewrite ?E; reflexivity. }
    assert (Hd : drain (length arrivals) (feed config tt init_state arrivals)
                 = (arrivals.*1, init_state)).
    { rewrite <- (length_fmap fst arrivals), <- Hp. rewrite drain_pending, Hp.
      reflexivity. }
    split; [exact Hd|]. rewrite Hd. reflexivity.
  - intros Hu Hrate st. apply feed_all_lost.
    intros a Ha. destruct (Hs a Ha) as [_ H1].
    unfold _should_drop.
    assert (E : Qle_bool (lan_loss_rate config) a.2 = false)
      by (apply Qle_bool_false; lra).
    destruct Hu as [-> | ->]; simpl; rewrite E; reflexivity.
Qed.

Lemma network_transport_queue_sample :
  drain 2 (feed lossy_config TCP init_state
             [(local_message, 0%Q); (remote_best_effort_message, (1 # 2)%Q)])
  = ([local_message; remote_best_effort_message], init_state).
Proof.
  assert (Hs : ∀ a : Message * Q,
             a ∈ [(local_message, 0%Q); (remote_best_effort_message, (1 # 2)%Q)] ->
             (0 <= a.2)%Q ∧ (a.2 < 1)%Q).
  { intros a Ha. apply elem_of_cons in Ha. destruct Ha as [-> | Ha].
    - simpl. split; [apply Qle_refl | reflexivity].
    - apply list_elem_of_singleton in Ha. subst a. simpl.
      split; [discriminate | reflexivity]. }
  exact (proj1 (proj1 (network_transport_queue lossy_config TCP _ Hs)
                  (or_introl eq_refl))).
Defined.

End NetworkTransportFacts.

(** ** Statistics of the discovery database *)

Section DatabaseStatistics.

Import Discovery DiscoveryQueries.

Lemma count_filter_omap {A B} (f : A -> option B) (p : B -> bool) (l : list A) :
  length (List.filter (fun a => match f a with Some b => p b | None => false end) l)
  = length (List.filter p (omap f l)).
Proof.
  induction l as [|a l IH]; [reflexivity|].
  simpl. destruct (f a) as [b|]; simpl; [|exact IH].
  destruct (p b); simpl; rewrite IH; reflexivity.
Qed.

(** X17: The per-topic counts of [get_statistics] are the lengths of the
    answers of [get_writers_for_topic] and [get_readers_for_topic], for
    every topic of the cache; a topic that the cache does not hold has no
    entry in the statistics. *)
Theorem statistics_count_queries db topic :
  topic_details (get_statistics db) !! topic
  = match topic_cache db !! topic with
    | Some _ => Some (length (get_writers_for_topic db topic),
                      length (get_readers_for_topic db topic))
    | None => None
    end.
Proof.
  - unfold get_statistics. cbn [topic_details]. rewrite lookup_fmap.
    unfold get_writers_for_topic, get_readers_for_topic, get_endpoints_for_topic,
      count_kind.
    destruct (topic_cache db !! topic) as [guids|]; [|reflexivity].
    cbn [fmap option_fmap option_map].
    rewrite !(count_filter_omap (fun guid => endpoints db !! guid)).
    reflexivity.
Qed.

End DatabaseStatistics.
